(** * DarwinFfmpegArcana: the bounded waitable FIFO core and the pooled command

    A shallow embedding of

    - [fifo/default_semaphore_impl.hpp] (the counting semaphore contract),
    - [fifo/circular_fifo.hpp]          (the circular ring),
    - [fifo/bound_fifo_impl.hpp]        (the waitable bounded FIFO),
    - [ff_cmd.cpp] / [include/ff_cmd.h] (the refcounted command and its pool),

    followed by the properties of the specification that concern them.

    Every operation is modelled as one atomic step on an explicit state: the
    development describes the sequential behaviour of the code (one call
    running to completion), which is what a BLOCKING ring gives under its
    mutex and what a LOCKLESS ring gives to a producer and a consumer that do
    not overlap.  A call that would park its thread on a semaphore whose
    count is zero is reported as [Blocks]. *)

From stdpp Require Import base numbers list option gmap.
From Stdlib Require Import ZArith Lia.

#[local] Open Scope Z_scope.

(* ===================================================================== *)
(** * Machine integers and result codes *)
(* ===================================================================== *)

Definition INT_MAX : Z := 2147483647.
Definition UINT32_MOD : Z := 4294967296.

(** Two's-complement wrap of a C [int]; [std::atomic<int>::fetch_add] and
    [fetch_sub] are defined to wrap. *)
Definition wrap_int (x : Z) : Z := (x + 2147483648) `mod` UINT32_MOD - 2147483648.

(** Wrap of a [uint32_t]. *)
Definition wrap_u32 (x : Z) : Z := x `mod` UINT32_MOD.

(** [sproqet_defines.hpp] *)
Definition SPR_OK : Z := 0.
Definition SPR_INVALID_PARAMETERS : Z := 1.
Definition SPR_FLOWDISABLED : Z := 13.
Definition SPR_NETWORKERROR : Z := 23.
Definition SPR_FIFOFULL : Z := 29.

(** [ff_cmd.h] *)
Definition FF_CMD_FIFO_OK : Z := 0.
Definition FF_CMD_FIFO_INVALID_PARAMS : Z := 1.
Definition FF_CMD_FIFO_FLOW_DISABLED : Z := 13.
Definition FF_CMD_FIFO_FULL : Z := 29.
Definition FF_CMD_FIFO_TIMEOUT : Z := -1.

(* ===================================================================== *)
(** * The circular ring ([circular_fifo.hpp]) *)
(* ===================================================================== *)

Inductive SP_Circular_Fifo_Mode :=
  | Circular_Fifo_Mode_Single_Producer_Lockless
  | Circular_Fifo_Mode_Blocking.

(** Calls the ring makes into user code, in the order they are made.  A
    [WaterMarkHandler] is a function pointer, named here by a number; its
    argument is the opaque pointer registered with it.  [void *] values are
    integers with [0] for [NULL]. *)
Inductive callback :=
  | high_watermark_call (handler : positive) (opaque : Z)
  | low_watermark_call (handler : positive) (opaque : Z)
  | fifo_new_head (userdata : Z)
  | generic_fifo_new_head (monitor : positive) (userdata : Z) (tag : Z).

Definition is_high_call (c : callback) : bool :=
  match c with high_watermark_call _ _ => true | _ => false end.
Definition is_low_call (c : callback) : bool :=
  match c with low_watermark_call _ _ => true | _ => false end.

(** How many calls of a kind a step made. *)
Definition count_calls (p : callback -> bool) (cs : list callback) : nat :=
  length (filter (fun c => p c = true) cs).

Module Ring.
Section circular_fifo.

(** The element type and [Element{}], its value-initialised default. *)
Context {Element : Type} (Element_default : Element).

Record circular_fifo := Build {
  _tail : Z;                      (* std::atomic<int> *)
  _head : Z;                      (* std::atomic<int> *)
  _count : Z;                     (* std::atomic<int> *)
  _array : list Element;
  _natail : Z;
  _nahead : Z;
  _capacity : Z;
  _mode : SP_Circular_Fifo_Mode;
  _headMonitor : bool;            (* non-NULL monitor? *)
  _lowWaterMarkHandler : option positive;
  _highWaterMarkHandler : option positive;
  _highWaterMark : Z;
  _lowWaterMark : Z;
  _waterMarkOpaque : Z
}.

(** [_array[i]]: the slots are raw [malloc]ed storage, so a slot always
    holds some value; the constructor below fills it with [garbage].  An
    index outside the allocation is undefined behaviour in the source; the
    model reads [Element_default] there and ignores the write. *)
Definition array_read (arr : list Element) (i : Z) : Element :=
  default Element_default (arr !! Z.to_nat i).
Definition array_write (arr : list Element) (i : Z) (x : Element) : list Element :=
  <[Z.to_nat i := x]> arr.

(** [circular_fifo(int fifoSize, mode)] *)
Definition new (garbage : Element) (fifoSize : Z) (mode : SP_Circular_Fifo_Mode)
  : circular_fifo :=
  {| _tail := 0; _head := 0; _count := 0;
     _array := replicate (Z.to_nat (fifoSize + 1)) garbage;
     _natail := 0; _nahead := 0;
     _capacity := fifoSize + 1;
     _mode := mode;
     _headMonitor := false;
     _lowWaterMarkHandler := None;
     _highWaterMarkHandler := None;
     _highWaterMark := -1;
     _lowWaterMark := -1;
     _waterMarkOpaque := 0 |}.

Definition setHeadMonitor (monitor : bool) (r : circular_fifo) : circular_fifo :=
  {| _tail := _tail r; _head := _head r; _count := _count r; _array := _array r;
     _natail := _natail r; _nahead := _nahead r; _capacity := _capacity r;
     _mode := _mode r; _headMonitor := monitor;
     _lowWaterMarkHandler := _lowWaterMarkHandler r;
     _highWaterMarkHandler := _highWaterMarkHandler r;
     _highWaterMark := _highWaterMark r; _lowWaterMark := _lowWaterMark r;
     _waterMarkOpaque := _waterMarkOpaque r |}.

Definition getMode (r : circular_fifo) : SP_Circular_Fifo_Mode := _mode r.

(** [(idx + 1) % _capacity]; C's [%] truncates, which is [Z.rem]. *)
Definition increment (r : circular_fifo) (idx : Z) : Z :=
  Z.rem (idx + 1) (_capacity r).

(** [(idx - 1) < 0 ? _capacity - 1 : (idx - 1)] *)
Definition decrement (r : circular_fifo) (idx : Z) : Z :=
  if idx - 1 <? 0 then _capacity r - 1 else idx - 1.

(** The state after the stores of a lockless push/preempt/pop. *)
Definition store_lockless (r : circular_fifo) (arr : list Element) (hd tl cnt : Z)
  : circular_fifo :=
  {| _tail := tl; _head := hd; _count := cnt; _array := arr;
     _natail := _natail r; _nahead := _nahead r; _capacity := _capacity r;
     _mode := _mode r; _headMonitor := _headMonitor r;
     _lowWaterMarkHandler := _lowWaterMarkHandler r;
     _highWaterMarkHandler := _highWaterMarkHandler r;
     _highWaterMark := _highWaterMark r; _lowWaterMark := _lowWaterMark r;
     _waterMarkOpaque := _waterMarkOpaque r |}.

(** The state after the stores of a blocking push/preempt/pop. *)
Definition store_blocking (r : circular_fifo) (arr : list Element) (hd tl cnt : Z)
  : circular_fifo :=
  {| _tail := _tail r; _head := _head r; _count := cnt; _array := arr;
     _natail := tl; _nahead := hd; _capacity := _capacity r;
     _mode := _mode r; _headMonitor := _headMonitor r;
     _lowWaterMarkHandler := _lowWaterMarkHandler r;
     _highWaterMarkHandler := _highWaterMarkHandler r;
     _highWaterMark := _highWaterMark r; _lowWaterMark := _lowWaterMark r;
     _waterMarkOpaque := _waterMarkOpaque r |}.

(** [if(_highWaterMarkHandler && f == _highWaterMark + 1) handler(opaque)] *)
Definition high_check (r : circular_fifo) (f : Z) : list callback :=
  match _highWaterMarkHandler r with
  | Some h => if f =? _highWaterMark r + 1
              then [high_watermark_call h (_waterMarkOpaque r)] else []
  | None => []
  end.

(** [if(_lowWaterMarkHandler && v == _lowWaterMark - 1) handler(opaque)] *)
Definition low_check (r : circular_fifo) (v : Z) : list callback :=
  match _lowWaterMarkHandler r with
  | Some h => if v =? _lowWaterMark r - 1
              then [low_watermark_call h (_waterMarkOpaque r)] else []
  | None => []
  end.

(** [if(_headMonitor && cond) _headMonitor->fifo_new_head(userdata)] *)
Definition head_check (r : circular_fifo) (cond : bool) (userdata : Z)
  : list callback :=
  if _headMonitor r && cond then [fifo_new_head userdata] else [].

(** [bool push(const Element& item)]: the return value, the ring after the
    call and the callbacks made. *)
Definition push (item : Element) (r : circular_fifo)
  : bool * circular_fifo * list callback :=
  match _mode r with
  | Circular_Fifo_Mode_Single_Producer_Lockless =>
      let current_tail := _tail r in
      let next_tail := increment r current_tail in
      let head := _head r in
      if negb (next_tail =? head) then
        let arr := array_write (_array r) current_tail item in
        let f := _count r in                       (* fetch_add returns the old value *)
        let newHead := f =? 0 in
        (true,
         store_lockless r arr (_head r) next_tail (wrap_int (f + 1)),
         high_check r f ++ head_check r newHead 0)
      else (false, r, [])
  | Circular_Fifo_Mode_Blocking =>
      let newHead := _natail r =? _nahead r in
      let current_tail := _natail r in
      let next_tail := increment r current_tail in
      if negb (next_tail =? _nahead r) then
        let arr := array_write (_array r) current_tail item in
        let f := _count r in
        (true,
         store_blocking r arr (_nahead r) next_tail (wrap_int (f + 1)),
         high_check r f ++ head_check r newHead 0)
      else (false, r, [])
  end.

(** [bool preempt(const Element& item)] *)
Definition preempt (item : Element) (r : circular_fifo)
  : bool * circular_fifo * list callback :=
  match _mode r with
  | Circular_Fifo_Mode_Single_Producer_Lockless =>
      let current_head := _head r in
      let next_head := decrement r current_head in
      if negb (next_head =? _tail r) then
        let arr := array_write (_array r) next_head item in
        (true,
         store_lockless r arr next_head (_tail r) (wrap_int (_count r + 1)),
         head_check r true 0)
      else (false, r, [])
  | Circular_Fifo_Mode_Blocking =>
      let current_head := _nahead r in
      let next_head := decrement r current_head in
      if negb (next_head =? _natail r) then
        let arr := array_write (_array r) next_head item in
        (true,
         store_blocking r arr next_head (_natail r) (wrap_int (_count r + 1)),
         head_check r true 0)
      else (false, r, [])
  end.

(** [bool pop(Element& item, void * userdata)]: [item] is the caller's
    variable, returned with its value after the call.  The destructor call
    on the slot leaves the storage as it is (the elements of this
    repository are raw pointers). *)
Definition pop (item : Element) (userdata : Z) (r : circular_fifo)
  : bool * Element * circular_fifo * list callback :=
  match _mode r with
  | Circular_Fifo_Mode_Single_Producer_Lockless =>
      let current_head := _head r in
      if current_head =? _tail r then (false, item, r, [])
      else
        let item' := array_read (_array r) current_head in
        let f := _count r in                       (* fetch_sub returns the old value *)
        (true, item',
         store_lockless r (_array r) (increment r current_head) (_tail r)
           (wrap_int (f - 1)),
         low_check r f ++ head_check r (negb (f =? 1)) userdata)
  | Circular_Fifo_Mode_Blocking =>
      let current_head := _nahead r in
      if current_head =? _natail r then (false, item, r, [])
      else
        let item' := array_read (_array r) current_head in
        let f := _count r in
        let newHead := f - 1 in                    (* fetch_sub(1) - 1 *)
        (true, item',
         store_blocking r (_array r) (increment r current_head) (_natail r)
           (wrap_int (f - 1)),
         low_check r newHead ++ head_check r (negb (newHead =? 0)) userdata)
  end.

Definition capacity (r : circular_fifo) : Z := _capacity r.
Definition storedCount (r : circular_fifo) : Z := _count r.

Definition setWaterMarkHandler (high : Z) (highHandler : option positive)
    (low : Z) (lowHandler : option positive) (data : Z) (r : circular_fifo)
  : circular_fifo :=
  {| _tail := _tail r; _head := _head r; _count := _count r; _array := _array r;
     _natail := _natail r; _nahead := _nahead r; _capacity := _capacity r;
     _mode := _mode r; _headMonitor := _headMonitor r;
     _lowWaterMarkHandler := lowHandler;
     _highWaterMarkHandler := highHandler;
     _highWaterMark := high; _lowWaterMark := low;
     _waterMarkOpaque := data |}.

End circular_fifo.
End Ring.

(* ===================================================================== *)
(** * The counting semaphore ([default_semaphore_impl.hpp]) *)
(* ===================================================================== *)

(** The platform primitives are used through the contract written in the
    header: a count that [Post] increases, that [Wait] and [TryWait]
    decrease when it is not zero.  [try_busy] and [timed_out] are the
    non-zero values the platform returns from a try-wait that found the
    count at zero and from a timed wait that expired; they differ from one
    platform to the next and are parameters of the model. *)
Module Sem.

Record semaphore := Build { count : nat }.

Definition new (initVal : Z) : semaphore := {| count := Z.to_nat initVal |}.

(** [int Post()] *)
Definition Post (s : semaphore) : Z * semaphore :=
  (0, {| count := S (count s) |}).

(** [int Wait()]: [None] when the caller stays parked. *)
Definition Wait (s : semaphore) : option (Z * semaphore) :=
  match count s with
  | O => None
  | S n => Some (0, {| count := n |})
  end.

(** [int TryWait()] *)
Definition TryWait (try_busy : Z) (s : semaphore) : Z * semaphore :=
  match count s with
  | O => (try_busy, s)
  | S n => (0, {| count := n |})
  end.

(** [int WaitTimed(int msecs)], as its header documents it (0 on success,
    non-zero on timeout) and as the Darwin branch, which this package
    builds, implements it: the relative timeout is split into seconds and
    nanoseconds below one second.  The POSIX branch adds the milliseconds to
    the current time without carrying [tv_nsec] over, so that there the call
    can also fail with [EINVAL] and leave an available permit untaken; no
    statement below rests on the result of a timed wait. *)
Definition WaitTimed (timed_out : Z) (msecs : Z) (s : semaphore) : Z * semaphore :=
  match count s with
  | O => (timed_out, s)
  | S n => (0, {| count := n |})
  end.

(** [while(!TryWait()) {}]: one iteration per unit of the count. *)
Fixpoint Reset_loop (n : nat) : nat :=
  match n with
  | O => O
  | S n' => Reset_loop n'
  end.

(** [void Reset()] *)
Definition Reset (s : semaphore) : semaphore := {| count := Reset_loop (count s) |}.

End Sem.

(* ===================================================================== *)
(** * The waitable bounded FIFO ([bound_fifo_impl.hpp]) *)
(* ===================================================================== *)

(** What a call that may wait does: return a code, or stay parked. *)
Inductive call_result :=
  | Returns (code : Z)
  | Blocks.

Module Fifo.
Section sproqet_generic_waitable_fifo.

Context {Element : Type} (Element_default : Element).
Context (try_busy timed_out : Z).

Abbreviation ring := (@Ring.circular_fifo Element).

Record waitable_fifo := Build {
  _elements : ring;
  _readSem : option Sem.semaphore;       (* NULL when built without one *)
  _writeSem : Sem.semaphore;
  _maxPackets : Z;
  _flowEnabled : Z;                      (* std::atomic<int> *)
  _headMonitor : option positive;
  _canUnwait : bool;
  _userData : Z;
  _tag : Z;
  _hasBeenRead : bool
}.

Definition with_elements (f : waitable_fifo) (r : ring) : waitable_fifo :=
  {| _elements := r; _readSem := _readSem f; _writeSem := _writeSem f;
     _maxPackets := _maxPackets f; _flowEnabled := _flowEnabled f;
     _headMonitor := _headMonitor f; _canUnwait := _canUnwait f;
     _userData := _userData f; _tag := _tag f; _hasBeenRead := _hasBeenRead f |}.

Definition with_readSem (f : waitable_fifo) (s : option Sem.semaphore) : waitable_fifo :=
  {| _elements := _elements f; _readSem := s; _writeSem := _writeSem f;
     _maxPackets := _maxPackets f; _flowEnabled := _flowEnabled f;
     _headMonitor := _headMonitor f; _canUnwait := _canUnwait f;
     _userData := _userData f; _tag := _tag f; _hasBeenRead := _hasBeenRead f |}.

Definition with_writeSem (f : waitable_fifo) (s : Sem.semaphore) : waitable_fifo :=
  {| _elements := _elements f; _readSem := _readSem f; _writeSem := s;
     _maxPackets := _maxPackets f; _flowEnabled := _flowEnabled f;
     _headMonitor := _headMonitor f; _canUnwait := _canUnwait f;
     _userData := _userData f; _tag := _tag f; _hasBeenRead := _hasBeenRead f |}.

Definition with_flowEnabled (f : waitable_fifo) (v : Z) : waitable_fifo :=
  {| _elements := _elements f; _readSem := _readSem f; _writeSem := _writeSem f;
     _maxPackets := _maxPackets f; _flowEnabled := v;
     _headMonitor := _headMonitor f; _canUnwait := _canUnwait f;
     _userData := _userData f; _tag := _tag f; _hasBeenRead := _hasBeenRead f |}.

Definition with_hasBeenRead (f : waitable_fifo) (b : bool) : waitable_fifo :=
  {| _elements := _elements f; _readSem := _readSem f; _writeSem := _writeSem f;
     _maxPackets := _maxPackets f; _flowEnabled := _flowEnabled f;
     _headMonitor := _headMonitor f; _canUnwait := _canUnwait f;
     _userData := _userData f; _tag := _tag f; _hasBeenRead := b |}.

(** The constructor.  [maxPackets] is an [unsigned int]; the member
    [_maxPackets] is an [int]. *)
Definition new (garbage : Element) (maxPackets : Z) (headMonitor : option positive)
    (readSemaphore : bool) (mode : SP_Circular_Fifo_Mode)
    (userData : Z) (tag : Z) (canUnwait : bool) : waitable_fifo :=
  let r := Ring.new garbage (wrap_int maxPackets) mode in
  {| _elements := match headMonitor with
                  | Some _ => Ring.setHeadMonitor true r
                  | None => r
                  end;
     _readSem := if readSemaphore then Some (Sem.new 0) else None;
     _writeSem := Sem.new maxPackets;
     _maxPackets := wrap_int maxPackets;
     _flowEnabled := 0;
     _headMonitor := headMonitor;
     _canUnwait := canUnwait;
     _userData := userData;
     _tag := tag;
     _hasBeenRead := false |}.

Definition tag (f : waitable_fifo) : Z := _tag f.

(** [void fifo_new_head(void * userdata)]: the FIFO is the ring's head
    monitor and forwards to its own monitor when it has one. *)
Definition fifo_new_head_impl (f : waitable_fifo) : list callback :=
  match _headMonitor f with
  | Some m => [generic_fifo_new_head m (_userData f) (_tag f)]
  | None => []
  end.

(** The calls of a ring operation as they leave the FIFO. *)
Definition forward (f : waitable_fifo) (cs : list callback) : list callback :=
  flat_map (fun c => match c with
                     | fifo_new_head _ => fifo_new_head_impl f
                     | _ => [c]
                     end) cs.

(** [void _signalRead()] *)
Definition _signalRead (f : waitable_fifo) : waitable_fifo :=
  match _readSem f with
  | Some s => with_readSem f (Some (snd (Sem.Post s)))
  | None => f
  end.

(** [void _signalWrite()] *)
Definition _signalWrite (f : waitable_fifo) : waitable_fifo :=
  with_writeSem f (snd (Sem.Post (_writeSem f))).

(** [Element _popPacket()] *)
Definition _popPacket (f : waitable_fifo) : Element * waitable_fifo * list callback :=
  let retv := Element_default in
  let '(_, retv', r', cs) := Ring.pop Element_default retv 0 (_elements f) in
  (retv', _signalWrite (with_elements f r'), forward f cs).

(** [int _pushPacket(Element packet)] *)
Definition _pushPacket (packet : Element) (f : waitable_fifo)
  : Z * waitable_fifo * list callback :=
  let '(ok, r', cs) := Ring.push packet (_elements f) in
  if ok then (SPR_OK, _signalRead (with_elements f r'), forward f cs)
  else (SPR_FIFOFULL, with_elements f r', forward f cs).

(** [int read(Element& element)]: the code returned and the value left in
    the caller's [element]. *)
Definition read (f : waitable_fifo) : Z * Element * waitable_fifo * list callback :=
  let '(element, f', cs) := _popPacket f in
  (1, element, with_hasBeenRead f' true, cs).

(** [int write(Element& element)] *)
Definition write (element : Element) (f : waitable_fifo)
  : Z * waitable_fifo * list callback :=
  let enabledFlow := _flowEnabled f in
  if enabledFlow =? 0 then (SPR_FLOWDISABLED, f, [])
  else _pushPacket element f.

(** [int preempt(Element element)] *)
Definition preempt (element : Element) (f : waitable_fifo)
  : Z * waitable_fifo * list callback :=
  let enabledFlow := _flowEnabled f in
  if enabledFlow =? 0 then (SPR_FLOWDISABLED, f, [])
  else
    let '(ok, r', cs) := Ring.preempt element (_elements f) in
    if ok then (SPR_OK, _signalRead (with_elements f r'), forward f cs)
    else (SPR_FIFOFULL, with_elements f r', forward f cs).

(** [int waitForReadData()] *)
Definition waitForReadData (f : waitable_fifo) : call_result * waitable_fifo :=
  match _readSem f with
  | Some s =>
      match Sem.Wait s with
      | Some (ret, s') => (Returns ret, with_readSem f (Some s'))
      | None => (Blocks, f)
      end
  | None => (Returns SPR_FLOWDISABLED, f)
  end.

(** [int tryWaitForReadData()] *)
Definition tryWaitForReadData (f : waitable_fifo) : Z * waitable_fifo :=
  match _readSem f with
  | None => (0, f)
  | Some s =>
      let '(ret, s') := Sem.TryWait try_busy s in
      (ret, with_readSem f (Some s'))
  end.

(** [int tryWaitForWriteData()] *)
Definition tryWaitForWriteData (f : waitable_fifo) : Z * waitable_fifo :=
  let enabledFlow := _flowEnabled f in
  if enabledFlow =? 0 then (SPR_FLOWDISABLED, f)
  else
    let '(retv, s') := Sem.TryWait try_busy (_writeSem f) in
    let f' := with_writeSem f s' in
    let flow := _flowEnabled f' in
    if flow =? 0 then (SPR_FLOWDISABLED, f') else (retv, f').

(** What [waitForWriteSpace] does once [_writeSem->Wait()] has returned:
    it loads the flow flag again. *)
Definition waitForWriteSpace_wake (f : waitable_fifo) : Z :=
  let enabledFlow := _flowEnabled f in
  if enabledFlow =? 1 then SPR_OK else SPR_FLOWDISABLED.

(** [int waitForWriteSpace()] *)
Definition waitForWriteSpace (f : waitable_fifo) : call_result * waitable_fifo :=
  let enabledFlow := _flowEnabled f in
  if enabledFlow =? 0 then (Returns SPR_FLOWDISABLED, f)
  else
    match Sem.Wait (_writeSem f) with
    | Some (_, s') =>
        let f' := with_writeSem f s' in
        (Returns (waitForWriteSpace_wake f'), f')
    | None => (Blocks, f)
    end.

(** [int waitForReadDataTimed(int msecs)] *)
Definition waitForReadDataTimed (msecs : Z) (f : waitable_fifo)
  : call_result * waitable_fifo :=
  match _readSem f with
  | None => (Returns 0, f)
  | Some s =>
      if msecs <? 1 then
        match waitForReadData f with
        | (Returns _, f') => (Returns 0, f')
        | (Blocks, f') => (Blocks, f')
        end
      else
        let '(ret, s') := Sem.WaitTimed timed_out msecs s in
        (Returns ret, with_readSem f (Some s'))
  end.

(** [int waitForWriteSpaceTimed(int msecs)] *)
Definition waitForWriteSpaceTimed (msecs : Z) (f : waitable_fifo)
  : call_result * waitable_fifo :=
  if msecs <? 1 then waitForWriteSpace f
  else
    let enabledFlow := _flowEnabled f in
    if enabledFlow =? 0 then (Returns SPR_FLOWDISABLED, f)
    else
      let '(retv, s') := Sem.WaitTimed timed_out msecs (_writeSem f) in
      let f' := with_writeSem f s' in
      let flow := _flowEnabled f' in
      if flow =? 0 then (Returns SPR_FLOWDISABLED, f') else (Returns retv, f').

(** [void setFlowEnabled(bool enabled)] *)
Definition setFlowEnabled (enabled : bool) (f : waitable_fifo) : waitable_fifo :=
  let flow := _flowEnabled f in
  if ((flow =? 0) && negb enabled) || ((flow =? 1) && enabled) then f
  else if enabled then with_flowEnabled f 1
  else
    let f0 := with_flowEnabled f 0 in
    let pcount := Ring.storedCount (_elements f0) in
    let cap := Ring.capacity (_elements f0) in
    let f1 :=
      if pcount =? cap - 1
      then with_writeSem f0 (Sem.Reset (snd (Sem.Post (_writeSem f0))))
      else f0 in
    match _readSem f1 with
    | Some s =>
        if pcount =? 0
        then with_readSem f1 (Some (Sem.Reset (snd (Sem.Post s))))
        else f1
    | None => f1
    end.

(** [bool getFlowEnabled()] *)
Definition getFlowEnabled (f : waitable_fifo) : bool := 0 <? _flowEnabled f.

(** [int storedCount()] *)
Definition storedCount (f : waitable_fifo) : Z := Ring.storedCount (_elements f).

Definition setWaterMarkHandler (high : Z) (highHandler : option positive)
    (low : Z) (lowHandler : option positive) (data : Z) (f : waitable_fifo)
  : waitable_fifo :=
  with_elements f
    (Ring.setWaterMarkHandler high highHandler low lowHandler data (_elements f)).

(** [bool hasBeenRead()] *)
Definition hasBeenRead (f : waitable_fifo) : bool := _hasBeenRead f.

End sproqet_generic_waitable_fifo.
End Fifo.

(** ** Runs of FIFO calls *)

Module FifoRun.
Section runs.

Context {Element : Type} (Element_default : Element).
Context (try_busy timed_out : Z).

Abbreviation fifo := (@Fifo.waitable_fifo Element).

(** The public calls that act on a FIFO. *)
Inductive fifo_op :=
  | op_read
  | op_write (element : Element)
  | op_preempt (element : Element)
  | op_waitForReadData
  | op_tryWaitForReadData
  | op_tryWaitForWriteData
  | op_waitForWriteSpace
  | op_waitForReadDataTimed (msecs : Z)
  | op_waitForWriteSpaceTimed (msecs : Z)
  | op_setFlowEnabled (enabled : bool)
  | op_setWaterMarkHandler (high : Z) (highHandler : option positive)
      (low : Z) (lowHandler : option positive) (data : Z).

(** What the caller of one call observes.  For [read], [popped] records
    whether the ring's [pop] inside [_popPacket] returned [true]; [read]
    itself drops that value. *)
Inductive observed :=
  | obs_code (r : call_result)
  | obs_read (code : Z) (element : Element) (popped : bool)
  | obs_void.

Definition step (op : fifo_op) (f : fifo) : observed * fifo * list callback :=
  match op with
  | op_read =>
      let popped := (Ring.pop Element_default Element_default 0 (Fifo._elements f)).1.1.1 in
      let '(code, element, f', cs) := Fifo.read Element_default f in
      (obs_read code element popped, f', cs)
  | op_write element =>
      let '(code, f', cs) := Fifo.write element f in (obs_code (Returns code), f', cs)
  | op_preempt element =>
      let '(code, f', cs) := Fifo.preempt element f in (obs_code (Returns code), f', cs)
  | op_waitForReadData =>
      let '(res, f') := Fifo.waitForReadData f in (obs_code res, f', [])
  | op_tryWaitForReadData =>
      let '(code, f') := Fifo.tryWaitForReadData try_busy f in
      (obs_code (Returns code), f', [])
  | op_tryWaitForWriteData =>
      let '(code, f') := Fifo.tryWaitForWriteData try_busy f in
      (obs_code (Returns code), f', [])
  | op_waitForWriteSpace =>
      let '(res, f') := Fifo.waitForWriteSpace f in (obs_code res, f', [])
  | op_waitForReadDataTimed msecs =>
      let '(res, f') := Fifo.waitForReadDataTimed timed_out msecs f in
      (obs_code res, f', [])
  | op_waitForWriteSpaceTimed msecs =>
      let '(res, f') := Fifo.waitForWriteSpaceTimed timed_out msecs f in
      (obs_code res, f', [])
  | op_setFlowEnabled enabled => (obs_void, Fifo.setFlowEnabled enabled f, [])
  | op_setWaterMarkHandler high hh low lh data =>
      (obs_void, Fifo.setWaterMarkHandler high hh low lh data f, [])
  end.

(** A run: the calls in order, each with what it observed, and the FIFO at
    the end. *)
Fixpoint run (ops : list fifo_op) (f : fifo) : list (fifo_op * observed) * fifo :=
  match ops with
  | [] => ([], f)
  | op :: ops' =>
      let '(o, f', _) := step op f in
      let '(log, f'') := run ops' f' in
      ((op, o) :: log, f'')
  end.

Definition successful_write (e : fifo_op * observed) : bool :=
  match e with
  | (op_write _, obs_code (Returns code)) => code =? SPR_OK
  | _ => false
  end.

Definition successful_preempt (e : fifo_op * observed) : bool :=
  match e with
  | (op_preempt _, obs_code (Returns code)) => code =? SPR_OK
  | _ => false
  end.

Definition successful_read (e : fifo_op * observed) : bool :=
  match e with
  | (op_read, obs_read _ _ popped) => popped
  | _ => false
  end.

Definition is_read_call (e : fifo_op * observed) : bool :=
  match e with
  | (op_read, _) => true
  | _ => false
  end.

Definition tally (p : fifo_op * observed -> bool) (log : list (fifo_op * observed)) : Z :=
  Z.of_nat (length (filter (fun e => p e = true) log)).

Definition enables_flow (op : fifo_op) : bool :=
  match op with
  | op_setFlowEnabled true => true
  | _ => false
  end.


End runs.
End FifoRun.

(* ===================================================================== *)
(** * The refcounted command and its pool ([ff_cmd.h], [ff_cmd.cpp]) *)
(* ===================================================================== *)

Module Cmd.

(** [struct IFFRefCounted]: two function pointers, each of which may be
    [NULL]; a function is named by a number. *)
Record IFFRefCounted := BuildIface {
  AddRef : option positive;
  Release : option positive
}.

#[global] Instance IFFRefCounted_eq_dec : EqDecision IFFRefCounted.
Proof. solve_decision. Defined.

(** [FFCmdType] *)
Definition FF_CMD_NONE : Z := 0.
Definition FF_CMD_FRAME : Z := 1.
Definition FF_CMD_PACKET : Z := 2.
Definition FF_CMD_FLUSH : Z := 3.
Definition FF_CMD_EOS : Z := 4.
Definition FF_CMD_SEEK : Z := 5.
Definition FF_CMD_CONFIG : Z := 6.
Definition FF_CMD_USER : Z := 4096.

(** [struct FFCmd].  Pointers to commands and pools are [option positive],
    [None] for [NULL]; [data] and [user_data] are [void *], [0] for [NULL];
    [data_ref] holds the interface it points to. *)
Record FFCmd := BuildCmd {
  ref : IFFRefCounted;
  type : Z;
  data : Z;
  data_ref : option IFFRefCounted;
  pts : Z;
  dts : Z;
  flags : Z;
  stream_index : Z;
  user_data : Z;
  _pool : option positive;
  _next : option positive;
  _refcount : Z
}.

(** [struct FFCmdPool] (the mutex is not modelled: one call at a time). *)
Record FFCmdPool := BuildPool {
  free_list : option positive;
  all_cmds : option positive;
  total_count : Z;
  free_count : Z;
  max_size : Z
}.

(** The calls made through a payload's interface. *)
Inductive adapter_call :=
  | call_AddRef (iface : IFFRefCounted) (payload : Z)
  | call_Release (iface : IFFRefCounted) (payload : Z).

#[global] Instance adapter_call_eq_dec : EqDecision adapter_call.
Proof. solve_decision. Defined.

(** The heap of commands and pools, and the adapter calls made so far
    (oldest first). *)
Record memory := BuildMem {
  cmds : gmap positive FFCmd;
  pools : gmap positive FFCmdPool;
  calls : list adapter_call
}.

Definition empty_memory : memory := {| cmds := ∅; pools := ∅; calls := [] |}.

Definition store_cmd (a : positive) (c : FFCmd) (m : memory) : memory :=
  {| cmds := <[a := c]> (cmds m); pools := pools m; calls := calls m |}.
Definition store_pool (p : positive) (pl : FFCmdPool) (m : memory) : memory :=
  {| cmds := cmds m; pools := <[p := pl]> (pools m); calls := calls m |}.
Definition log_call (e : adapter_call) (m : memory) : memory :=
  {| cmds := cmds m; pools := pools m; calls := calls m ++ [e] |}.

(** ids of [cmd_addref] and [cmd_release] *)
Definition cmd_addref_fn : positive := 1%positive.
Definition cmd_release_fn : positive := 2%positive.

(** [static IFFRefCounted cmd_ref_vtable] *)
Definition cmd_ref_vtable : IFFRefCounted :=
  {| AddRef := Some cmd_addref_fn; Release := Some cmd_release_fn |}.

(** A cell as [calloc] returns it. *)
Definition zeroed_cmd : FFCmd :=
  {| ref := {| AddRef := None; Release := None |};
     type := 0; data := 0; data_ref := None; pts := 0; dts := 0; flags := 0;
     stream_index := 0; user_data := 0; _pool := None; _next := None;
     _refcount := 0 |}.

(** [cmd->data = d; cmd->data_ref = r;] *)
Definition with_data (c : FFCmd) (d : Z) (r : option IFFRefCounted) : FFCmd :=
  {| ref := ref c; type := type c; data := d; data_ref := r; pts := pts c;
     dts := dts c; flags := flags c; stream_index := stream_index c;
     user_data := user_data c; _pool := _pool c; _next := _next c;
     _refcount := _refcount c |}.

(** [cmd->type = t; pts = dts = flags = stream_index = 0; user_data = nullptr;] *)
Definition with_type_zeroed (c : FFCmd) (t : Z) : FFCmd :=
  {| ref := ref c; type := t; data := data c; data_ref := data_ref c; pts := 0;
     dts := 0; flags := 0; stream_index := 0; user_data := 0;
     _pool := _pool c; _next := _next c; _refcount := _refcount c |}.

Definition with_next (c : FFCmd) (n : option positive) : FFCmd :=
  {| ref := ref c; type := type c; data := data c; data_ref := data_ref c;
     pts := pts c; dts := dts c; flags := flags c; stream_index := stream_index c;
     user_data := user_data c; _pool := _pool c; _next := n;
     _refcount := _refcount c |}.

Definition with_refcount (c : FFCmd) (n : Z) : FFCmd :=
  {| ref := ref c; type := type c; data := data c; data_ref := data_ref c;
     pts := pts c; dts := dts c; flags := flags c; stream_index := stream_index c;
     user_data := user_data c; _pool := _pool c; _next := _next c;
     _refcount := n |}.

(** [cmd->ref = cmd_ref_vtable; cmd->_pool = pool;] *)
Definition with_owner (c : FFCmd) (pool : positive) : FFCmd :=
  {| ref := cmd_ref_vtable; type := type c; data := data c; data_ref := data_ref c;
     pts := pts c; dts := dts c; flags := flags c; stream_index := stream_index c;
     user_data := user_data c; _pool := Some pool; _next := _next c;
     _refcount := _refcount c |}.

(** The eight assignments [ff_cmd_pool_return] and [ff_cmd_pool_acquire]
    share: type NONE, payload and metadata cleared. *)
Definition reset_fields (c : FFCmd) : FFCmd :=
  with_type_zeroed (with_data c 0 None) FF_CMD_NONE.

Definition with_free_list (pl : FFCmdPool) (fl : option positive) (fc : Z) : FFCmdPool :=
  {| free_list := fl; all_cmds := all_cmds pl; total_count := total_count pl;
     free_count := fc; max_size := max_size pl |}.

Definition with_total_count (pl : FFCmdPool) (tc : Z) : FFCmdPool :=
  {| free_list := free_list pl; all_cmds := all_cmds pl; total_count := tc;
     free_count := free_count pl; max_size := max_size pl |}.

(** Every function below returns [None] when the source would dereference
    a pointer to nothing (undefined behaviour there). *)

(** [void ff_cmd_clear_data(FFCmd* cmd)] *)
Definition ff_cmd_clear_data (cmd : option positive) (m : memory) : option memory :=
  match cmd with
  | None => Some m
  | Some a =>
      c ← cmds m !! a;
      let m1 :=
        match data_ref c with
        | Some iface =>
            if negb (data c =? 0) && bool_decide (is_Some (Release iface))
            then log_call (call_Release iface (data c)) m
            else m
        | None => m
        end in
      Some (store_cmd a (with_data c 0 None) m1)
  end.

(** [void ff_cmd_init(FFCmd* cmd, FFCmdType type)] *)
Definition ff_cmd_init (cmd : option positive) (t : Z) (m : memory) : option memory :=
  match cmd with
  | None => Some m
  | Some a =>
      m1 ← ff_cmd_clear_data cmd m;
      c ← cmds m1 !! a;
      Some (store_cmd a (with_type_zeroed c t) m1)
  end.

(** [void ff_cmd_set_data(FFCmd* cmd, void* data, IFFRefCounted* data_ref)] *)
Definition ff_cmd_set_data (cmd : option positive) (d : Z)
    (r : option IFFRefCounted) (m : memory) : option memory :=
  match cmd with
  | None => Some m
  | Some a =>
      m1 ← ff_cmd_clear_data cmd m;
      c ← cmds m1 !! a;
      let m2 := store_cmd a (with_data c d r) m1 in
      Some (match r with
            | Some iface =>
                if negb (d =? 0) && bool_decide (is_Some (AddRef iface))
                then log_call (call_AddRef iface d) m2
                else m2
            | None => m2
            end)
  end.

(** [void ff_cmd_pool_return(FFCmdPool* pool, FFCmd* cmd)] *)
Definition ff_cmd_pool_return (pool cmd : option positive) (m : memory)
  : option memory :=
  match pool, cmd with
  | Some p, Some a =>
      c ← cmds m !! a;
      pl ← pools m !! p;
      let c' := with_next (reset_fields c) (free_list pl) in
      let pl' := with_free_list pl (Some a) (wrap_u32 (free_count pl + 1)) in
      Some (store_pool p pl' (store_cmd a c' m))
  | _, _ => Some m
  end.

(** [static int32_t cmd_addref(void* self)] *)
Definition cmd_addref (self : option positive) (m : memory) : option (Z * memory) :=
  match self with
  | None => Some (0, m)
  | Some a =>
      c ← cmds m !! a;
      let n := wrap_int (_refcount c + 1) in
      Some (n, store_cmd a (with_refcount c n) m)
  end.

(** [static int32_t cmd_release(void* self)] *)
Definition cmd_release (self : option positive) (m : memory) : option (Z * memory) :=
  match self with
  | None => Some (0, m)
  | Some a =>
      c ← cmds m !! a;
      let count := wrap_int (_refcount c - 1) in
      let m1 := store_cmd a (with_refcount c count) m in
      if count =? 0 then
        m2 ← ff_cmd_clear_data self m1;
        c2 ← cmds m2 !! a;
        match _pool c2 with
        | Some p => m3 ← ff_cmd_pool_return (Some p) self m2; Some (count, m3)
        | None => Some (count, m2)
        end
      else Some (count, m1)
  end.

(** [FF_CMD_ADDREF(cmd)] and [FF_CMD_RELEASE(cmd)]: they go through
    [cmd->ref], which holds [cmd_ref_vtable] in every cell of a pool. *)
Definition FF_CMD_ADDREF (cmd : option positive) (m : memory) : option (Z * memory) :=
  match cmd with
  | None => Some (0, m)
  | Some _ => cmd_addref cmd m
  end.
Definition FF_CMD_RELEASE (cmd : option positive) (m : memory) : option (Z * memory) :=
  match cmd with
  | None => Some (0, m)
  | Some _ => cmd_release cmd m
  end.

(** [calloc(1, sizeof(FFCmd))] when it succeeds: an address not in use. *)
Definition calloc (m : memory) : positive := fresh (dom (cmds m)).

(** The pre-allocation loop of [ff_cmd_pool_create]: [n] iterations left,
    [room] successful [calloc]s left before one returns [NULL]. *)
Fixpoint create_loop (n room : nat) (p : positive) (m : memory) : option memory :=
  match n with
  | O => Some m
  | S n' =>
      match room with
      | O => Some m                                   (* if (!cmd) break; *)
      | S room' =>
          let a := calloc m in
          pl ← pools m !! p;
          let c := with_next (with_refcount (with_owner zeroed_cmd p) 0) (free_list pl) in
          let pl' :=
            with_total_count
              (with_free_list pl (Some a) (wrap_u32 (free_count pl + 1)))
              (wrap_u32 (total_count pl + 1)) in
          create_loop n' room' p (store_pool p pl' (store_cmd a c m))
      end
  end.

(** [FFCmdPool* ff_cmd_pool_create(uint32_t initial_size, uint32_t max_size)] *)
Definition ff_cmd_pool_create (initial_size max_size : Z) (room : nat) (m : memory)
  : option (positive * memory) :=
  let p := fresh (dom (pools m)) in
  let pl := {| free_list := None; all_cmds := None; total_count := 0;
               free_count := 0; max_size := max_size |} in
  m' ← create_loop (Z.to_nat initial_size) room p (store_pool p pl m);
  Some (p, m').

(** [FFCmd* ff_cmd_pool_acquire(FFCmdPool* pool)]; [alloc_ok] tells whether
    a [calloc] made by this call succeeds. *)
Definition ff_cmd_pool_acquire (pool : option positive) (alloc_ok : bool) (m : memory)
  : option (option positive * memory) :=
  match pool with
  | None => Some (None, m)
  | Some p =>
      pl ← pools m !! p;
      '(cmd, m1) ←
        match free_list pl with
        | Some a =>
            c ← cmds m !! a;
            Some (Some a,
                  store_pool p (with_free_list pl (_next c) (wrap_u32 (free_count pl - 1))) m)
        | None =>
            if (max_size pl =? 0) || (total_count pl <? max_size pl) then
              if alloc_ok then
                let a := calloc m in
                Some (Some a,
                      store_pool p (with_total_count pl (wrap_u32 (total_count pl + 1)))
                        (store_cmd a (with_owner zeroed_cmd p) m))
              else Some (None, m)
            else Some (None, m)
        end;
      match cmd with
      | Some a =>
          c ← cmds m1 !! a;
          Some (Some a,
                store_cmd a (reset_fields (with_refcount (with_next c None) 1)) m1)
      | None => Some (None, m1)
      end
  end.

(** [ff_cmd_pool_total_count], [ff_cmd_pool_free_count],
    [ff_cmd_pool_in_use_count] *)
Definition ff_cmd_pool_total_count (pool : option positive) (m : memory) : Z :=
  match pool ≫= (fun p => pools m !! p) with
  | Some pl => total_count pl
  | None => 0
  end.
Definition ff_cmd_pool_free_count (pool : option positive) (m : memory) : Z :=
  match pool ≫= (fun p => pools m !! p) with
  | Some pl => free_count pl
  | None => 0
  end.
Definition ff_cmd_pool_in_use_count (pool : option positive) (m : memory) : Z :=
  match pool ≫= (fun p => pools m !! p) with
  | Some pl => wrap_u32 (total_count pl - free_count pl)
  | None => 0
  end.

(** [ff_cmd_is_sentinel], [ff_cmd_is_media] *)
Definition ff_cmd_is_sentinel (cmd : option positive) (m : memory) : bool :=
  match cmd ≫= (fun a => cmds m !! a) with
  | Some c => (type c =? FF_CMD_EOS) || (type c =? FF_CMD_FLUSH)
  | None => false
  end.
Definition ff_cmd_is_media (cmd : option positive) (m : memory) : bool :=
  match cmd ≫= (fun a => cmds m !! a) with
  | Some c => (type c =? FF_CMD_FRAME) || (type c =? FF_CMD_PACKET)
  | None => false
  end.

(** How often [iface]'s [AddRef] / [Release] was called on [payload]. *)
Definition addref_calls (iface : IFFRefCounted) (payload : Z) (cs : list adapter_call)
  : nat :=
  length (filter (fun e => e = call_AddRef iface payload) cs).
Definition release_calls (iface : IFFRefCounted) (payload : Z) (cs : list adapter_call)
  : nat :=
  length (filter (fun e => e = call_Release iface payload) cs).

(** ** The command FIFO: [sproqet_generic_waitable_fifo<FFCmd*, ...>] *)

Abbreviation cmd_fifo := (@Fifo.waitable_fifo (option positive)).

(** [struct FFCmdFifo]: it holds a [unique_ptr] to the FIFO. *)
Record FFCmdFifo := BuildCmdFifo { fifo : option cmd_fifo }.

(** [enum FFCmdFifoMode] *)
Definition FF_CMD_FIFO_LOCKLESS : Z := 0.
Definition FF_CMD_FIFO_BLOCKING : Z := 1.

(** [ff_cmd_fifo_create]: no head monitor, a read semaphore, no user data,
    tag 0, can unwait. *)
Definition ff_cmd_fifo_create (garbage : option positive) (capacity : Z) (mode : Z)
  : FFCmdFifo :=
  let spMode := if mode =? FF_CMD_FIFO_BLOCKING
                then Circular_Fifo_Mode_Blocking
                else Circular_Fifo_Mode_Single_Producer_Lockless in
  {| fifo := Some (Fifo.new garbage capacity None true spMode 0 0 true) |}.

(** [int ff_cmd_fifo_read(FFCmdFifo* fifo, FFCmd** cmd)].  [cmd] is [None]
    for a [NULL] pointer and [Some v] for a pointer to a variable holding
    [v]; the result gives the code, the variable after the call and the
    FIFO after the call. *)
Definition ff_cmd_fifo_read (fifo_ptr : option FFCmdFifo)
    (cmd : option (option positive))
  : Z * option (option positive) * option FFCmdFifo * list callback :=
  match fifo_ptr, cmd with
  | Some {| fifo := Some f |}, Some _ =>
      let '(_, c', f', cs) := Fifo.read None f in   (* c = nullptr; read(c) *)
      (FF_CMD_FIFO_OK, Some c', Some {| fifo := Some f' |}, cs)
  | _, _ => (FF_CMD_FIFO_INVALID_PARAMS, cmd, fifo_ptr, [])
  end.

(** [int ff_cmd_fifo_write(FFCmdFifo* fifo, FFCmd* cmd)] *)
Definition ff_cmd_fifo_write (fifo_ptr : option FFCmdFifo) (cmd : option positive)
  : Z * option FFCmdFifo * list callback :=
  match fifo_ptr with
  | Some {| fifo := Some f |} =>
      let '(code, f', cs) := Fifo.write cmd f in
      (code, Some {| fifo := Some f' |}, cs)
  | _ => (FF_CMD_FIFO_INVALID_PARAMS, fifo_ptr, [])
  end.

(** [int ff_cmd_fifo_count(FFCmdFifo* fifo)] *)
Definition ff_cmd_fifo_count (fifo_ptr : option FFCmdFifo) : Z :=
  match fifo_ptr with
  | Some {| fifo := Some f |} => Fifo.storedCount f
  | _ => 0
  end.

(** [bool ff_cmd_fifo_has_been_read(FFCmdFifo* fifo)] *)
Definition ff_cmd_fifo_has_been_read (fifo_ptr : option FFCmdFifo) : bool :=
  match fifo_ptr with
  | Some {| fifo := Some f |} => Fifo.hasBeenRead f
  | _ => false
  end.

End Cmd.

(* ===================================================================== *)
(** * What a ring holds: the abstraction used by the ring's properties *)
(* ===================================================================== *)

Module RingSpec.
Section spec.

Context {Element : Type} (Element_default : Element).

Abbreviation ring := (@Ring.circular_fifo Element).

(** The indices in force: the atomics in LOCKLESS mode, the
    mutex-protected pair in BLOCKING mode. *)
Definition hd (r : ring) : Z :=
  match Ring._mode r with
  | Circular_Fifo_Mode_Single_Producer_Lockless => Ring._head r
  | Circular_Fifo_Mode_Blocking => Ring._nahead r
  end.
Definition tl (r : ring) : Z :=
  match Ring._mode r with
  | Circular_Fifo_Mode_Single_Producer_Lockless => Ring._tail r
  | Circular_Fifo_Mode_Blocking => Ring._natail r
  end.

(** The ring is empty as [pop] tests it. *)
Definition is_empty (r : ring) : Prop := hd r = tl r.

(** The representation invariant: what the constructor establishes and
    every operation keeps. *)
Definition wf (r : ring) : Prop :=
  0 < Ring._capacity r <= INT_MAX /\
  length (Ring._array r) = Z.to_nat (Ring._capacity r) /\
  0 <= hd r < Ring._capacity r /\
  0 <= tl r < Ring._capacity r /\
  Ring._count r = (tl r - hd r) `mod` Ring._capacity r.

(** The stored elements, the next one to pop first. *)
Definition contents (r : ring) : list Element :=
  (fun k => Ring.array_read Element_default (Ring._array r)
              ((hd r + k) `mod` Ring._capacity r))
    <$> seqZ 0 (Ring._count r).

(** Two rings with the same configuration: capacity, mode, monitor and
    watermark settings. *)
Definition same_config (r r' : ring) : Prop :=
  Ring._capacity r' = Ring._capacity r /\
  Ring._mode r' = Ring._mode r /\
  Ring._headMonitor r' = Ring._headMonitor r /\
  Ring._lowWaterMarkHandler r' = Ring._lowWaterMarkHandler r /\
  Ring._highWaterMarkHandler r' = Ring._highWaterMarkHandler r /\
  Ring._highWaterMark r' = Ring._highWaterMark r /\
  Ring._lowWaterMark r' = Ring._lowWaterMark r /\
  Ring._waterMarkOpaque r' = Ring._waterMarkOpaque r.

(** The callbacks of a successful [pop], mode by mode. *)
Definition pop_calls (r : ring) (userdata : Z) : list callback :=
  match Ring._mode r with
  | Circular_Fifo_Mode_Single_Producer_Lockless =>
      Ring.low_check r (Ring._count r)
      ++ Ring.head_check r (negb (Ring._count r =? 1)) userdata
  | Circular_Fifo_Mode_Blocking =>
      Ring.low_check r (Ring._count r - 1)
      ++ Ring.head_check r (negb (Ring._count r - 1 =? 0)) userdata
  end.

(** [n] calls of [pop] in a row, each into a fresh variable: what each
    returned and left in the variable, and the ring at the end. *)
Fixpoint pops (n : nat) (r : ring) : list (bool * Element) * ring :=
  match n with
  | O => ([], r)
  | S n' =>
      let '(ok, item, r', _) := Ring.pop Element_default Element_default 0 r in
      let '(rest, r'') := pops n' r' in
      ((ok, item) :: rest, r'')
  end.

(** Pushing a list of elements one after the other. *)
Fixpoint pushes (xs : list Element) (r : ring) : list bool * ring :=
  match xs with
  | [] => ([], r)
  | x :: xs' =>
      let '(ok, r', _) := Ring.push x r in
      let '(rest, r'') := pushes xs' r' in
      (ok :: rest, r'')
  end.

(** The calls that act on a ring, and a run of them. *)
Inductive ring_op :=
  | r_push (item : Element)
  | r_preempt (item : Element)
  | r_pop (userdata : Z)
  | r_setHeadMonitor (monitor : bool)
  | r_setWaterMarkHandler (high : Z) (highHandler : option positive)
      (low : Z) (lowHandler : option positive) (data : Z).

Definition ring_step (op : ring_op) (r : ring) : ring :=
  match op with
  | r_push item => (Ring.push item r).1.2
  | r_preempt item => (Ring.preempt item r).1.2
  | r_pop userdata => (Ring.pop Element_default Element_default userdata r).1.2
  | r_setHeadMonitor monitor => Ring.setHeadMonitor monitor r
  | r_setWaterMarkHandler high hh low lh data =>
      Ring.setWaterMarkHandler high hh low lh data r
  end.

Definition ring_run (ops : list ring_op) (r : ring) : ring :=
  foldl (fun r op => ring_step op r) r ops.

End spec.
End RingSpec.

(** ** The invariant of a FIFO of [n] user slots *)

Module FifoSpec.
Section spec.

Context {Element : Type}.

(** The ring is well formed and has [n + 1] slots. *)
Definition fifo_inv (n : Z) (f : @Fifo.waitable_fifo Element) : Prop :=
  RingSpec.wf (Fifo._elements f) /\ Ring._capacity (Fifo._elements f) = n + 1.

(** Flow is disabled. *)
Definition flow_off (f : @Fifo.waitable_fifo Element) : Prop := Fifo._flowEnabled f = 0.

End spec.
End FifoSpec.

(** ** Commands: clean cells, payload balance, runs of calls on one command *)

Module CmdSpec.
Import Cmd.

(** A cell as [acquire] hands it out. *)
Definition is_clean (c : FFCmd) : Prop :=
  _refcount c = 1 /\ type c = FF_CMD_NONE /\ data c = 0 /\ data_ref c = None /\
  pts c = 0 /\ dts c = 0 /\ flags c = 0 /\ stream_index c = 0 /\
  user_data c = 0 /\ _next c = None.

(** The call [ff_cmd_clear_data] makes for the payload a cell carries. *)
Definition released_payload (c : FFCmd) : list adapter_call :=
  match data_ref c with
  | Some iface =>
      if negb (data c =? 0) && bool_decide (is_Some (Release iface))
      then [call_Release iface (data c)] else []
  | None => []
  end.

(** The call [ff_cmd_set_data] makes for the payload it attaches. *)
Definition acquired_payload (d : Z) (r : option IFFRefCounted) : list adapter_call :=
  match r with
  | Some iface =>
      if negb (d =? 0) && bool_decide (is_Some (AddRef iface))
      then [call_AddRef iface d] else []
  | None => []
  end.

(** An adapter in the sense of the specification: both functions present. *)
Definition is_adapter (iface : IFFRefCounted) : Prop :=
  is_Some (AddRef iface) /\ is_Some (Release iface).

(** The command at [a] is allocated, and so is the pool it names. *)
Definition cmd_valid (a : positive) (m : memory) : Prop :=
  exists c, cmds m !! a = Some c /\
            forall p, _pool c = Some p -> is_Some (pools m !! p).

(** The command at [a] carries [payload] with [iface]. *)
Definition holds (a : positive) (iface : IFFRefCounted) (payload : Z) (m : memory)
  : bool :=
  match cmds m !! a with
  | Some c => bool_decide (data c = payload /\ data_ref c = Some iface)
  | None => false
  end.

(** 1 when the cell [c] carries [payload] with [iface], 0 otherwise. *)
Definition carried (iface : IFFRefCounted) (payload : Z) (c : FFCmd) : nat :=
  if bool_decide (data c = payload /\ data_ref c = Some iface) then 1%nat else 0%nat.

(** Every [AddRef] made through [iface] on [payload] has had its [Release],
    except the one for the attachment the command holds now, if it holds
    one.  A command just acquired, with no calls made yet, is in balance. *)
Definition in_balance (a : positive) (iface : IFFRefCounted) (payload : Z)
    (m : memory) : Prop :=
  addref_calls iface payload (calls m)
  = (release_calls iface payload (calls m)
     + if holds a iface payload m then 1 else 0)%nat.

(** The calls of the command API on one command. *)
Inductive cmd_op :=
  | c_init (t : Z)
  | c_set_data (d : Z) (r : option IFFRefCounted)
  | c_clear_data
  | c_addref
  | c_release.

Definition cmd_step (a : positive) (op : cmd_op) (m : memory) : option memory :=
  match op with
  | c_init t => ff_cmd_init (Some a) t m
  | c_set_data d r => ff_cmd_set_data (Some a) d r m
  | c_clear_data => ff_cmd_clear_data (Some a) m
  | c_addref => snd <$> FF_CMD_ADDREF (Some a) m
  | c_release => snd <$> FF_CMD_RELEASE (Some a) m
  end.

Fixpoint cmd_run (a : positive) (ops : list cmd_op) (m : memory) : option memory :=
  match ops with
  | [] => Some m
  | op :: ops' => m' ← cmd_step a op m; cmd_run a ops' m'
  end.

End CmdSpec.

(* ===================================================================== *)
(** * The scenarios of the specification, as concrete states *)
(* ===================================================================== *)

Module Scenario.

(** Pushes in a row: for each, what [push] returned, [storedCount()] after
    it and the callbacks it made. *)
Fixpoint push_trace (xs : list Z) (r : @Ring.circular_fifo Z)
  : list (bool * Z * list callback) :=
  match xs with
  | [] => []
  | x :: xs' =>
      let '(ok, r', cs) := Ring.push x r in
      (ok, Ring.storedCount r', cs) :: push_trace xs' r'
  end.

(** Pops in a row, in the same way. *)
Fixpoint pop_trace (n : nat) (r : @Ring.circular_fifo Z)
  : list (bool * Z * list callback) :=
  match n with
  | O => []
  | S n' =>
      let '(ok, _, r', cs) := Ring.pop 0 0 0 r in
      (ok, Ring.storedCount r', cs) :: pop_trace n' r'
  end.

(** A ring of four user slots with [high = 1] (handler 7), [low = 2]
    (handler 8) and opaque pointer 42. *)
Definition marked (mode : SP_Circular_Fifo_Mode) : @Ring.circular_fifo Z :=
  Ring.setWaterMarkHandler 1 (Some 7%positive) 2 (Some 8%positive) 42
    (Ring.new 0 4 mode).

(** The same ring holding three elements. *)
Definition marked3 (mode : SP_Circular_Fifo_Mode) : @Ring.circular_fifo Z :=
  (RingSpec.pushes [10; 11; 12] (marked mode)).2.

(** Scenario (d): BLOCKING, capacity 8, after pushing A = 1, B = 2, C = 3. *)
Definition ring_ABC : @Ring.circular_fifo Z :=
  (RingSpec.pushes [1; 2; 3] (Ring.new 0 8 Circular_Fifo_Mode_Blocking)).2.

(** The values this development takes for a try-wait that finds the count
    at zero and for a timed wait that expires. *)
Definition try_busy : Z := 1.
Definition timed_out : Z := 1.

(** A BLOCKING FIFO of two slots carrying integers, as constructed. *)
Definition fresh_fifo (readSemaphore : bool) : @Fifo.waitable_fifo Z :=
  Fifo.new 0 2 None readSemaphore Circular_Fifo_Mode_Blocking 0 0 true.



(** A producer and a consumer at work, with one write too many. *)
Definition busy_calls : list (@FifoRun.fifo_op Z) :=
  [FifoRun.op_setFlowEnabled true; FifoRun.op_write 1; FifoRun.op_write 2;
   FifoRun.op_write 3; FifoRun.op_read; FifoRun.op_preempt 9; FifoRun.op_read;
   FifoRun.op_read; FifoRun.op_read].

(** A command FIFO of four slots, as [ff_cmd_fifo_create] returns it. *)
Definition cmd_fifo_4 : Cmd.FFCmdFifo :=
  Cmd.ff_cmd_fifo_create None 4 Cmd.FF_CMD_FIFO_BLOCKING.

(** Scenario (e): a pool with [initial_size = 2] and [max_size = 2], no
    [calloc] failing. *)
Definition pool_2_2 : option (positive * Cmd.memory) :=
  Cmd.ff_cmd_pool_create 2 2 2 Cmd.empty_memory.

(** The whole of scenario (e): what the three acquires return; the free
    count after the third release of [c1]; what that release returned; the
    cell the next acquire returns, and its content. *)
Definition scenario_e :=
  '(p, m0) ← pool_2_2;
  '(c1, m1) ← Cmd.ff_cmd_pool_acquire (Some p) true m0;
  '(c2, m2) ← Cmd.ff_cmd_pool_acquire (Some p) true m1;
  '(c3, m3) ← Cmd.ff_cmd_pool_acquire (Some p) true m2;
  '(_, m4) ← Cmd.FF_CMD_ADDREF c1 m3;
  '(_, m5) ← Cmd.FF_CMD_ADDREF c1 m4;
  '(_, m6) ← Cmd.FF_CMD_RELEASE c1 m5;
  '(_, m7) ← Cmd.FF_CMD_RELEASE c1 m6;
  '(n, m8) ← Cmd.FF_CMD_RELEASE c1 m7;
  '(c4, m9) ← Cmd.ff_cmd_pool_acquire (Some p) true m8;
  Some (c1, c2, c3, n, Cmd.ff_cmd_pool_free_count (Some p) m8, c4,
        c4 ≫= (fun a => Cmd.cmds m9 !! a)).

(** Scenario (e) just before the last of the three releases: the pool is at
    address 1, [c1] at address 2 with refcount 1, [c2] at address 1. *)
Definition before_last_release : Cmd.memory :=
  default Cmd.empty_memory
    ('(p, m0) ← pool_2_2;
     '(c1, m1) ← Cmd.ff_cmd_pool_acquire (Some p) true m0;
     '(c2, m2) ← Cmd.ff_cmd_pool_acquire (Some p) true m1;
     '(_, m4) ← Cmd.FF_CMD_ADDREF c1 m2;
     '(_, m5) ← Cmd.FF_CMD_ADDREF c1 m4;
     '(_, m6) ← Cmd.FF_CMD_RELEASE c1 m5;
     '(_, m7) ← Cmd.FF_CMD_RELEASE c1 m6;
     Some m7).

(** [c1] and the pool in that state. *)
Definition c1_cell : Cmd.FFCmd :=
  {| Cmd.ref := Cmd.cmd_ref_vtable; Cmd.type := 0; Cmd.data := 0;
     Cmd.data_ref := None; Cmd.pts := 0; Cmd.dts := 0; Cmd.flags := 0;
     Cmd.stream_index := 0; Cmd.user_data := 0; Cmd._pool := Some 1%positive;
     Cmd._next := None; Cmd._refcount := 1 |}.
Definition pool_in_use : Cmd.FFCmdPool :=
  {| Cmd.free_list := None; Cmd.all_cmds := None; Cmd.total_count := 2;
     Cmd.free_count := 0; Cmd.max_size := 2 |}.

(** The pool of scenario (e) as created, and its record. *)
Definition pool_created : Cmd.memory := default Cmd.empty_memory (snd <$> pool_2_2).
Definition pool_full : Cmd.FFCmdPool :=
  {| Cmd.free_list := Some 2%positive; Cmd.all_cmds := None; Cmd.total_count := 2;
     Cmd.free_count := 2; Cmd.max_size := 2 |}.

(** A pool created empty with [max_size = 2]: three acquires, each with a
    [calloc] that would succeed, and [total_count] at the end. *)
Definition grow_to_max :=
  '(p, m0) ← Cmd.ff_cmd_pool_create 0 2 0 Cmd.empty_memory;
  '(c1, m1) ← Cmd.ff_cmd_pool_acquire (Some p) true m0;
  '(c2, m2) ← Cmd.ff_cmd_pool_acquire (Some p) true m1;
  '(c3, m3) ← Cmd.ff_cmd_pool_acquire (Some p) true m2;
  Some (c1, c2, c3, Cmd.ff_cmd_pool_total_count (Some p) m3,
        Cmd.ff_cmd_pool_in_use_count (Some p) m3).

(** Scenario (f): an adapter whose functions are numbered 10 and 11, a
    second one, and a command acquired from a pool of one cell. *)
Definition counting_adapter : Cmd.IFFRefCounted :=
  {| Cmd.AddRef := Some 10%positive; Cmd.Release := Some 11%positive |}.
Definition other_adapter : Cmd.IFFRefCounted :=
  {| Cmd.AddRef := Some 20%positive; Cmd.Release := Some 21%positive |}.
Definition one_acquired : Cmd.memory :=
  default Cmd.empty_memory
    ('(p, m0) ← Cmd.ff_cmd_pool_create 1 0 1 Cmd.empty_memory;
     '(_, m1) ← Cmd.ff_cmd_pool_acquire (Some p) true m0;
     Some m1).

(** An interface whose [Release] pointer is [NULL]. *)
Definition addref_only : Cmd.IFFRefCounted :=
  {| Cmd.AddRef := Some 10%positive; Cmd.Release := None |}.

(** Attach payload 77 with it to the acquired command and release the
    command: what the release returns and the adapter calls made. *)
Definition addref_only_run : option (Z * list Cmd.adapter_call) :=
  m1 ← Cmd.ff_cmd_set_data (Some 1%positive) 77 (Some addref_only) one_acquired;
  '(n, m2) ← Cmd.cmd_release (Some 1%positive) m1;
  Some (n, Cmd.calls m2).

(** Calls made on the command between the attachment and the last release. *)
Definition busy_command : list CmdSpec.cmd_op :=
  [CmdSpec.c_init Cmd.FF_CMD_FRAME;
   CmdSpec.c_set_data 77 (Some counting_adapter);
   CmdSpec.c_addref;
   CmdSpec.c_set_data 88 (Some other_adapter);
   CmdSpec.c_release;
   CmdSpec.c_clear_data;
   CmdSpec.c_set_data 77 (Some counting_adapter)].

End Scenario.

(* ===================================================================== *)
(** * The rest of the ring: its destructor *)
(* ===================================================================== *)

Definition is_head_call (c : callback) : bool :=
  match c with fifo_new_head _ => true | _ => false end.

Module RingDtor.
Section destructor.

Context {Element : Type} (Element_default : Element).

(** [while(pop(e, NULL)) {}]: [fuel] bounds the number of iterations the
    model follows; [None] when it is used up before [pop] returns false. *)
Fixpoint purge (fuel : nat) (e : Element) (r : @Ring.circular_fifo Element)
  : option (Element * @Ring.circular_fifo Element * list callback) :=
  match fuel with
  | O => None
  | S fuel' =>
      let '(ok, e', r', cs) := Ring.pop Element_default e 0 r in
      if ok then
        '(e'', r'', cs') ← purge fuel' e' r';
        Some (e'', r'', cs ++ cs')
      else Some (e', r', cs)
  end.

(** [virtual ~circular_fifo()]: [Element e;] holds [e0]; the head monitor is
    disabled, the remaining elements are popped; the result is the ring as
    it is when [free(_array)] is reached. *)
Definition destructor (fuel : nat) (e0 : Element) (r : @Ring.circular_fifo Element)
  : option (Element * @Ring.circular_fifo Element * list callback) :=
  purge fuel e0 (Ring.setHeadMonitor false r).

(** The count at which a pop calls the low-watermark handler: a BLOCKING
    pop compares the count after the pop with [low - 1], a LOCKLESS pop the
    count before it. *)
Definition low_trigger (r : @Ring.circular_fifo Element) : Z :=
  match Ring._mode r with
  | Circular_Fifo_Mode_Blocking => Ring._lowWaterMark r
  | Circular_Fifo_Mode_Single_Producer_Lockless => Ring._lowWaterMark r - 1
  end.

End destructor.
End RingDtor.

(* ===================================================================== *)
(** * Using the FIFO: the producer's and the consumer's pairs of calls *)
(* ===================================================================== *)

Module FifoUse.
Section use.

Context {Element : Type} (Element_default : Element).

Abbreviation fifo := (@Fifo.waitable_fifo Element).

(** What a producer does: [waitForWriteSpace()], and when that returns
    [SPR_OK], [write(x)].  The result is the code of the last call made. *)
Definition produce (x : Element) (f : fifo) : call_result * fifo * list callback :=
  match Fifo.waitForWriteSpace f with
  | (Returns code, f1) =>
      if code =? SPR_OK
      then let '(c, f2, cs) := Fifo.write x f1 in (Returns c, f2, cs)
      else (Returns code, f1, [])
  | (Blocks, f1) => (Blocks, f1, [])
  end.

(** What a consumer does: [waitForReadData()], and when that returns 0,
    [read(&out)]; [out] is [Some] of what [read] left in the variable. *)
Definition consume (f : fifo) : call_result * option Element * fifo * list callback :=
  match Fifo.waitForReadData f with
  | (Returns code, f1) =>
      if code =? 0
      then let '(c, e, f2, cs) := Fifo.read Element_default f1 in
           (Returns c, Some e, f2, cs)
      else (Returns code, None, f1, [])
  | (Blocks, f1) => (Blocks, None, f1, [])
  end.

Inductive paired_op :=
  | p_produce (x : Element)
  | p_consume
  | p_preempt (x : Element).

Inductive paired_obs :=
  | o_produce (x : Element) (r : call_result)
  | o_consume (r : call_result) (out : option Element)
  | o_preempt (x : Element) (code : Z).

Definition paired_step (op : paired_op) (f : fifo) : paired_obs * fifo :=
  match op with
  | p_produce x => let '(r, f', _) := produce x f in (o_produce x r, f')
  | p_consume => let '(r, out, f', _) := consume f in (o_consume r out, f')
  | p_preempt x => let '(c, f', _) := Fifo.preempt x f in (o_preempt x c, f')
  end.

Fixpoint paired_run (ops : list paired_op) (f : fifo) : list paired_obs * fifo :=
  match ops with
  | [] => ([], f)
  | op :: ops' =>
      let '(o, f') := paired_step op f in
      let '(log, f'') := paired_run ops' f' in
      (o :: log, f'')
  end.


(** The surplus of write permits a run leaves: one for each preempt that
    succeeded, less one for each write that found the ring full. *)
Definition surplus (log : list paired_obs) : Z :=
  foldr (fun o k => match o with
                    | o_preempt _ code => if code =? SPR_OK then k + 1 else k
                    | o_produce _ (Returns code) =>
                        if code =? SPR_FIFOFULL then k - 1 else k
                    | _ => k
                    end) 0 log.


(** The permits of the two semaphores. *)
Definition write_permits (f : fifo) : Z := Z.of_nat (Sem.count (Fifo._writeSem f)).
Definition read_permits (f : fifo) : Z :=
  match Fifo._readSem f with
  | Some s => Z.of_nat (Sem.count s)
  | None => 0
  end.

(** The state the pairing keeps: flow enabled, a read semaphore whose
    permits are the stored elements, write permits that with the stored
    elements make the capacity plus [k]. *)
Definition paired_inv (n k : Z) (f : fifo) : Prop :=
  FifoSpec.fifo_inv n f /\ Fifo._flowEnabled f = 1 /\
  is_Some (Fifo._readSem f) /\
  read_permits f = Fifo.storedCount f /\
  write_permits f + Fifo.storedCount f = n + k.

(** The teardown loop of the FIFO owners ([~FFCmdFifo], [~FrameFifo],
    [~PacketFifo]): [while (tryWaitForReadData() == 0) { read(x); ... }];
    it returns what each [read] left in [x], in order.  [None] when [fuel]
    is used up before [tryWaitForReadData] returns non-zero. *)
Fixpoint drain (try_busy : Z) (fuel : nat) (f : fifo) : option (list Element * fifo) :=
  match fuel with
  | O => None
  | S fuel' =>
      let '(code, f1) := Fifo.tryWaitForReadData try_busy f in
      if code =? 0 then
        let '(_, x, f2, _) := Fifo.read Element_default f1 in
        '(xs, f3) ← drain try_busy fuel' f2;
        Some (x :: xs, f3)
      else Some ([], f1)
  end.

(** The owners' destructor up to what it does with each element:
    [setFlowEnabled(false)], then the loop. *)
Definition teardown (try_busy : Z) (fuel : nat) (f : fifo) : option (list Element * fifo) :=
  drain try_busy fuel (Fifo.setFlowEnabled false f).

End use.
End FifoUse.

(* ===================================================================== *)
(** * The pool over its lifetime *)
(* ===================================================================== *)

Module Pool.
Import Cmd CmdSpec.

(** [free(cmd)] and [delete pool] *)
Definition free_cmd (a : positive) (m : memory) : memory :=
  {| cmds := delete a (cmds m); pools := pools m; calls := calls m |}.
Definition delete_pool (p : positive) (m : memory) : memory :=
  {| cmds := cmds m; pools := delete p (pools m); calls := calls m |}.

(** The loop of [ff_cmd_pool_destroy]:
    [while (cmd) { next = cmd->_next; free(cmd); cmd = next; }].
    [None] when [cmd] points to nothing, or when [fuel] is used up. *)
Fixpoint destroy_loop (fuel : nat) (cmd : option positive) (m : memory) : option memory :=
  match cmd with
  | None => Some m
  | Some a =>
      match fuel with
      | O => None
      | S fuel' =>
          c ← cmds m !! a;
          destroy_loop fuel' (_next c) (free_cmd a m)
      end
  end.

(** [void ff_cmd_pool_destroy(FFCmdPool* pool)] *)
Definition ff_cmd_pool_destroy (pool : option positive) (fuel : nat) (m : memory)
  : option memory :=
  match pool with
  | None => Some m
  | Some p =>
      pl ← pools m !! p;
      m' ← destroy_loop fuel (free_list pl) m;
      Some (delete_pool p m')
  end.

(** The cells [l] are the free list from [head]: each is allocated, names
    the pool [p] and links to the next. *)
Fixpoint chain (p : positive) (m : memory) (head : option positive) (l : list positive)
  : Prop :=
  match l with
  | [] => head = None
  | a :: l' =>
      head = Some a /\
      exists c, cmds m !! a = Some c /\ _pool c = Some p /\ chain p m (_next c) l'
  end.

(** A client of one pool.  [held] lists the references the client holds,
    one entry per reference.  The client acquires commands and calls the
    command API on commands it holds a reference to; a call on a command it
    holds no reference to is not made. *)
Inductive pool_op :=
  | a_acquire (alloc_ok : bool)
  | a_on (a : positive) (op : cmd_op).

Fixpoint drop_ref (a : positive) (held : list positive) : list positive :=
  match held with
  | [] => []
  | b :: held' => if decide (a = b) then held' else b :: drop_ref a held'
  end.

Definition refs_held (a : positive) (held : list positive) : nat :=
  length (filter (fun b => b = a) held).

Definition held_after (a : positive) (op : cmd_op) (held : list positive)
  : list positive :=
  match op with
  | c_addref => a :: held
  | c_release => drop_ref a held
  | _ => held
  end.

Fixpoint pool_run (p : positive) (ops : list pool_op) (m : memory)
    (held : list positive) : option (memory * list positive) :=
  match ops with
  | [] => Some (m, held)
  | a_acquire alloc_ok :: ops' =>
      '(r, m') ← ff_cmd_pool_acquire (Some p) alloc_ok m;
      pool_run p ops' m' (match r with Some a => a :: held | None => held end)
  | a_on a op :: ops' =>
      if decide (a ∈ held) then
        m' ← cmd_step a op m;
        pool_run p ops' m' (held_after a op held)
      else pool_run p ops' m held
  end.

(** The commands the client holds, each once. *)
Definition in_use (held : list positive) : list positive := remove_dups held.

(** The state a pool and its client keep: the free list is [l], no free
    cell is held, the counters count the free and the held cells, and each
    held cell's refcount is the number of references the client holds.  [M]
    is the pool's [max_size] and [T] the number of cells it was created
    with. *)
Definition pool_inv (p : positive) (M T : Z) (m : memory) (held l : list positive)
  : Prop :=
  exists pl,
    pools m !! p = Some pl /\
    max_size pl = M /\
    (M <> 0 -> total_count pl <= Z.max M T) /\
    chain p m (free_list pl) l /\
    NoDup l /\
    (forall a, a ∈ l -> a ∉ held) /\
    free_count pl = Z.of_nat (length l) /\
    total_count pl = Z.of_nat (length l + length (in_use held)) /\
    (forall a, a ∈ held ->
       exists c, cmds m !! a = Some c /\ _pool c = Some p /\
                 _refcount c = Z.of_nat (refs_held a held)).

End Pool.

(* ===================================================================== *)
(** * The media FIFOs ([media_fifo.cpp]) *)
(* ===================================================================== *)

(** [FrameFifo] and [PacketFifo] have the same code, over [AVFrame*] with
    [av_frame_clone] / [av_frame_free] and over [AVPacket*] with
    [av_packet_clone] / [av_packet_free]; one model serves both.  A frame or
    packet is named by a number, [None] is [NULL]. *)
Module Media.

Definition FF_FIFO_OK : Z := 0.
Definition FF_FIFO_INVALID_PARAMS : Z := 1.
Definition FF_FIFO_MODE_BLOCKING : Z := 1.

(** The calls into libav: [av_frame_clone(src)] with what it returned, and
    [av_frame_free(&x)]. *)
Inductive av_call :=
  | clone_call (src : positive) (result : option positive)
  | free_call (x : positive).

Abbreviation media_fifo := (@Fifo.waitable_fifo (option positive)).

(** [FrameFifo(capacity, mode)]: no head monitor, a read semaphore, no user
    data, tag 0, can unwait.  The class gives no way to install a head
    monitor or watermark handlers, so its calls make no callbacks. *)
Definition FrameFifo (garbage : option positive) (capacity : Z)
    (mode : SP_Circular_Fifo_Mode) : media_fifo :=
  Fifo.new garbage capacity None true mode 0 0 true.

(** [ff_frame_fifo_create(capacity, mode)] *)
Definition ff_frame_fifo_create (garbage : option positive) (capacity : Z) (mode : Z)
  : media_fifo :=
  FrameFifo garbage capacity
    (if mode =? FF_FIFO_MODE_BLOCKING
     then Circular_Fifo_Mode_Blocking
     else Circular_Fifo_Mode_Single_Producer_Lockless).

(** What [write] and [preempt] do with the clone once the FIFO answered. *)
Definition keep_or_free (src c : positive) (result : Z) : list av_call :=
  if result =? FF_FIFO_OK
  then [clone_call src (Some c)]
  else [clone_call src (Some c); free_call c].

(** [int write(AVFrame* frame)]; [clone] is what [av_frame_clone] returns
    when it is called. *)
Definition write (frame clone : option positive) (f : media_fifo)
  : Z * media_fifo * list av_call :=
  match frame with
  | None => (FF_FIFO_INVALID_PARAMS, f, [])
  | Some src =>
      match clone with
      | None => (FF_FIFO_INVALID_PARAMS, f, [clone_call src None])
      | Some c =>
          let '(result, f', _) := Fifo.write (Some c) f in
          (result, f', keep_or_free src c result)
      end
  end.

(** [int preempt(AVFrame* frame)] *)
Definition preempt (frame clone : option positive) (f : media_fifo)
  : Z * media_fifo * list av_call :=
  match frame with
  | None => (FF_FIFO_INVALID_PARAMS, f, [])
  | Some src =>
      match clone with
      | None => (FF_FIFO_INVALID_PARAMS, f, [clone_call src None])
      | Some c =>
          let '(result, f', _) := Fifo.preempt (Some c) f in
          (result, f', keep_or_free src c result)
      end
  end.

(** [int read(AVFrame** frame)]: [frame] is [None] for a [NULL] pointer and
    [Some v] for a pointer to a variable holding [v]; the result gives the
    variable after the call. *)
Definition read (frame : option (option positive)) (f : media_fifo)
  : Z * option (option positive) * media_fifo :=
  match frame with
  | None => (FF_FIFO_INVALID_PARAMS, None, f)
  | Some _ =>
      let '(_, x, f', _) := Fifo.read (None : option positive) f in
      (FF_FIFO_OK, Some x, f')
  end.

(** [~FrameFifo()]: [setFlowEnabled(false)], then
    [while (tryWaitForReadData() == 0) { read(frame); if (frame) free }].
    [None] when [fuel] is used up before the loop ends. *)
Definition destructor (try_busy : Z) (fuel : nat) (f : media_fifo)
  : option (list av_call * media_fifo) :=
  match FifoUse.teardown (None : option positive) try_busy fuel f with
  | Some (xs, f') => Some (omap (fun x : option positive => free_call <$> x) xs, f')
  | None => None
  end.

(** Producers that wait for write space before they write, consumers that
    wait for read data before they read, and preempts. *)
Inductive media_op :=
  | m_produce (frame clone : option positive)
  | m_consume
  | m_preempt (frame clone : option positive).

(** One such call: the libav calls made, what a reader was handed, and the
    FIFO after it. *)
Definition media_step (op : media_op) (f : media_fifo)
  : list av_call * option positive * media_fifo :=
  match op with
  | m_produce frame clone =>
      match Fifo.waitForWriteSpace f with
      | (Returns code, f1) =>
          if code =? SPR_OK
          then let '(_, f2, cs) := write frame clone f1 in (cs, None, f2)
          else ([], None, f1)
      | (Blocks, f1) => ([], None, f1)
      end
  | m_consume =>
      match Fifo.waitForReadData f with
      | (Returns code, f1) =>
          if code =? 0
          then let '(_, out, f2) := read (Some None) f1 in
               ([], out ≫= id, f2)
          else ([], None, f1)
      | (Blocks, f1) => ([], None, f1)
      end
  | m_preempt frame clone =>
      let '(_, f1, cs) := preempt frame clone f in (cs, None, f1)
  end.

Fixpoint media_run (ops : list media_op) (f : media_fifo)
  : list av_call * list positive * media_fifo :=
  match ops with
  | [] => ([], [], f)
  | op :: ops' =>
      let '(cs, h, f1) := media_step op f in
      let '(cs', hs, f2) := media_run ops' f1 in
      (cs ++ cs', option_list h ++ hs, f2)
  end.

(** The clones made and the objects freed, in the order of the calls. *)
Definition clones_of (cs : list av_call) : list positive :=
  omap (fun c => match c with clone_call _ r => r | free_call _ => None end) cs.
Definition freed_of (cs : list av_call) : list positive :=
  omap (fun c => match c with free_call x => Some x | clone_call _ _ => None end) cs.

(** The frames stored in the FIFO. *)
Definition stored (f : media_fifo) : list positive :=
  omap id (RingSpec.contents (None : option positive) (Fifo._elements f)).

End Media.

(* ===================================================================== *)
(** * The command FIFO's destructor ([ff_cmd.cpp]) *)
(* ===================================================================== *)

Module CmdQueue.
Import Cmd.

(** The loop of [~FFCmdFifo()]:
    [while (fifo->tryWaitForReadData() == 0) { fifo->read(cmd);
       if (cmd) FF_CMD_RELEASE(cmd); }].
    [None] when a release dereferences a pointer to nothing, or when [fuel]
    is used up before the loop ends. *)
Fixpoint destructor_loop (try_busy : Z) (fuel : nat) (f : cmd_fifo) (m : memory)
  : option (cmd_fifo * memory) :=
  match fuel with
  | O => None
  | S fuel' =>
      let '(code, f1) := Fifo.tryWaitForReadData try_busy f in
      if code =? 0 then
        let '(_, cmd, f2, _) := Fifo.read (None : option positive) f1 in
        '(_, m1) ← FF_CMD_RELEASE cmd m;
        destructor_loop try_busy fuel' f2 m1
      else Some (f1, m)
  end.

(** [~FFCmdFifo()] *)
Definition destructor (try_busy : Z) (fuel : nat) (f : cmd_fifo) (m : memory)
  : option (cmd_fifo * memory) :=
  destructor_loop try_busy fuel (Fifo.setFlowEnabled false f) m.

(** The commands queued in the FIFO, oldest first. *)
Definition queued (f : cmd_fifo) : list positive :=
  omap id (RingSpec.contents (None : option positive) (Fifo._elements f)).

(** [FF_CMD_RELEASE] on each of [xs] in turn. *)
Fixpoint release_each (xs : list (option positive)) (m : memory) : option memory :=
  match xs with
  | [] => Some m
  | x :: xs' => '(_, m') ← FF_CMD_RELEASE x m; release_each xs' m'
  end.

(** The references left when one is dropped for each of [xs]. *)
Definition drop_refs (xs : list positive) (held : list positive) : list positive :=
  foldl (fun h a => Pool.drop_ref a h) held xs.

End CmdQueue.

(* ===================================================================== *)
(** * The codec wrapper ([ffmpeg_wrapper.c]) *)
(* ===================================================================== *)

Module Wrapper.

Definition AV_PIX_FMT_NONE : Z := -1.

(** The loop of [get_hw_format] over the array [pix_fmts] points to:
    [for (p = pix_fmts; *p != AV_PIX_FMT_NONE; p++)
       if ( *p == AV_PIX_FMT_VIDEOTOOLBOX) return *p;].
    [Some (Some x)]: returned [x] from the loop; [Some None]: the loop ended
    at the terminator; [None]: it ran off the array. *)
Fixpoint get_hw_format_loop (AV_PIX_FMT_VIDEOTOOLBOX : Z) (p : list Z)
  : option (option Z) :=
  match p with
  | [] => None
  | x :: p' =>
      if x =? AV_PIX_FMT_NONE then Some None
      else if x =? AV_PIX_FMT_VIDEOTOOLBOX then Some (Some x)
      else get_hw_format_loop AV_PIX_FMT_VIDEOTOOLBOX p'
  end.

(** [static enum AVPixelFormat get_hw_format(ctx, pix_fmts)]; the value of
    [AV_PIX_FMT_VIDEOTOOLBOX] is libav's. *)
Definition get_hw_format (AV_PIX_FMT_VIDEOTOOLBOX : Z) (pix_fmts : list Z) : option Z :=
  match get_hw_format_loop AV_PIX_FMT_VIDEOTOOLBOX pix_fmts with
  | None => None
  | Some (Some x) => Some x
  | Some None => pix_fmts !! 0%nat
  end.

(** ** [ff_decoder_create] and [ff_decoder_destroy] *)

(** What the function allocates and frees. *)
Inductive resource :=
  | the_ctx            (* calloc(1, sizeof(FFDecoderContext)) *)
  | the_codec_ctx      (* avcodec_alloc_context3 *)
  | the_hw_device_ctx. (* av_hwdevice_ctx_create *)

#[global] Instance resource_eq_dec : EqDecision resource.
Proof. solve_decision. Defined.

Inductive res_call :=
  | allocated (r : resource)
  | released (r : resource).

#[global] Instance res_call_eq_dec : EqDecision res_call.
Proof. solve_decision. Defined.

(** What the caller passes and what libav answers. *)
Record decoder_inputs := BuildInputs {
  demux_ctx_null : bool;       (* !demux_ctx *)
  fmt_ctx_null : bool;         (* !demux_ctx->fmt_ctx *)
  nb_streams : Z;              (* unsigned int *)
  stream_index : Z;
  use_hardware : bool;
  is_video : bool;             (* codecpar->codec_type == AVMEDIA_TYPE_VIDEO *)
  calloc_ok : bool;
  find_decoder_ok : bool;      (* avcodec_find_decoder(...) != NULL *)
  alloc_context_ok : bool;     (* avcodec_alloc_context3(codec) != NULL *)
  parameters_ok : bool;        (* avcodec_parameters_to_context(...) >= 0 *)
  hwdevice_ok : bool;          (* av_hwdevice_ctx_create(...) == 0 *)
  open_ok : bool               (* avcodec_open2(...) >= 0 *)
}.

(** [struct FFDecoderContext], its pointers as null or not. *)
Record FFDecoderContext := BuildDecoder {
  codec_ctx : bool;
  hw_device_ctx : bool;
  is_hardware : bool;
  dec_stream_index : Z
}.

(** [FFDecoderContext* ff_decoder_create(demux_ctx, stream_index, use_hardware)] *)
Definition ff_decoder_create (i : decoder_inputs)
  : option FFDecoderContext * list res_call :=
  if demux_ctx_null i || fmt_ctx_null i then (None, [])
  else if (stream_index i <? 0) || (wrap_int (nb_streams i) <=? stream_index i)
  then (None, [])
  else if negb (calloc_ok i) then (None, [])
  else if negb (find_decoder_ok i) then (None, [allocated the_ctx; released the_ctx])
  else if negb (alloc_context_ok i) then (None, [allocated the_ctx; released the_ctx])
  else if negb (parameters_ok i)
  then (None, [allocated the_ctx; allocated the_codec_ctx;
               released the_codec_ctx; released the_ctx])
  else
    let hw := use_hardware i && is_video i && hwdevice_ok i in
    let cs := [allocated the_ctx; allocated the_codec_ctx]
              ++ (if hw then [allocated the_hw_device_ctx] else []) in
    if negb (open_ok i)
    then (None,
          cs ++ (if hw then [released the_hw_device_ctx] else [])
             ++ [released the_codec_ctx; released the_ctx])
    else (Some {| codec_ctx := true; hw_device_ctx := hw; is_hardware := hw;
                  dec_stream_index := stream_index i |}, cs).

(** [void ff_decoder_destroy(FFDecoderContext *ctx)] *)
Definition ff_decoder_destroy (ctx : option FFDecoderContext) : list res_call :=
  match ctx with
  | None => []
  | Some c =>
      (if codec_ctx c then [released the_codec_ctx] else [])
      ++ (if hw_device_ctx c then [released the_hw_device_ctx] else [])
      ++ [released the_ctx]
  end.

(** How often [r] was allocated and released. *)
Definition allocations (r : resource) (cs : list res_call) : nat :=
  length (filter (fun c => c = allocated r) cs).
Definition releases (r : resource) (cs : list res_call) : nat :=
  length (filter (fun c => c = released r) cs).

End Wrapper.

(* ===================================================================== *)
(** * A thread inside [waitForWriteSpace] while other threads run *)
(* ===================================================================== *)

Module Parked.
Section parked.

Context {Element : Type} (Element_default : Element).
Context (try_busy timed_out : Z).

Abbreviation fifo := (@Fifo.waitable_fifo Element).








End parked.
End Parked.

(* ===================================================================== *)
(** * More concrete states and runs *)
(* ===================================================================== *)

Module Sample.

(** Calls on a ring of four user slots. *)
Definition ring_calls : list (@RingSpec.ring_op Z) :=
  [RingSpec.r_push 1; RingSpec.r_push 2; RingSpec.r_pop 0; RingSpec.r_preempt 9;
   RingSpec.r_setHeadMonitor true; RingSpec.r_push 3; RingSpec.r_push 4;
   RingSpec.r_push 5].

(** Scenario (d)'s ring with a head monitor. *)
Definition monitored_ABC : @Ring.circular_fifo Z :=
  Ring.setHeadMonitor true Scenario.ring_ABC.

(** Producers, a preempt and a consumer on a FIFO of two slots: the third
    producer finds no write space and stays blocked, the preempt fills the
    FIFO, the next producer's write finds the ring full. *)
Definition paired_calls : list (@FifoUse.paired_op Z) :=
  [FifoUse.p_produce 1; FifoUse.p_preempt 9; FifoUse.p_produce 2;
   FifoUse.p_produce 3; FifoUse.p_consume; FifoUse.p_produce 4].


(** A client of a pool created with two cells and [max_size = 3]. *)
Definition pool_calls : list Pool.pool_op :=
  [Pool.a_acquire true; Pool.a_acquire true; Pool.a_acquire true;
   Pool.a_acquire true; Pool.a_on 2 CmdSpec.c_addref;
   Pool.a_on 2 (CmdSpec.c_init Cmd.FF_CMD_EOS); Pool.a_on 2 CmdSpec.c_release;
   Pool.a_on 2 CmdSpec.c_release; Pool.a_on 1 CmdSpec.c_release].

(** A media FIFO of two slots with flow enabled. *)
Definition enabled_media_fifo : Media.media_fifo :=
  Fifo.setFlowEnabled true (Media.FrameFifo None 2 Circular_Fifo_Mode_Blocking).

(** Writes and preempts of frames 5 to 8 (a clone that fails, a null frame,
    a write into the full FIFO among them) and one read. *)
Definition media_calls : list Media.media_op :=
  [Media.m_produce (Some 5%positive) (Some 100%positive);
   Media.m_produce (Some 5%positive) None;
   Media.m_preempt None None;
   Media.m_preempt (Some 6%positive) (Some 101%positive);
   Media.m_preempt (Some 7%positive) (Some 102%positive);
   Media.m_consume;
   Media.m_produce (Some 8%positive) (Some 103%positive)].

(** A command FIFO of two slots holding the command at address 1. *)
Definition queue_of_one : Cmd.cmd_fifo :=
  (FifoUse.paired_run None [FifoUse.p_produce (Some 1%positive)]
     (Fifo.setFlowEnabled true
        (Fifo.new None 2 None true Circular_Fifo_Mode_Blocking 0 0 true))).2.

(** The pool record of [Scenario.one_acquired]. *)
Definition pool_of_one : Cmd.FFCmdPool :=
  {| Cmd.free_list := None; Cmd.all_cmds := None; Cmd.total_count := 1;
     Cmd.free_count := 0; Cmd.max_size := 0 |}.

(** Formats offered to the decoder, with 160 standing for VideoToolbox. *)
Definition offered_formats : list Z := [0; 23; 160; 25].


(** Two commands of one pool carrying the same payload 77 with the same
    adapter; the first is released: what that release returns and the
    adapter calls made. *)
Definition shared_payload_run : option (Z * list Cmd.adapter_call) :=
  '(p, m0) ← Scenario.pool_2_2;
  '(c1, m1) ← Cmd.ff_cmd_pool_acquire (Some p) true m0;
  '(c2, m2) ← Cmd.ff_cmd_pool_acquire (Some p) true m1;
  m3 ← Cmd.ff_cmd_set_data c1 77 (Some Scenario.counting_adapter) m2;
  m4 ← Cmd.ff_cmd_set_data c2 77 (Some Scenario.counting_adapter) m3;
  '(n, m5) ← Cmd.cmd_release c1 m4;
  Some (n, Cmd.calls m5).

End Sample.

(* ===================================================================== *)
(** * Facts about machine integers *)
(* ===================================================================== *)

Lemma wrap_int_id x : - 2147483648 <= x <= INT_MAX -> wrap_int x = x.
Proof.
  unfold wrap_int, UINT32_MOD, INT_MAX. intros H.
  rewrite Z.mod_small by lia. lia.
Qed.

Lemma wrap_u32_id x : 0 <= x < UINT32_MOD -> wrap_u32 x = x.
Proof. unfold wrap_u32. intros H. by rewrite Z.mod_small. Qed.

Lemma mod_below a c : - c <= a < 0 -> a `mod` c = a + c.
Proof.
  intros H. replace a with (a + c + (-1) * c) at 1 by lia.
  rewrite Z.mod_add by lia. apply Z.mod_small. lia.
Qed.

Lemma mod_above a c : c <= a < 2 * c -> a `mod` c = a - c.
Proof.
  intros H. replace a with (a - c + 1 * c) at 1 by lia.
  rewrite Z.mod_add by lia. apply Z.mod_small. lia.
Qed.

(** Case split on where [a] lies to compute [a mod c], for [-c <= a < 2c]. *)
Ltac mod_cases a c :=
  let H := fresh "Hm" in
  destruct (Z_lt_le_dec a 0) as [H|H];
  [ rewrite (mod_below a c) in * by lia
  | destruct (Z_lt_le_dec a c);
    [ rewrite (Z.mod_small a c) in * by lia
    | rewrite (mod_above a c) in * by lia ] ].

(* ===================================================================== *)
(** * The ring keeps its invariant and behaves as a queue *)
(* ===================================================================== *)

(** Index arithmetic of a ring of [c] slots with head [h] and tail [t]. *)
Section index_arithmetic.

Context (c h t : Z) (Hc : 0 < c) (Hh : 0 <= h < c) (Ht : 0 <= t < c).

Lemma idx_full_push : (t + 1) `mod` c = h <-> (t - h) `mod` c = c - 1.
Proof. mod_cases (t + 1) c; mod_cases (t - h) c; lia. Qed.

Lemma idx_full_preempt : (h - 1) `mod` c = t <-> (t - h) `mod` c = c - 1.
Proof. mod_cases (h - 1) c; mod_cases (t - h) c; lia. Qed.

Lemma idx_count_push :
  (t + 1) `mod` c <> h -> ((t + 1) `mod` c - h) `mod` c = (t - h) `mod` c + 1.
Proof.
  mod_cases (t + 1) c; mod_cases (t - h) c; intros Hne;
    match goal with |- ?a `mod` c = _ => mod_cases a c end; lia.
Qed.

Lemma idx_count_preempt :
  (h - 1) `mod` c <> t -> (t - (h - 1) `mod` c) `mod` c = (t - h) `mod` c + 1.
Proof.
  mod_cases (h - 1) c; mod_cases (t - h) c; intros Hne;
    match goal with |- ?a `mod` c = _ => mod_cases a c end; lia.
Qed.

Lemma idx_count_pop :
  h <> t -> (t - (h + 1) `mod` c) `mod` c = (t - h) `mod` c - 1.
Proof.
  mod_cases (h + 1) c; mod_cases (t - h) c; intros Hne;
    match goal with |- ?a `mod` c = _ => mod_cases a c end; lia.
Qed.

Lemma idx_tail_is_end : (h + (t - h) `mod` c) `mod` c = t.
Proof.
  mod_cases (t - h) c;
    match goal with |- ?a `mod` c = _ => mod_cases a c end; lia.
Qed.

Lemma idx_stored_not_tail k : 0 <= k < (t - h) `mod` c -> (h + k) `mod` c <> t.
Proof. mod_cases (t - h) c; intros Hk; mod_cases (h + k) c; lia. Qed.

Lemma idx_stored_not_before k :
  0 <= k < (t - h) `mod` c -> (t - h) `mod` c < c - 1 ->
  (h + k) `mod` c <> (h - 1) `mod` c.
Proof.
  mod_cases (t - h) c; intros Hk Hn; mod_cases (h + k) c; mod_cases (h - 1) c; lia.
Qed.

Lemma idx_shift_preempt k :
  0 <= k < c -> ((h - 1) `mod` c + (1 + k)) `mod` c = (h + k) `mod` c.
Proof.
  intros Hk. rewrite Z.add_mod_idemp_l by lia. f_equal. lia.
Qed.

Lemma idx_shift_pop k : ((h + 1) `mod` c + k) `mod` c = (h + (1 + k)) `mod` c.
Proof. rewrite Z.add_mod_idemp_l by lia. f_equal. lia. Qed.

End index_arithmetic.

Section ring_facts.

Context {Element : Type} (Element_default : Element).

Abbreviation ring := (@Ring.circular_fifo Element).
Abbreviation wf := (@RingSpec.wf Element).
Abbreviation contents := (RingSpec.contents Element_default).
Abbreviation hd := (@RingSpec.hd Element).
Abbreviation tl := (@RingSpec.tl Element).

Lemma increment_mod (r : ring) i :
  0 < Ring._capacity r -> 0 <= i ->
  Ring.increment r i = (i + 1) `mod` Ring._capacity r.
Proof. intros Hc Hi. unfold Ring.increment. apply Z.rem_mod_nonneg; lia. Qed.

Lemma decrement_mod (r : ring) i :
  0 <= i < Ring._capacity r ->
  Ring.decrement r i = (i - 1) `mod` Ring._capacity r.
Proof.
  intros Hi. unfold Ring.decrement.
  destruct (i - 1 <? 0) eqn:E.
  - apply Z.ltb_lt in E. rewrite mod_below by lia. lia.
  - apply Z.ltb_ge in E. rewrite Z.mod_small by lia. lia.
Qed.

Lemma array_read_write_eq (arr : list Element) i x :
  0 <= i -> (Z.to_nat i < length arr)%nat ->
  Ring.array_read Element_default (Ring.array_write arr i x) i = x.
Proof.
  intros Hi Hl. unfold Ring.array_read, Ring.array_write.
  by rewrite list_lookup_insert_eq.
Qed.

Lemma array_read_write_ne (arr : list Element) i j x :
  0 <= i -> 0 <= j -> i <> j ->
  Ring.array_read Element_default (Ring.array_write arr j x) i
  = Ring.array_read Element_default arr i.
Proof.
  intros Hi Hj Hne. unfold Ring.array_read, Ring.array_write.
  rewrite list_lookup_insert_ne; [done | lia].
Qed.

(** The constructor establishes the invariant on an empty ring. *)
Lemma wf_new garbage fifoSize mode :
  0 <= fifoSize < INT_MAX -> wf (Ring.new garbage fifoSize mode).
Proof.
  intros H. unfold RingSpec.wf, RingSpec.hd, RingSpec.tl, Ring.new.
  destruct mode; simpl; rewrite length_replicate, Z.mod_0_l by lia;
    repeat split; lia.
Qed.

Lemma contents_new garbage fifoSize mode :
  contents (Ring.new garbage fifoSize mode) = [].
Proof. reflexivity. Qed.

Lemma wf_count_range (r : ring) :
  wf r -> 0 <= Ring._count r <= Ring._capacity r - 1.
Proof.
  intros (Hc & _ & _ & _ & Hn). rewrite Hn.
  pose proof (Z.mod_pos_bound (tl r - hd r) (Ring._capacity r)). lia.
Qed.

Lemma wf_empty_iff (r : ring) :
  wf r -> (RingSpec.is_empty r <-> Ring._count r = 0).
Proof.
  intros (Hc & _ & Hh & Ht & Hn). unfold RingSpec.is_empty. rewrite Hn.
  mod_cases (tl r - hd r) (Ring._capacity r); lia.
Qed.

(** The stored elements are unchanged by a write to a slot outside them. *)
Lemma contents_outside (arr : list Element) c h n j x :
  0 <= j ->
  (forall k, 0 <= k < n -> (h + k) `mod` c <> j) ->
  0 < c ->
  (fun k => Ring.array_read Element_default (Ring.array_write arr j x) ((h + k) `mod` c))
    <$> seqZ 0 n
  = (fun k => Ring.array_read Element_default arr ((h + k) `mod` c)) <$> seqZ 0 n.
Proof.
  intros Hj Hout Hc. apply list_fmap_ext. intros i k Hk.
  apply lookup_seqZ in Hk as [-> Hlt].
  apply array_read_write_ne; [|done|apply Hout; lia].
  apply Z.mod_pos_bound. lia.
Qed.


(** ** [push] *)

Lemma push_full x (r : ring) :
  wf r -> Ring._count r = Ring._capacity r - 1 -> Ring.push x r = (false, r, []).
Proof.
  intros (Hc & Hl & Hh & Ht & Hn) Hfull. rewrite Hn in Hfull.
  apply idx_full_push in Hfull; [|lia..].
  unfold RingSpec.hd, RingSpec.tl in *. unfold Ring.push.
  destruct (Ring._mode r); rewrite increment_mod by lia;
    rewrite Hfull, Z.eqb_refl; reflexivity.
Qed.

Lemma push_ok x (r : ring) :
  wf r -> Ring._count r < Ring._capacity r - 1 ->
  exists r',
    Ring.push x r
    = (true, r', Ring.high_check r (Ring._count r)
                 ++ Ring.head_check r (Ring._count r =? 0) 0) /\
    wf r' /\ RingSpec.same_config r r' /\
    Ring._count r' = Ring._count r + 1 /\
    contents r' = contents r ++ [x].
Proof.
  intros Hwf Hroom. pose proof (wf_count_range r Hwf) as Hrange.
  pose proof (wf_empty_iff r Hwf) as Hempty.
  destruct Hwf as (Hc & Hl & Hh & Ht & Hn).
  assert (Hnf : (tl r + 1) `mod` Ring._capacity r <> hd r).
  { intros E. apply idx_full_push in E; lia. }
  assert (Hw : wrap_int (Ring._count r + 1) = Ring._count r + 1).
  { apply wrap_int_id. unfold INT_MAX in *. lia. }
  assert (Hnh : (tl r =? hd r) = (Ring._count r =? 0)).
  { unfold RingSpec.is_empty in Hempty.
    destruct (Z.eqb_spec (tl r) (hd r)), (Z.eqb_spec (Ring._count r) 0); tauto || lia. }
  assert (Hcont :
    (fun k => Ring.array_read Element_default
                (Ring.array_write (Ring._array r) (tl r) x)
                ((hd r + k) `mod` Ring._capacity r))
      <$> seqZ 0 (Ring._count r + 1)
    = contents r ++ [x]).
  { rewrite seqZ_app by lia. rewrite fmap_app. f_equal.
    - apply contents_outside; [lia| |lia].
      intros k Hk. apply idx_stored_not_tail; lia.
    - rewrite Z.add_0_l. rewrite seqZ_cons, seqZ_nil by lia. simpl.
      rewrite Hn, idx_tail_is_end by lia.
      f_equal. apply array_read_write_eq; lia. }
  unfold RingSpec.contents, RingSpec.wf, RingSpec.same_config,
    RingSpec.hd, RingSpec.tl in *.
  unfold Ring.push. destruct (Ring._mode r) eqn:Hm; rewrite increment_mod by lia.
  - destruct (Z.eqb_spec ((Ring._tail r + 1) `mod` Ring._capacity r) (Ring._head r))
      as [E|_]; [done|].
    simpl. eexists. split; [reflexivity|]. simpl. rewrite Hm, Hw.
    unfold Ring.array_write at 1. rewrite length_insert.
    split; [|split; [|split]]; [| |reflexivity|exact Hcont].
    + repeat split; try lia; try (apply Z.mod_pos_bound; lia).
      rewrite idx_count_push by lia. lia.
    + repeat split; reflexivity.
  - destruct (Z.eqb_spec ((Ring._natail r + 1) `mod` Ring._capacity r) (Ring._nahead r))
      as [E|_]; [done|].
    simpl. rewrite Hnh. eexists. split; [reflexivity|]. simpl. rewrite Hm, Hw.
    unfold Ring.array_write at 1. rewrite length_insert.
    split; [|split; [|split]]; [| |reflexivity|exact Hcont].
    + repeat split; try lia; try (apply Z.mod_pos_bound; lia).
      rewrite idx_count_push by lia. lia.
    + repeat split; reflexivity.
Qed.

(** ** [preempt] *)

Lemma preempt_full x (r : ring) :
  wf r -> Ring._count r = Ring._capacity r - 1 -> Ring.preempt x r = (false, r, []).
Proof.
  intros (Hc & Hl & Hh & Ht & Hn) Hfull. rewrite Hn in Hfull.
  apply idx_full_preempt in Hfull; [|lia..].
  unfold RingSpec.hd, RingSpec.tl in *. unfold Ring.preempt.
  destruct (Ring._mode r); rewrite decrement_mod by lia;
    rewrite Hfull, Z.eqb_refl; reflexivity.
Qed.

Lemma preempt_ok x (r : ring) :
  wf r -> Ring._count r < Ring._capacity r - 1 ->
  exists r',
    Ring.preempt x r = (true, r', Ring.head_check r true 0) /\
    wf r' /\ RingSpec.same_config r r' /\
    Ring._count r' = Ring._count r + 1 /\
    contents r' = x :: contents r.
Proof.
  intros Hwf Hroom. pose proof (wf_count_range r Hwf) as Hrange.
  destruct Hwf as (Hc & Hl & Hh & Ht & Hn).
  assert (Hnf : (hd r - 1) `mod` Ring._capacity r <> tl r).
  { intros E. apply idx_full_preempt in E; lia. }
  assert (Hw : wrap_int (Ring._count r + 1) = Ring._count r + 1).
  { apply wrap_int_id. unfold INT_MAX in *. lia. }
  pose proof (Z.mod_pos_bound (hd r - 1) (Ring._capacity r) ltac:(lia)) as Hb.
  assert (Hcont :
    (fun k => Ring.array_read Element_default
                (Ring.array_write (Ring._array r) ((hd r - 1) `mod` Ring._capacity r) x)
                (((hd r - 1) `mod` Ring._capacity r + k) `mod` Ring._capacity r))
      <$> seqZ 0 (Ring._count r + 1)
    = x :: contents r).
  { rewrite seqZ_cons by lia. rewrite fmap_cons. f_equal.
    - rewrite Z.add_0_r, Z.mod_mod by lia. apply array_read_write_eq; lia.
    - replace (Z.pred (Ring._count r + 1)) with (Ring._count r) by lia.
      replace (Z.succ 0) with (1 + 0) by lia.
      rewrite <- fmap_add_seqZ, <- list_fmap_compose.
      apply list_fmap_ext. intros i k Hk. apply lookup_seqZ in Hk as [-> Hlt].
      simpl. rewrite idx_shift_preempt by lia.
      apply array_read_write_ne; [apply Z.mod_pos_bound; lia|lia|].
      apply (idx_stored_not_before _ _ (tl r)); lia. }
  unfold RingSpec.contents, RingSpec.wf, RingSpec.same_config,
    RingSpec.hd, RingSpec.tl in *.
  unfold Ring.preempt. destruct (Ring._mode r) eqn:Hm; rewrite decrement_mod by lia.
  - destruct (Z.eqb_spec ((Ring._head r - 1) `mod` Ring._capacity r) (Ring._tail r))
      as [E|_]; [done|].
    simpl. eexists. split; [reflexivity|]. simpl. rewrite Hm, Hw.
    unfold Ring.array_write at 1. rewrite length_insert.
    split; [|split; [|split]]; [| |reflexivity|exact Hcont].
    + repeat split; try lia. rewrite idx_count_preempt by lia. lia.
    + repeat split; reflexivity.
  - destruct (Z.eqb_spec ((Ring._nahead r - 1) `mod` Ring._capacity r) (Ring._natail r))
      as [E|_]; [done|].
    simpl. eexists. split; [reflexivity|]. simpl. rewrite Hm, Hw.
    unfold Ring.array_write at 1. rewrite length_insert.
    split; [|split; [|split]]; [| |reflexivity|exact Hcont].
    + repeat split; try lia. rewrite idx_count_preempt by lia. lia.
    + repeat split; reflexivity.
Qed.

(** ** [pop] *)

Lemma pop_empty item userdata (r : ring) :
  RingSpec.is_empty r -> Ring.pop Element_default item userdata r = (false, item, r, []).
Proof.
  unfold RingSpec.is_empty, RingSpec.hd, RingSpec.tl, Ring.pop.
  destruct (Ring._mode r); intros ->; by rewrite Z.eqb_refl.
Qed.

Lemma pop_ok item userdata (r : ring) :
  wf r -> 0 < Ring._count r ->
  exists e r',
    Ring.pop Element_default item userdata r = (true, e, r', RingSpec.pop_calls r userdata) /\
    wf r' /\ RingSpec.same_config r r' /\
    Ring._count r' = Ring._count r - 1 /\
    contents r = e :: contents r'.
Proof.
  intros Hwf Hpos. pose proof (wf_count_range r Hwf) as Hrange.
  pose proof (wf_empty_iff r Hwf) as Hempty.
  destruct Hwf as (Hc & Hl & Hh & Ht & Hn).
  assert (Hne : hd r <> tl r) by (unfold RingSpec.is_empty in Hempty; lia).
  assert (Hw : wrap_int (Ring._count r - 1) = Ring._count r - 1).
  { apply wrap_int_id. unfold INT_MAX in *. lia. }
  assert (Hcont :
    contents r
    = Ring.array_read Element_default (Ring._array r) (hd r)
      :: ((fun k => Ring.array_read Element_default (Ring._array r)
                      (((hd r + 1) `mod` Ring._capacity r + k) `mod` Ring._capacity r))
            <$> seqZ 0 (Ring._count r - 1))).
  { unfold RingSpec.contents. rewrite seqZ_cons by lia. rewrite fmap_cons. f_equal.
    - rewrite Z.add_0_r, Z.mod_small by lia. done.
    - replace (Z.pred (Ring._count r)) with (Ring._count r - 1) by lia.
      replace (Z.succ 0) with (1 + 0) by lia.
      rewrite <- fmap_add_seqZ, <- list_fmap_compose.
      apply list_fmap_ext. intros i k Hk. simpl.
      by rewrite idx_shift_pop by lia. }
  unfold RingSpec.wf, RingSpec.same_config, RingSpec.pop_calls.
  rewrite Hcont. clear Hcont.
  unfold RingSpec.contents, RingSpec.hd, RingSpec.tl in *.
  unfold Ring.pop. destruct (Ring._mode r) eqn:Hm.
  - destruct (Z.eqb_spec (Ring._head r) (Ring._tail r)) as [E|_]; [done|].
    rewrite increment_mod by lia.
    simpl. eexists _, _. split; [reflexivity|]. simpl. rewrite Hm, Hw.
    split; [|split; [|split]]; [| |reflexivity|reflexivity].
    + repeat split; try lia; try (apply Z.mod_pos_bound; lia).
      rewrite idx_count_pop by lia. lia.
    + repeat split; reflexivity.
  - destruct (Z.eqb_spec (Ring._nahead r) (Ring._natail r)) as [E|_]; [done|].
    rewrite increment_mod by lia.
    simpl. eexists _, _. split; [reflexivity|]. simpl. rewrite Hm, Hw.
    split; [|split; [|split]]; [| |reflexivity|reflexivity].
    + repeat split; try lia; try (apply Z.mod_pos_bound; lia).
      rewrite idx_count_pop by lia. lia.
    + repeat split; reflexivity.
Qed.

Lemma wf_setWaterMarkHandler high hh low lh data (r : ring) :
  wf r -> wf (Ring.setWaterMarkHandler high hh low lh data r).
Proof. intros H. exact H. Qed.

Lemma wf_setHeadMonitor b (r : ring) : wf r -> wf (Ring.setHeadMonitor b r).
Proof. intros H. exact H. Qed.

Lemma same_config_refl (r : ring) : RingSpec.same_config r r.
Proof. repeat split; reflexivity. Qed.

Lemma same_config_trans (r1 r2 r3 : ring) :
  RingSpec.same_config r1 r2 -> RingSpec.same_config r2 r3 ->
  RingSpec.same_config r1 r3.
Proof.
  intros (?&?&?&?&?&?&?&?) (?&?&?&?&?&?&?&?). repeat split; congruence.
Qed.

Lemma length_contents (r : ring) :
  length (contents r) = Z.to_nat (Ring._count r).
Proof. unfold RingSpec.contents. by rewrite length_fmap, length_seqZ. Qed.

(** Popping hands back the stored elements from the front. *)
Lemma pops_prefix (es rest : list Element) : forall r : ring,
  wf r -> contents r = es ++ rest ->
  exists r',
    RingSpec.pops Element_default (length es) r = (pair true <$> es, r') /\
    wf r' /\ RingSpec.same_config r r' /\ contents r' = rest.
Proof.
  induction es as [|e es IH]; intros r Hwf Hc; simpl.
  - exists r. eauto using same_config_refl.
  - assert (Hpos : 0 < Ring._count r).
    { pose proof (length_contents r) as Hl. rewrite Hc in Hl. simpl in Hl. lia. }
    destruct (pop_ok Element_default 0 r Hwf Hpos)
      as (e' & r1 & Hpop & Hwf1 & Hcfg1 & _ & Hc1).
    rewrite Hpop. rewrite Hc in Hc1. simpl in Hc1. injection Hc1 as -> Hc1.
    destruct (IH r1 Hwf1 (eq_sym Hc1)) as (r' & Hp & Hwf' & Hcfg' & Hc').
    rewrite Hp. exists r'. eauto using same_config_trans.
Qed.

(** Pushing appends at the back, as long as there is room. *)
Lemma pushes_append (xs : list Element) : forall r : ring,
  wf r -> Ring._count r + Z.of_nat (length xs) <= Ring._capacity r - 1 ->
  exists r',
    RingSpec.pushes xs r = (replicate (length xs) true, r') /\
    wf r' /\ RingSpec.same_config r r' /\ contents r' = contents r ++ xs.
Proof.
  induction xs as [|x xs IH]; intros r Hwf Hroom; simpl.
  - exists r. rewrite app_nil_r. eauto using same_config_refl.
  - simpl in Hroom.
    destruct (push_ok x r Hwf ltac:(lia)) as (r1 & Hpush & Hwf1 & Hcfg1 & Hn1 & Hc1).
    rewrite Hpush.
    destruct (IH r1 Hwf1) as (r' & Hp & Hwf' & Hcfg' & Hc').
    { destruct Hcfg1 as (-> & _). lia. }
    rewrite Hp. exists r'. rewrite Hc', Hc1, <- app_assoc.
    eauto using same_config_trans.
Qed.

(** The invariant holds of every ring a program can reach. *)
Lemma wf_ring_step op (r : ring) : wf r -> wf (RingSpec.ring_step Element_default op r).
Proof.
  intros Hwf. pose proof (wf_count_range r Hwf) as Hrange.
  destruct op as [x|x|u|b|high hh low lh data]; simpl; try done.
  - destruct (Z.eq_dec (Ring._count r) (Ring._capacity r - 1)) as [Hfull|Hroom].
    + by rewrite (push_full x r Hwf Hfull).
    + destruct (push_ok x r Hwf ltac:(lia)) as (r' & -> & Hwf' & _). done.
  - destruct (Z.eq_dec (Ring._count r) (Ring._capacity r - 1)) as [Hfull|Hroom].
    + by rewrite (preempt_full x r Hwf Hfull).
    + destruct (preempt_ok x r Hwf ltac:(lia)) as (r' & -> & Hwf' & _). done.
  - destruct (Z.eq_dec (Ring._count r) 0) as [Hz|Hnz].
    + apply (wf_empty_iff r Hwf) in Hz. by rewrite (pop_empty _ _ r Hz).
    + destruct (pop_ok Element_default u r Hwf ltac:(lia)) as (e & r' & -> & Hwf' & _).
      done.
Qed.

Lemma wf_ring_run garbage fifoSize mode ops :
  0 <= fifoSize < INT_MAX ->
  wf (RingSpec.ring_run Element_default ops (Ring.new garbage fifoSize mode)).
Proof.
  intros Hn. pose proof (wf_new garbage fifoSize mode Hn) as Hwf.
  revert Hwf. generalize (Ring.new garbage fifoSize mode).
  unfold RingSpec.ring_run.
  induction ops as [|op ops IH]; intros r Hwf; simpl; [done|].
  apply IH. by apply wf_ring_step.
Qed.

(** ** Watermark callbacks *)

Lemma count_calls_app p (cs1 cs2 : list callback) :
  count_calls p (cs1 ++ cs2) = (count_calls p cs1 + count_calls p cs2)%nat.
Proof. unfold count_calls. by rewrite filter_app, length_app. Qed.

Lemma head_check_no_watermark (r : ring) b u :
  count_calls is_high_call (Ring.head_check r b u) = 0%nat /\
  count_calls is_low_call (Ring.head_check r b u) = 0%nat.
Proof. unfold Ring.head_check. by destruct (Ring._headMonitor r && b). Qed.

Lemma high_check_count (r : ring) f :
  count_calls is_high_call (Ring.high_check r f)
  = if bool_decide (is_Some (Ring._highWaterMarkHandler r))
       && (f =? Ring._highWaterMark r + 1) then 1%nat else 0%nat.
Proof.
  unfold Ring.high_check. destruct (Ring._highWaterMarkHandler r); simpl; [|done].
  by destruct (f =? _).
Qed.

Lemma low_check_count (r : ring) v :
  count_calls is_low_call (Ring.low_check r v)
  = if bool_decide (is_Some (Ring._lowWaterMarkHandler r))
       && (v =? Ring._lowWaterMark r - 1) then 1%nat else 0%nat.
Proof.
  unfold Ring.low_check. destruct (Ring._lowWaterMarkHandler r); simpl; [|done].
  by destruct (v =? _).
Qed.

(** What the code does on a successful push, in both modes: the high
    handler is called once when the count BEFORE the push is [high + 1],
    that is when the count after it is [high + 2]. *)
Lemma push_high_watermark x (r : ring) :
  wf r -> Ring._count r < Ring._capacity r - 1 ->
  exists r' cs,
    Ring.push x r = (true, r', cs) /\
    count_calls is_high_call cs
    = if bool_decide (is_Some (Ring._highWaterMarkHandler r))
         && (Ring._count r' =? Ring._highWaterMark r + 2) then 1%nat else 0%nat.
Proof.
  intros Hwf Hroom.
  destruct (push_ok x r Hwf Hroom) as (r' & Hpush & _ & _ & Hn & _).
  eexists _, _. split; [exact Hpush|].
  rewrite count_calls_app, high_check_count.
  rewrite (proj1 (head_check_no_watermark _ _ _)), Nat.add_0_r, Hn.
  replace (Ring._count r + 1 =? Ring._highWaterMark r + 2)
    with (Ring._count r =? Ring._highWaterMark r + 1); [done|].
  destruct (Z.eqb_spec (Ring._count r) (Ring._highWaterMark r + 1)),
    (Z.eqb_spec (Ring._count r + 1) (Ring._highWaterMark r + 2)); lia || done.
Qed.

(** What the code does on a successful pop: in BLOCKING mode the low handler
    is called once when the count after the pop is [low - 1]; in LOCKLESS
    mode when the count BEFORE the pop is [low - 1], that is when the count
    after it is [low - 2]. *)
Lemma pop_low_watermark item userdata (r : ring) :
  wf r -> 0 < Ring._count r ->
  exists e r' cs,
    Ring.pop Element_default item userdata r = (true, e, r', cs) /\
    count_calls is_low_call cs
    = if bool_decide (is_Some (Ring._lowWaterMarkHandler r))
         && (Ring._count r' =?
             match Ring._mode r with
             | Circular_Fifo_Mode_Blocking => Ring._lowWaterMark r - 1
             | Circular_Fifo_Mode_Single_Producer_Lockless => Ring._lowWaterMark r - 2
             end)
      then 1%nat else 0%nat.
Proof.
  intros Hwf Hpos.
  destruct (pop_ok item userdata r Hwf Hpos) as (e & r' & Hpop & _ & _ & Hn & _).
  eexists _, _, _. split; [exact Hpop|].
  unfold RingSpec.pop_calls.
  destruct (Ring._mode r); rewrite count_calls_app, low_check_count,
    (proj2 (head_check_no_watermark _ _ _)), Nat.add_0_r, Hn; [|done].
  replace (Ring._count r - 1 =? Ring._lowWaterMark r - 2)
    with (Ring._count r =? Ring._lowWaterMark r - 1); [done|].
  destruct (Z.eqb_spec (Ring._count r) (Ring._lowWaterMark r - 1)),
    (Z.eqb_spec (Ring._count r - 1) (Ring._lowWaterMark r - 2)); lia || done.
Qed.

(** ** Preempt *)

(** C3: take a ring that is not full and holds [contents r] (the elements
    that pops would return now, in that order; [push] appends to them, see
    [push_ok] and [pushes_append]).  Then [preempt x] succeeds, the next pop
    returns [x], the pops after it return those elements in their order, and
    the ring is empty afterwards. *)
Theorem preempt_is_popped_first (x : Element) (r : ring) :
  wf r -> Ring._count r < Ring._capacity r - 1 ->
  exists r0 r' r'',
    RingSpec.pops Element_default (length (contents r)) r
    = (pair true <$> contents r, r0) /\
    Ring.preempt x r = (true, r', Ring.head_check r true 0) /\
    RingSpec.pops Element_default (S (length (contents r))) r'
    = ((true, x) :: (pair true <$> contents r), r'') /\
    RingSpec.is_empty r''.
Proof.
  intros Hwf Hroom.
  destruct (pops_prefix (contents r) [] r Hwf) as (r0 & Hp0 & _).
  { by rewrite app_nil_r. }
  destruct (preempt_ok x r Hwf Hroom) as (r' & Hpre & Hwf' & _ & _ & Hc').
  destruct (pops_prefix (x :: contents r) [] r' Hwf') as (r'' & Hp & Hwf'' & _ & Hc'').
  { by rewrite app_nil_r. }
  exists r0, r', r''. split; [exact Hp0|]. split; [exact Hpre|]. split; [exact Hp|].
  apply wf_empty_iff; [done|].
  pose proof (length_contents r'') as Hl. rewrite Hc'' in Hl. simpl in Hl.
  pose proof (wf_count_range r'' Hwf''). lia.
Qed.

End ring_facts.

(** The preempt theorem at scenario (d): after A, B, C the preempted Z = 26
    comes out first. *)
Lemma scenario_d_preempt :
  RingSpec.wf Scenario.ring_ABC /\
  Ring._count Scenario.ring_ABC < Ring._capacity Scenario.ring_ABC - 1 /\
  exists r0 r' r'',
    RingSpec.pops 0 3 Scenario.ring_ABC = ([(true, 1); (true, 2); (true, 3)], r0) /\
    Ring.preempt 26 Scenario.ring_ABC
    = (true, r', Ring.head_check Scenario.ring_ABC true 0) /\
    RingSpec.pops 0 4 r' = ([(true, 26); (true, 1); (true, 2); (true, 3)], r'') /\
    RingSpec.is_empty r''.
Proof.
  assert (Hwf : RingSpec.wf Scenario.ring_ABC).
  { unfold RingSpec.wf. vm_compute. repeat split; congruence. }
  split; [exact Hwf|]. split; [reflexivity|].
  exact (preempt_is_popped_first 0 26 Scenario.ring_ABC Hwf eq_refl).
Defined.

(** C1 (as the code behaves): with [high = 1] the second push brings the
    count to [high + 1 = 2] and calls nothing; the handler is called by the
    third push, which brings the count to 3, in both modes.  With [low = 2]
    a LOCKLESS ring calls the low handler on the pop that brings the count
    to 0 and not on the one that brings it to [low - 1 = 1]; a BLOCKING ring
    calls it on the pop that brings the count to 1. *)
Theorem watermark_calls_at_the_thresholds :
  Scenario.push_trace [10; 11; 12] (Scenario.marked Circular_Fifo_Mode_Blocking)
  = [(true, 1, []); (true, 2, []); (true, 3, [high_watermark_call 7 42])] /\
  Scenario.push_trace [10; 11; 12]
    (Scenario.marked Circular_Fifo_Mode_Single_Producer_Lockless)
  = [(true, 1, []); (true, 2, []); (true, 3, [high_watermark_call 7 42])] /\
  Scenario.pop_trace 3 (Scenario.marked3 Circular_Fifo_Mode_Single_Producer_Lockless)
  = [(true, 2, []); (true, 1, []); (true, 0, [low_watermark_call 8 42])] /\
  Scenario.pop_trace 3 (Scenario.marked3 Circular_Fifo_Mode_Blocking)
  = [(true, 2, []); (true, 1, [low_watermark_call 8 42]); (true, 0, [])].
Proof. repeat split; vm_compute; reflexivity. Qed.

(* ===================================================================== *)
(** * The waitable FIFO *)
(* ===================================================================== *)

Section fifo_facts.

Context {Element : Type} (Element_default : Element).
Context (try_busy timed_out : Z).

Abbreviation fifo := (@Fifo.waitable_fifo Element).
Abbreviation step := (FifoRun.step Element_default try_busy timed_out).
Abbreviation run := (FifoRun.run Element_default try_busy timed_out).
Abbreviation fifo_inv := (@FifoSpec.fifo_inv Element).

(** ** One call at a time *)

Lemma read_unfold (f : fifo) ok e r' cs :
  Ring.pop Element_default Element_default 0 (Fifo._elements f) = (ok, e, r', cs) ->
  Fifo.read Element_default f
  = (1, e, Fifo.with_hasBeenRead (Fifo._signalWrite (Fifo.with_elements f r')) true,
     Fifo.forward f cs).
Proof. intros H. unfold Fifo.read, Fifo._popPacket. by rewrite H. Qed.

Lemma elements_signalRead (f : fifo) :
  Fifo._elements (Fifo._signalRead f) = Fifo._elements f.
Proof. unfold Fifo._signalRead. by destruct (Fifo._readSem f). Qed.

Lemma flow_signalRead (f : fifo) :
  Fifo._flowEnabled (Fifo._signalRead f) = Fifo._flowEnabled f.
Proof. unfold Fifo._signalRead. by destruct (Fifo._readSem f). Qed.

Lemma hasBeenRead_signalRead (f : fifo) :
  Fifo._hasBeenRead (Fifo._signalRead f) = Fifo._hasBeenRead f.
Proof. unfold Fifo._signalRead. by destruct (Fifo._readSem f). Qed.

Lemma readSem_signalRead (f : fifo) :
  Fifo._readSem (Fifo._signalRead f) = None <-> Fifo._readSem f = None.
Proof. unfold Fifo._signalRead. by destruct (Fifo._readSem f) eqn:E; simpl; rewrite ?E. Qed.

(** The fields a call leaves alone, call by call. *)
Lemma waitForReadData_fields (f : fifo) :
  let f' := (Fifo.waitForReadData f).2 in
  Fifo._elements f' = Fifo._elements f /\
  Fifo._flowEnabled f' = Fifo._flowEnabled f /\
  Fifo._hasBeenRead f' = Fifo._hasBeenRead f /\
  (Fifo._readSem f' = None <-> Fifo._readSem f = None).
Proof.
  unfold Fifo.waitForReadData. destruct (Fifo._readSem f) as [s|] eqn:E; simpl.
  - destruct (Sem.Wait s) as [[ret s']|]; simpl; repeat split; congruence.
  - repeat split; done.
Qed.

Lemma tryWaitForReadData_fields (f : fifo) :
  let f' := (Fifo.tryWaitForReadData try_busy f).2 in
  Fifo._elements f' = Fifo._elements f /\
  Fifo._flowEnabled f' = Fifo._flowEnabled f /\
  Fifo._hasBeenRead f' = Fifo._hasBeenRead f /\
  (Fifo._readSem f' = None <-> Fifo._readSem f = None).
Proof.
  unfold Fifo.tryWaitForReadData. destruct (Fifo._readSem f) as [s|] eqn:E; simpl.
  - destruct (Sem.TryWait try_busy s) as [ret s']; simpl; repeat split; congruence.
  - repeat split; done.
Qed.

Lemma tryWaitForWriteData_fields (f : fifo) :
  let f' := (Fifo.tryWaitForWriteData try_busy f).2 in
  Fifo._elements f' = Fifo._elements f /\
  Fifo._flowEnabled f' = Fifo._flowEnabled f /\
  Fifo._hasBeenRead f' = Fifo._hasBeenRead f /\
  Fifo._readSem f' = Fifo._readSem f.
Proof.
  unfold Fifo.tryWaitForWriteData. destruct (Fifo._flowEnabled f =? 0) eqn:E; simpl.
  - repeat split; done.
  - destruct (Sem.TryWait try_busy (Fifo._writeSem f)) as [ret s']; simpl.
    rewrite E. repeat split; done.
Qed.

Lemma waitForWriteSpace_fields (f : fifo) :
  let f' := (Fifo.waitForWriteSpace f).2 in
  Fifo._elements f' = Fifo._elements f /\
  Fifo._flowEnabled f' = Fifo._flowEnabled f /\
  Fifo._hasBeenRead f' = Fifo._hasBeenRead f /\
  Fifo._readSem f' = Fifo._readSem f.
Proof.
  unfold Fifo.waitForWriteSpace. destruct (Fifo._flowEnabled f =? 0) eqn:E; simpl.
  - repeat split; done.
  - destruct (Sem.Wait (Fifo._writeSem f)) as [[ret s']|]; simpl; repeat split; done.
Qed.

Lemma waitForReadDataTimed_fields msecs (f : fifo) :
  let f' := (Fifo.waitForReadDataTimed timed_out msecs f).2 in
  Fifo._elements f' = Fifo._elements f /\
  Fifo._flowEnabled f' = Fifo._flowEnabled f /\
  Fifo._hasBeenRead f' = Fifo._hasBeenRead f /\
  (Fifo._readSem f' = None <-> Fifo._readSem f = None).
Proof.
  unfold Fifo.waitForReadDataTimed. destruct (Fifo._readSem f) as [s|] eqn:E; simpl.
  - destruct (msecs <? 1).
    + pose proof (waitForReadData_fields f) as H. simpl in H. rewrite E in H.
      destruct (Fifo.waitForReadData f) as [[c|] f']; simpl in *; exact H.
    + destruct (Sem.WaitTimed timed_out msecs s) as [ret s']; simpl;
        repeat split; congruence.
  - repeat split; done.
Qed.

Lemma waitForWriteSpaceTimed_fields msecs (f : fifo) :
  let f' := (Fifo.waitForWriteSpaceTimed timed_out msecs f).2 in
  Fifo._elements f' = Fifo._elements f /\
  Fifo._flowEnabled f' = Fifo._flowEnabled f /\
  Fifo._hasBeenRead f' = Fifo._hasBeenRead f /\
  Fifo._readSem f' = Fifo._readSem f.
Proof.
  unfold Fifo.waitForWriteSpaceTimed. destruct (msecs <? 1).
  - apply waitForWriteSpace_fields.
  - destruct (Fifo._flowEnabled f =? 0) eqn:E; simpl.
    + repeat split; done.
    + destruct (Sem.WaitTimed timed_out msecs (Fifo._writeSem f)) as [ret s']; simpl.
      rewrite E. repeat split; done.
Qed.

Lemma setFlowEnabled_fields enabled (f : fifo) :
  let f' := Fifo.setFlowEnabled enabled f in
  Fifo._elements f' = Fifo._elements f /\
  Fifo._hasBeenRead f' = Fifo._hasBeenRead f /\
  (Fifo._readSem f' = None <-> Fifo._readSem f = None).
Proof.
  unfold Fifo.setFlowEnabled.
  destruct ((Fifo._flowEnabled f =? 0) && negb enabled
            || (Fifo._flowEnabled f =? 1) && enabled); [repeat split; done|].
  destruct enabled; [repeat split; done|]. simpl.
  destruct (_ =? _ - 1); simpl;
    destruct (Fifo._readSem f) eqn:E; simpl; try destruct (_ =? 0); simpl;
    rewrite ?E; repeat split; congruence.
Qed.

Lemma write_off x (f : fifo) :
  Fifo._flowEnabled f = 0 -> Fifo.write x f = (SPR_FLOWDISABLED, f, []).
Proof. intros H. unfold Fifo.write. by rewrite H. Qed.

Lemma write_on x (f : fifo) ok r' cs :
  Fifo._flowEnabled f <> 0 ->
  Ring.push x (Fifo._elements f) = (ok, r', cs) ->
  Fifo.write x f
  = (if ok then SPR_OK else SPR_FIFOFULL,
     if ok then Fifo._signalRead (Fifo.with_elements f r') else Fifo.with_elements f r',
     Fifo.forward f cs).
Proof.
  intros Hf Hp. unfold Fifo.write, Fifo._pushPacket.
  destruct (Z.eqb_spec (Fifo._flowEnabled f) 0); [done|].
  rewrite Hp. by destruct ok.
Qed.

Lemma preempt_off x (f : fifo) :
  Fifo._flowEnabled f = 0 -> Fifo.preempt x f = (SPR_FLOWDISABLED, f, []).
Proof. intros H. unfold Fifo.preempt. by rewrite H. Qed.

Lemma preempt_on x (f : fifo) ok r' cs :
  Fifo._flowEnabled f <> 0 ->
  Ring.preempt x (Fifo._elements f) = (ok, r', cs) ->
  Fifo.preempt x f
  = (if ok then SPR_OK else SPR_FIFOFULL,
     if ok then Fifo._signalRead (Fifo.with_elements f r') else Fifo.with_elements f r',
     Fifo.forward f cs).
Proof.
  intros Hf Hp. unfold Fifo.preempt.
  destruct (Z.eqb_spec (Fifo._flowEnabled f) 0); [done|].
  rewrite Hp. by destruct ok.
Qed.

(** The constructor establishes the invariant. *)
Lemma fifo_inv_new garbage n headMonitor readSemaphore mode userData tag canUnwait :
  0 <= n < INT_MAX ->
  fifo_inv n (Fifo.new garbage n headMonitor readSemaphore mode userData tag canUnwait).
Proof.
  intros Hn. unfold FifoSpec.fifo_inv, Fifo.new. simpl.
  rewrite wrap_int_id by (unfold INT_MAX in *; lia).
  destruct headMonitor; simpl; split; try reflexivity;
    try apply wf_setHeadMonitor; by apply wf_new.
Qed.

(** ** The stored count *)

(** Every call keeps the invariant and changes the count by what it
    successfully wrote, preempted or read. *)
Lemma step_count n op (f : fifo) o f' cs :
  fifo_inv n f -> step op f = (o, f', cs) ->
  fifo_inv n f' /\
  Fifo.storedCount f'
  = Fifo.storedCount f
    + Z.b2z (FifoRun.successful_write (op, o))
    + Z.b2z (FifoRun.successful_preempt (op, o))
    - Z.b2z (FifoRun.successful_read (op, o)).
Proof.
  intros [Hwf Hcap] Hstep. unfold Fifo.storedCount, Ring.storedCount.
  pose proof (wf_count_range _ Hwf) as Hrange.
  destruct op; simpl in Hstep.
  - (* read *)
    destruct (Z.eq_dec (Ring._count (Fifo._elements f)) 0) as [Hz|Hnz].
    + apply (wf_empty_iff _ Hwf) in Hz.
      pose proof (pop_empty Element_default Element_default 0 _ Hz) as Hpop.
      rewrite (read_unfold f _ _ _ _ Hpop), Hpop in Hstep.
      injection Hstep as <- <- <-. simpl. split; [by split|lia].
    + destruct (pop_ok Element_default Element_default 0 _ Hwf ltac:(lia))
        as (e & r' & Hpop & Hwf' & Hcfg & Hn' & _).
      rewrite (read_unfold f _ _ _ _ Hpop), Hpop in Hstep.
      injection Hstep as <- <- <-. destruct Hcfg as (Hc' & _).
      unfold FifoSpec.fifo_inv. simpl. split; [split; [done|congruence]|lia].
  - (* write *)
    destruct (Z.eq_dec (Fifo._flowEnabled f) 0) as [Hoff|Hon].
    + rewrite write_off in Hstep by done. injection Hstep as <- <- <-.
      simpl. split; [by split|lia].
    + destruct (Z.eq_dec (Ring._count (Fifo._elements f))
                  (Ring._capacity (Fifo._elements f) - 1)) as [Hfull|Hroom].
      * rewrite (write_on _ f _ _ _ Hon (push_full element _ Hwf Hfull)) in Hstep.
        injection Hstep as <- <- <-. simpl. split; [by split|lia].
      * destruct (push_ok Element_default element _ Hwf ltac:(lia))
          as (r' & Hpush & Hwf' & Hcfg & Hn' & _).
        rewrite (write_on _ f _ _ _ Hon Hpush) in Hstep.
        injection Hstep as <- <- <-. unfold FifoSpec.fifo_inv. simpl.
        rewrite elements_signalRead. simpl.
        destruct Hcfg as (Hc' & _). split; [split; [done|congruence]|lia].
  - (* preempt *)
    destruct (Z.eq_dec (Fifo._flowEnabled f) 0) as [Hoff|Hon].
    + rewrite preempt_off in Hstep by done. injection Hstep as <- <- <-.
      simpl. split; [by split|lia].
    + destruct (Z.eq_dec (Ring._count (Fifo._elements f))
                  (Ring._capacity (Fifo._elements f) - 1)) as [Hfull|Hroom].
      * rewrite (preempt_on _ f _ _ _ Hon (preempt_full element _ Hwf Hfull)) in Hstep.
        injection Hstep as <- <- <-. simpl. split; [by split|lia].
      * destruct (preempt_ok Element_default element _ Hwf ltac:(lia))
          as (r' & Hpre & Hwf' & Hcfg & Hn' & _).
        rewrite (preempt_on _ f _ _ _ Hon Hpre) in Hstep.
        injection Hstep as <- <- <-. unfold FifoSpec.fifo_inv. simpl.
        rewrite elements_signalRead. simpl.
        destruct Hcfg as (Hc' & _). split; [split; [done|congruence]|lia].
  - pose proof (waitForReadData_fields f) as (He & _).
    destruct (Fifo.waitForReadData f) as [res g]. injection Hstep as <- <- <-.
    simpl in *. unfold FifoSpec.fifo_inv. rewrite He. split; [by split|lia].
  - pose proof (tryWaitForReadData_fields f) as (He & _).
    destruct (Fifo.tryWaitForReadData try_busy f) as [res g]. injection Hstep as <- <- <-.
    simpl in *. unfold FifoSpec.fifo_inv. rewrite He. split; [by split|lia].
  - pose proof (tryWaitForWriteData_fields f) as (He & _).
    destruct (Fifo.tryWaitForWriteData try_busy f) as [res g]. injection Hstep as <- <- <-.
    simpl in *. unfold FifoSpec.fifo_inv. rewrite He. split; [by split|lia].
  - pose proof (waitForWriteSpace_fields f) as (He & _).
    destruct (Fifo.waitForWriteSpace f) as [res g]. injection Hstep as <- <- <-.
    simpl in *. unfold FifoSpec.fifo_inv. rewrite He. split; [by split|lia].
  - pose proof (waitForReadDataTimed_fields msecs f) as (He & _).
    destruct (Fifo.waitForReadDataTimed timed_out msecs f) as [res g].
    injection Hstep as <- <- <-.
    simpl in *. unfold FifoSpec.fifo_inv. rewrite He. split; [by split|lia].
  - pose proof (waitForWriteSpaceTimed_fields msecs f) as (He & _).
    destruct (Fifo.waitForWriteSpaceTimed timed_out msecs f) as [res g].
    injection Hstep as <- <- <-.
    simpl in *. unfold FifoSpec.fifo_inv. rewrite He. split; [by split|lia].
  - pose proof (setFlowEnabled_fields enabled f) as (He & _).
    injection Hstep as <- <- <-.
    simpl in *. unfold FifoSpec.fifo_inv. rewrite He. split; [by split|lia].
  - injection Hstep as <- <- <-. simpl. split; [by split|lia].
Qed.

Lemma tally_cons (p : @FifoRun.fifo_op Element * @FifoRun.observed Element -> bool)
    e log :
  FifoRun.tally p (e :: log) = Z.b2z (p e) + FifoRun.tally p log.
Proof.
  unfold FifoRun.tally. rewrite filter_cons.
  destruct (decide (p e = true)) as [->|Hn]; simpl.
  - lia.
  - destruct (p e); [done|]. simpl. lia.
Qed.

Lemma run_count n ops : forall (f : fifo) log f',
  fifo_inv n f -> run ops f = (log, f') ->
  fifo_inv n f' /\
  Fifo.storedCount f'
  = Fifo.storedCount f
    + FifoRun.tally FifoRun.successful_write log
    + FifoRun.tally FifoRun.successful_preempt log
    - FifoRun.tally FifoRun.successful_read log.
Proof.
  induction ops as [|op ops IH]; intros f log f' Hinv Hrun; simpl in Hrun.
  - injection Hrun as <- <-. split; [done|]. unfold FifoRun.tally. simpl. lia.
  - destruct (step op f) as [[o f1] cs] eqn:Hs.
    destruct (run ops f1) as [log1 f2] eqn:Hr. injection Hrun as <- <-.
    destruct (step_count n op f o f1 cs Hinv Hs) as [Hinv1 Hc1].
    destruct (IH f1 log1 f2 Hinv1 Hr) as [Hinv2 Hc2].
    split; [done|]. rewrite !tally_cons. lia.
Qed.

(** C4: from construction on, through any sequence of calls, [storedCount()]
    is between 0 and the capacity asked for (the ring has one slot more) and
    equals the successful writes plus the successful preempts minus the
    reads that popped an element. *)
Theorem storedCount_is_balance garbage n headMonitor readSemaphore mode userData tag
    canUnwait ops :
  0 <= n < INT_MAX ->
  let '(log, f) :=
    run ops (Fifo.new garbage n headMonitor readSemaphore mode userData tag canUnwait) in
  0 <= Fifo.storedCount f <= n /\
  Fifo.storedCount f <= Ring.capacity (Fifo._elements f) - 1 /\
  Ring.capacity (Fifo._elements f) = n + 1 /\
  Fifo.storedCount f
  = FifoRun.tally FifoRun.successful_write log
    + FifoRun.tally FifoRun.successful_preempt log
    - FifoRun.tally FifoRun.successful_read log.
Proof.
  intros Hn.
  destruct (run ops _) as [log f] eqn:Hrun.
  pose proof (fifo_inv_new garbage n headMonitor readSemaphore mode userData tag
                canUnwait Hn) as Hinv.
  destruct (run_count n ops _ log f Hinv Hrun) as [[Hwf Hcap] Hc].
  pose proof (wf_count_range _ Hwf) as Hrange.
  unfold Fifo.storedCount, Ring.storedCount, Ring.capacity in *.
  assert (H0 : Ring._count (Fifo._elements
            (Fifo.new garbage n headMonitor readSemaphore mode userData tag canUnwait)) = 0).
  { unfold Fifo.new. simpl. by destruct headMonitor. }
  rewrite H0 in Hc. repeat split; lia.
Qed.

(** ** What every call keeps: the read semaphore's presence, the read latch
    and a disabled flow flag *)

Lemma step_fields op (f : fifo) o f' cs :
  step op f = (o, f', cs) ->
  (Fifo._readSem f' = None <-> Fifo._readSem f = None) /\
  Fifo._hasBeenRead f' = Fifo._hasBeenRead f || FifoRun.is_read_call (op, o) /\
  (Fifo._flowEnabled f = 0 -> FifoRun.enables_flow op = false ->
   Fifo._flowEnabled f' = 0).
Proof.
  intros Hstep. destruct op; simpl in Hstep.
  - destruct (Ring.pop Element_default Element_default 0 (Fifo._elements f))
      as [[[ok e] r'] cs'] eqn:Hpop.
    rewrite (read_unfold f _ _ _ _ Hpop) in Hstep. injection Hstep as <- <- <-.
    simpl. rewrite orb_true_r. done.
  - destruct (Ring.push element (Fifo._elements f)) as [[ok r'] cs'] eqn:Hp.
    destruct (Z.eq_dec (Fifo._flowEnabled f) 0) as [Hoff|Hon].
    + rewrite write_off in Hstep by done. injection Hstep as <- <- <-.
      simpl. rewrite orb_false_r. done.
    + rewrite (write_on _ f _ _ _ Hon Hp) in Hstep. injection Hstep as <- <- <-.
      simpl. rewrite orb_false_r.
      destruct ok; rewrite ?readSem_signalRead, ?hasBeenRead_signalRead,
        ?flow_signalRead; simpl; done.
  - destruct (Ring.preempt element (Fifo._elements f)) as [[ok r'] cs'] eqn:Hp.
    destruct (Z.eq_dec (Fifo._flowEnabled f) 0) as [Hoff|Hon].
    + rewrite preempt_off in Hstep by done. injection Hstep as <- <- <-.
      simpl. rewrite orb_false_r. done.
    + rewrite (preempt_on _ f _ _ _ Hon Hp) in Hstep. injection Hstep as <- <- <-.
      simpl. rewrite orb_false_r.
      destruct ok; rewrite ?readSem_signalRead, ?hasBeenRead_signalRead,
        ?flow_signalRead; simpl; done.
  - pose proof (waitForReadData_fields f) as (_ & Hf & Hh & Hr).
    destruct (Fifo.waitForReadData f) as [res g]. injection Hstep as <- <- <-.
    simpl in *. rewrite orb_false_r, Hf. done.
  - pose proof (tryWaitForReadData_fields f) as (_ & Hf & Hh & Hr).
    destruct (Fifo.tryWaitForReadData try_busy f) as [res g]. injection Hstep as <- <- <-.
    simpl in *. rewrite orb_false_r, Hf. done.
  - pose proof (tryWaitForWriteData_fields f) as (_ & Hf & Hh & Hr).
    destruct (Fifo.tryWaitForWriteData try_busy f) as [res g]. injection Hstep as <- <- <-.
    simpl in *. rewrite orb_false_r, Hf, Hr. done.
  - pose proof (waitForWriteSpace_fields f) as (_ & Hf & Hh & Hr).
    destruct (Fifo.waitForWriteSpace f) as [res g]. injection Hstep as <- <- <-.
    simpl in *. rewrite orb_false_r, Hf, Hr. done.
  - pose proof (waitForReadDataTimed_fields msecs f) as (_ & Hf & Hh & Hr).
    destruct (Fifo.waitForReadDataTimed timed_out msecs f) as [res g].
    injection Hstep as <- <- <-. simpl in *. rewrite orb_false_r, Hf. done.
  - pose proof (waitForWriteSpaceTimed_fields msecs f) as (_ & Hf & Hh & Hr).
    destruct (Fifo.waitForWriteSpaceTimed timed_out msecs f) as [res g].
    injection Hstep as <- <- <-. simpl in *. rewrite orb_false_r, Hf, Hr. done.
  - pose proof (setFlowEnabled_fields enabled f) as (_ & Hh & Hr).
    injection Hstep as <- <- <-. simpl in *. rewrite orb_false_r.
    split; [done|]. split; [done|]. intros Hoff Hen. destruct enabled; [done|].
    unfold Fifo.setFlowEnabled. rewrite Hoff. done.
  - injection Hstep as <- <- <-. simpl. rewrite orb_false_r. done.
Qed.




Lemma run_fields ops : forall (f : fifo) log f',
  run ops f = (log, f') ->
  (Fifo._readSem f' = None <-> Fifo._readSem f = None) /\
  Fifo._hasBeenRead f'
  = Fifo._hasBeenRead f || bool_decide (0 < FifoRun.tally FifoRun.is_read_call log).
Proof.
  induction ops as [|op ops IH]; intros f log f' Hrun; simpl in Hrun.
  - injection Hrun as <- <-. split; [done|]. by rewrite orb_false_r.
  - destruct (step op f) as [[o f1] cs] eqn:Hs.
    destruct (run ops f1) as [log1 f2] eqn:Hr. injection Hrun as <- <-.
    destruct (step_fields op f o f1 cs Hs) as (Hr1 & Hh1 & _).
    destruct (IH f1 log1 f2 Hr) as (Hr2 & Hh2).
    split; [tauto|]. rewrite Hh2, Hh1, tally_cons, <- orb_assoc. f_equal.
    assert (0 <= FifoRun.tally FifoRun.is_read_call log1)
      by (unfold FifoRun.tally; lia).
    destruct (FifoRun.is_read_call (op, o)); simpl;
      repeat case_bool_decide; try done; lia.
Qed.


(** ** Flow control *)







(** ** The read latch *)

(** C5 (as the code behaves): [hasBeenRead()] is true exactly when it was
    true before or [read] has been called at least once, whether or not
    that call popped an element; no call clears it. *)
Theorem hasBeenRead_latches_on_read_call (f : fifo) ops :
  let '(log, f') := run ops f in
  Fifo.hasBeenRead f'
  = Fifo.hasBeenRead f || bool_decide (0 < FifoRun.tally FifoRun.is_read_call log).
Proof.
  destruct (run ops f) as [log f'] eqn:Hrun.
  by destruct (run_fields ops f log f' Hrun) as [_ H].
Qed.

(** ** A FIFO without a read semaphore *)

(** C6 (as the code behaves): on a FIFO built without a read semaphore,
    after any calls, [waitForReadData] returns [SPR_FLOWDISABLED], while
    [waitForReadDataTimed] and [tryWaitForReadData] return 0. *)
Theorem no_read_semaphore_results garbage n headMonitor mode userData tag canUnwait
    ops msecs :
  let f := (run ops (Fifo.new garbage n headMonitor false mode userData tag canUnwait)).2 in
  Fifo.waitForReadData f = (Returns SPR_FLOWDISABLED, f) /\
  Fifo.waitForReadDataTimed timed_out msecs f = (Returns 0, f) /\
  Fifo.tryWaitForReadData try_busy f = (0, f).
Proof.
  destruct (run ops _) as [log f] eqn:Hrun. simpl.
  destruct (run_fields ops _ log f Hrun) as [Hr _].
  assert (Hnone : Fifo._readSem f = None) by (by apply Hr).
  unfold Fifo.waitForReadData, Fifo.waitForReadDataTimed, Fifo.tryWaitForReadData.
  rewrite Hnone. done.
Qed.

(** ** Reading an empty FIFO *)

Lemma read_empty (f : fifo) :
  RingSpec.is_empty (Fifo._elements f) ->
  Fifo.read Element_default f
  = (1, Element_default,
     Fifo.with_hasBeenRead
       (Fifo.with_writeSem f {| Sem.count := S (Sem.count (Fifo._writeSem f)) |}) true,
     []).
Proof.
  intros He.
  rewrite (read_unfold f _ _ _ _ (pop_empty Element_default Element_default 0 _ He)).
  by destruct f.
Qed.

End fifo_facts.

(** The balance theorem on a run with a refused write and a read of the
    empty FIFO. *)
Lemma busy_run_count :
  let '(log, f) :=
    FifoRun.run 0 Scenario.try_busy Scenario.timed_out Scenario.busy_calls
      (Fifo.new 0 2 None true Circular_Fifo_Mode_Blocking 0 0 true) in
  0 <= Fifo.storedCount f <= 2 /\
  Fifo.storedCount f <= Ring.capacity (Fifo._elements f) - 1 /\
  Ring.capacity (Fifo._elements f) = 2 + 1 /\
  Fifo.storedCount f
  = FifoRun.tally FifoRun.successful_write log
    + FifoRun.tally FifoRun.successful_preempt log
    - FifoRun.tally FifoRun.successful_read log.
Proof.
  apply (storedCount_is_balance 0 Scenario.try_busy Scenario.timed_out
           0 2 None true Circular_Fifo_Mode_Blocking 0 0 true Scenario.busy_calls).
  unfold INT_MAX. lia.
Defined.



(** C5, the claim as stated fails: one [read] of a FIFO that was never
    written pops nothing and [hasBeenRead()] is true after it. *)
Lemma hasBeenRead_true_without_pop :
  let '(log, f) :=
    FifoRun.run 0 Scenario.try_busy Scenario.timed_out [FifoRun.op_read]
      (Scenario.fresh_fifo true) in
  FifoRun.tally FifoRun.successful_read log = 0 /\
  Fifo.hasBeenRead f = true /\
  ~ (Fifo.hasBeenRead f = true <-> 0 < FifoRun.tally FifoRun.successful_read log).
Proof.
  vm_compute. split; [reflexivity|]. split; [reflexivity|].
  intros [H _]. specialize (H eq_refl). discriminate H.
Qed.

(** C6, the claim as stated fails: without a read semaphore
    [tryWaitForReadData] and [waitForReadDataTimed] return 0, which is
    [SPR_OK] and not [SPR_FLOWDISABLED]. *)
Lemma no_read_semaphore_returns_ok :
  (Fifo.tryWaitForReadData Scenario.try_busy (Scenario.fresh_fifo false)).1 = SPR_OK /\
  (Fifo.waitForReadDataTimed Scenario.timed_out 10 (Scenario.fresh_fifo false)).1
  = Returns SPR_OK /\
  (Fifo.tryWaitForReadData Scenario.try_busy (Scenario.fresh_fifo false)).1
  <> SPR_FLOWDISABLED /\
  (Fifo.waitForReadDataTimed Scenario.timed_out 10 (Scenario.fresh_fifo false)).1
  <> Returns SPR_FLOWDISABLED.
Proof. repeat split; vm_compute; congruence. Qed.

(** C10: a [read] of a FIFO whose ring is empty returns 1, leaves
    [Element{}] in the caller's variable, posts the write semaphore once,
    latches [hasBeenRead] and calls nothing; through the C wrapper
    [ff_cmd_fifo_read] the caller gets [FF_CMD_FIFO_OK] and a null command. *)
Theorem read_of_empty_fifo {Element : Type} (Element_default : Element)
    (f : @Fifo.waitable_fifo Element) (g : Cmd.cmd_fifo) (v : option positive) :
  RingSpec.is_empty (Fifo._elements f) ->
  RingSpec.is_empty (Fifo._elements g) ->
  (exists f',
     Fifo.read Element_default f = (1, Element_default, f', []) /\
     Sem.count (Fifo._writeSem f') = S (Sem.count (Fifo._writeSem f)) /\
     Fifo.hasBeenRead f' = true /\
     Fifo._elements f' = Fifo._elements f) /\
  (exists g',
     Cmd.ff_cmd_fifo_read (Some {| Cmd.fifo := Some g |}) (Some v)
     = (FF_CMD_FIFO_OK, Some None, Some {| Cmd.fifo := Some g' |}, []) /\
     Sem.count (Fifo._writeSem g') = S (Sem.count (Fifo._writeSem g)) /\
     Fifo.hasBeenRead g' = true /\
     Fifo._elements g' = Fifo._elements g).
Proof.
  intros Hf Hg. split.
  - eexists. split; [apply read_empty; exact Hf|]. by destruct f.
  - eexists. unfold Cmd.ff_cmd_fifo_read. rewrite (read_empty None g Hg).
    split; [reflexivity|]. by destruct g.
Qed.

(** The empty-read theorem on freshly built FIFOs. *)
Lemma fresh_fifos_empty_read :
  RingSpec.is_empty (Fifo._elements (Scenario.fresh_fifo true)) /\
  (exists g, Cmd.fifo Scenario.cmd_fifo_4 = Some g /\
             RingSpec.is_empty (Fifo._elements g)) /\
  (exists f',
     Fifo.read 0 (Scenario.fresh_fifo true) = (1, 0, f', []) /\
     Sem.count (Fifo._writeSem f') = 3%nat /\
     Fifo.hasBeenRead f' = true /\
     Fifo._elements f' = Fifo._elements (Scenario.fresh_fifo true)) /\
  (exists g',
     Cmd.ff_cmd_fifo_read (Some Scenario.cmd_fifo_4) (Some (Some 7%positive))
     = (FF_CMD_FIFO_OK, Some None, Some {| Cmd.fifo := Some g' |}, []) /\
     Sem.count (Fifo._writeSem g') = 5%nat /\
     Fifo.hasBeenRead g' = true).
Proof.
  split; [reflexivity|]. split; [eexists; split; reflexivity|].
  destruct (read_of_empty_fifo 0 (Scenario.fresh_fifo true)
              (Fifo.new None 4 None true Circular_Fifo_Mode_Blocking 0 0 true)
              (Some 7%positive) eq_refl eq_refl) as [Hf (g' & Hg & Hc & Hh & _)].
  split; [exact Hf|]. exists g'. split; [exact Hg|]. split; [exact Hc|exact Hh].
Defined.

(* ===================================================================== *)
(** * The command and its pool *)
(* ===================================================================== *)

Section cmd_facts.

Import Cmd CmdSpec.

Implicit Types (m : memory) (a p : positive) (c : FFCmd) (pl : FFCmdPool).

Lemma clear_data_spec m a c :
  cmds m !! a = Some c ->
  exists m',
    ff_cmd_clear_data (Some a) m = Some m' /\
    cmds m' = <[a := with_data c 0 None]> (cmds m) /\
    pools m' = pools m /\
    calls m' = calls m ++ released_payload c.
Proof.
  intros Hc. unfold ff_cmd_clear_data, released_payload. rewrite Hc. simpl.
  eexists. split; [reflexivity|].
  destruct (data_ref c) as [iface|]; [destruct (_ && _)|]; simpl;
    rewrite ?app_nil_r; done.
Qed.

Lemma set_data_spec m a c d r :
  cmds m !! a = Some c ->
  exists m',
    ff_cmd_set_data (Some a) d r m = Some m' /\
    cmds m' = <[a := with_data c d r]> (cmds m) /\
    pools m' = pools m /\
    calls m' = calls m ++ released_payload c ++ acquired_payload d r.
Proof.
  intros Hc. destruct (clear_data_spec m a c Hc) as (m1 & Hclr & Hc1 & Hp1 & Hl1).
  unfold ff_cmd_set_data, acquired_payload. rewrite Hclr. simpl.
  rewrite Hc1, lookup_insert_eq. simpl.
  eexists. split; [reflexivity|].
  destruct r as [iface|]; [destruct (_ && _)|]; simpl;
    rewrite Hc1, Hp1, Hl1, insert_insert_eq, ?app_nil_r, <- ?app_assoc; done.
Qed.

Lemma init_spec m a c t :
  cmds m !! a = Some c ->
  exists m',
    ff_cmd_init (Some a) t m = Some m' /\
    cmds m' = <[a := with_type_zeroed (with_data c 0 None) t]> (cmds m) /\
    pools m' = pools m /\
    calls m' = calls m ++ released_payload c.
Proof.
  intros Hc. destruct (clear_data_spec m a c Hc) as (m1 & Hclr & Hc1 & Hp1 & Hl1).
  unfold ff_cmd_init. rewrite Hclr. simpl. rewrite Hc1, lookup_insert_eq. simpl.
  eexists. split; [reflexivity|]. simpl.
  rewrite Hc1, Hp1, Hl1, insert_insert_eq. done.
Qed.

Lemma addref_spec m a c :
  cmds m !! a = Some c ->
  cmd_addref (Some a) m
  = Some (wrap_int (_refcount c + 1),
          store_cmd a (with_refcount c (wrap_int (_refcount c + 1))) m).
Proof. intros Hc. unfold cmd_addref. by rewrite Hc. Qed.

Lemma pool_return_spec m a c p pl :
  cmds m !! a = Some c -> pools m !! p = Some pl ->
  ff_cmd_pool_return (Some p) (Some a) m
  = Some (store_pool p (with_free_list pl (Some a) (wrap_u32 (free_count pl + 1)))
            (store_cmd a (with_next (reset_fields c) (free_list pl)) m)).
Proof. intros Hc Hp. unfold ff_cmd_pool_return. by rewrite Hc, Hp. Qed.

(** A release that does not reach zero only stores the new count. *)
Lemma release_spec_live m a c :
  cmds m !! a = Some c -> wrap_int (_refcount c - 1) <> 0 ->
  cmd_release (Some a) m
  = Some (wrap_int (_refcount c - 1),
          store_cmd a (with_refcount c (wrap_int (_refcount c - 1))) m).
Proof.
  intros Hc Hn. unfold cmd_release. rewrite Hc. simpl.
  by destruct (Z.eqb_spec (wrap_int (_refcount c - 1)) 0).
Qed.

(** A release that reaches zero clears the data, then returns the cell to
    the pool it names, if it names one. *)
Lemma release_spec_final m a c :
  cmds m !! a = Some c -> wrap_int (_refcount c - 1) = 0 ->
  (forall p, _pool c = Some p -> is_Some (pools m !! p)) ->
  exists m',
    cmd_release (Some a) m = Some (0, m') /\
    (ff_cmd_clear_data (Some a) (store_cmd a (with_refcount c 0) m)
       ≫= (fun m2 => match _pool c with
                       | Some p => ff_cmd_pool_return (Some p) (Some a) m2
                       | None => Some m2
                       end)) = Some m' /\
    calls m' = calls m ++ released_payload c /\
    match _pool c with
    | Some p =>
        exists pl, pools m !! p = Some pl /\
          cmds m' = <[a := with_next (reset_fields (with_refcount c 0)) (free_list pl)]>
                      (cmds m) /\
          pools m' = <[p := with_free_list pl (Some a) (wrap_u32 (free_count pl + 1))]>
                       (pools m)
    | None =>
        cmds m' = <[a := with_data (with_refcount c 0) 0 None]> (cmds m) /\
        pools m' = pools m
    end.
Proof.
  intros Hc Hz Hpool. unfold cmd_release. rewrite Hc.
  cbn -[ff_cmd_clear_data ff_cmd_pool_return wrap_int]. rewrite Hz.
  cbn -[ff_cmd_clear_data ff_cmd_pool_return wrap_int].
  destruct (clear_data_spec (store_cmd a (with_refcount c 0) m) a (with_refcount c 0))
    as (m2 & Hclr & Hc2 & Hp2 & Hl2).
  { simpl. by rewrite lookup_insert_eq. }
  rewrite Hclr. cbn -[ff_cmd_pool_return]. rewrite Hc2, lookup_insert_eq.
  cbn -[ff_cmd_pool_return].
  simpl in Hc2, Hp2, Hl2. rewrite insert_insert_eq in Hc2.
  destruct (_pool c) as [p|] eqn:Hp.
  - destruct (Hpool p eq_refl) as [pl Hpl].
    rewrite (pool_return_spec m2 a (with_data (with_refcount c 0) 0 None) p pl).
    + simpl. eexists. split; [reflexivity|]. split; [reflexivity|]. simpl.
      split; [exact Hl2|]. exists pl. split; [done|].
      rewrite Hc2, Hp2, insert_insert_eq. done.
    + by rewrite Hc2, lookup_insert_eq.
    + by rewrite Hp2.
  - simpl. eexists. split; [reflexivity|]. split; [reflexivity|]. done.
Qed.

Lemma calloc_fresh m : cmds m !! calloc m = None.
Proof. unfold calloc. apply not_elem_of_dom. apply is_fresh. Qed.

Lemma reset_fields_clean c :
  is_clean (reset_fields (with_refcount (with_next c None) 1)).
Proof. repeat split. Qed.

(** ** Acquire *)

(** Acquiring when the free list is not empty takes its first cell. *)
Lemma acquire_free_head m p pl a c alloc_ok :
  pools m !! p = Some pl -> free_list pl = Some a -> cmds m !! a = Some c ->
  exists c' m',
    ff_cmd_pool_acquire (Some p) alloc_ok m = Some (Some a, m') /\
    cmds m' !! a = Some c' /\ is_clean c' /\ _pool c' = _pool c /\
    pools m' !! p
    = Some (with_free_list pl (_next c) (wrap_u32 (free_count pl - 1))).
Proof.
  intros Hp Hfl Hc. unfold ff_cmd_pool_acquire. rewrite Hp. simpl.
  rewrite Hfl, Hc. simpl. rewrite Hc. simpl.
  eexists _, _. split; [reflexivity|]. simpl.
  rewrite !lookup_insert_eq. repeat split.
Qed.

(** C7: [ff_cmd_pool_acquire] on a pool.  When the free list is not empty
    its first cell is taken (the list moves on to the cell's [_next],
    [free_count] is decremented).  Otherwise, when [max_size == 0] or
    [total_count < max_size], a new cell is allocated and [total_count] is
    incremented ([alloc_ok]: [calloc] succeeded; when it fails the call
    returns null).  Otherwise the call returns null and changes nothing.  A
    cell that is returned has refcount 1, type NONE and its payload and
    metadata cleared. *)
Theorem acquire_spec m p pl alloc_ok :
  pools m !! p = Some pl ->
  (forall a, free_list pl = Some a -> is_Some (cmds m !! a)) ->
  match free_list pl with
  | Some a =>
      exists c c' m',
        cmds m !! a = Some c /\
        ff_cmd_pool_acquire (Some p) alloc_ok m = Some (Some a, m') /\
        cmds m' !! a = Some c' /\ is_clean c' /\ _pool c' = _pool c /\
        pools m' !! p
        = Some (with_free_list pl (_next c) (wrap_u32 (free_count pl - 1)))
  | None =>
      if (max_size pl =? 0) || (total_count pl <? max_size pl) then
        if alloc_ok then
          exists a c' m',
            ff_cmd_pool_acquire (Some p) alloc_ok m = Some (Some a, m') /\
            cmds m !! a = None /\
            cmds m' !! a = Some c' /\ is_clean c' /\ _pool c' = Some p /\
            ref c' = cmd_ref_vtable /\
            pools m' !! p = Some (with_total_count pl (wrap_u32 (total_count pl + 1)))
        else ff_cmd_pool_acquire (Some p) alloc_ok m = Some (None, m)
      else ff_cmd_pool_acquire (Some p) alloc_ok m = Some (None, m)
  end.
Proof.
  intros Hp Hfree. destruct (free_list pl) as [a|] eqn:Hfl.
  - destruct (Hfree a eq_refl) as [c Hc].
    destruct (acquire_free_head m p pl a c alloc_ok Hp Hfl Hc) as (c' & m' & H).
    exists c, c', m'. split; [exact Hc|exact H].
  - unfold ff_cmd_pool_acquire. rewrite Hp. simpl. rewrite Hfl.
    destruct ((max_size pl =? 0) || (total_count pl <? max_size pl)); [|done].
    destruct alloc_ok; [|done]. simpl. rewrite lookup_insert_eq. simpl.
    eexists (calloc m), _, _. split; [reflexivity|]. simpl.
    rewrite !lookup_insert_eq. split; [apply calloc_fresh|]. repeat split.
Qed.

(** ** The final release *)

(** C8: the release that takes the refcount from 1 to 0 returns 0; it first
    runs [ff_cmd_clear_data] (whose adapter call, if the cell carries a
    payload, is the only call logged) and then [ff_cmd_pool_return] on the
    pool the cell names: the cell becomes the head of that pool's free list,
    linked to the former head, and [free_count] is incremented.  The next
    acquire from that pool returns this very cell, with type NONE, refcount
    1 and everything else cleared, and puts the free list back as it was. *)
Theorem final_release_returns_cell m a c p pl :
  cmds m !! a = Some c -> _refcount c = 1 -> _pool c = Some p ->
  pools m !! p = Some pl ->
  exists m',
    cmd_release (Some a) m = Some (0, m') /\
    (ff_cmd_clear_data (Some a) (store_cmd a (with_refcount c 0) m)
       ≫= ff_cmd_pool_return (Some p) (Some a)) = Some m' /\
    calls m' = calls m ++ released_payload c /\
    pools m' !! p
    = Some (with_free_list pl (Some a) (wrap_u32 (free_count pl + 1))) /\
    ff_cmd_pool_free_count (Some p) m' = wrap_u32 (free_count pl + 1) /\
    (exists c0, cmds m' !! a = Some c0 /\ _next c0 = free_list pl /\
                type c0 = FF_CMD_NONE /\ data c0 = 0 /\ data_ref c0 = None /\
                _refcount c0 = 0) /\
    forall alloc_ok, exists c' m'',
      ff_cmd_pool_acquire (Some p) alloc_ok m' = Some (Some a, m'') /\
      cmds m'' !! a = Some c' /\ is_clean c' /\ _pool c' = Some p /\
      pools m'' !! p
      = Some (with_free_list pl (free_list pl)
                (wrap_u32 (wrap_u32 (free_count pl + 1) - 1))).
Proof.
  intros Hc Hrc Hpool Hpl.
  destruct (release_spec_final m a c Hc) as (m' & Hrel & Hseq & Hcalls & Hrest).
  { by rewrite Hrc. }
  { intros q Hq. rewrite Hpool in Hq. injection Hq as <-. by eexists. }
  rewrite Hpool in Hseq, Hrest. destruct Hrest as (pl0 & Hpl0 & Hcm & Hpm).
  rewrite Hpl in Hpl0. injection Hpl0 as <-.
  assert (Hp' : pools m' !! p
                = Some (with_free_list pl (Some a) (wrap_u32 (free_count pl + 1)))).
  { by rewrite Hpm, lookup_insert_eq. }
  assert (Ha' : cmds m' !! a
                = Some (with_next (reset_fields (with_refcount c 0)) (free_list pl))).
  { by rewrite Hcm, lookup_insert_eq. }
  exists m'. split; [exact Hrel|]. split; [exact Hseq|]. split; [exact Hcalls|].
  split; [exact Hp'|]. split; [unfold ff_cmd_pool_free_count; simpl; by rewrite Hp'|].
  split; [eexists; split; [exact Ha'|]; repeat split|].
  intros alloc_ok.
  destruct (acquire_free_head m' p _ a _ alloc_ok Hp' eq_refl Ha')
    as (c' & m'' & Hacq & Hc' & Hclean & Hpc & Hp'').
  simpl in Hpc, Hp''.
  exists c', m''. split; [exact Hacq|]. split; [exact Hc'|]. split; [exact Hclean|].
  split; [congruence|exact Hp''].
Qed.

(** ** Payload references *)

Section balance.

Context (a : positive) (A : IFFRefCounted) (P : Z).
Context (HA : is_adapter A) (HP : P <> 0).

Abbreviation carried := (CmdSpec.carried A P).

Lemma addref_calls_app cs1 cs2 :
  addref_calls A P (cs1 ++ cs2) = (addref_calls A P cs1 + addref_calls A P cs2)%nat.
Proof. unfold addref_calls. by rewrite filter_app, length_app. Qed.

Lemma release_calls_app cs1 cs2 :
  release_calls A P (cs1 ++ cs2) = (release_calls A P cs1 + release_calls A P cs2)%nat.
Proof. unfold release_calls. by rewrite filter_app, length_app. Qed.

Lemma released_payload_count c :
  addref_calls A P (released_payload c) = 0%nat /\
  release_calls A P (released_payload c) = carried c.
Proof using HA HP.
  unfold released_payload, CmdSpec.carried, addref_calls, release_calls.
  destruct HA as [_ [rel Hrel]].
  destruct (data_ref c) as [iface|] eqn:Hr; simpl.
  - destruct (Z.eqb_spec (data c) 0) as [Hz|Hnz]; simpl.
    + split; [done|]. case_bool_decide as Hd; [|done]. destruct Hd; congruence.
    + case_bool_decide as Hs; simpl.
      * rewrite !filter_cons, !filter_nil. split.
        -- by destruct (decide (call_Release iface (data c) = call_AddRef A P)).
        -- case_bool_decide as Hd.
           ++ rewrite decide_True; [done|]. destruct Hd. congruence.
           ++ rewrite decide_False; [done|]. intros [= ? ?]. apply Hd. split; congruence.
      * split; [done|]. case_bool_decide as Hd; [|done].
        destruct Hd as [_ Hd]. destruct Hs. replace iface with A by congruence.
        by eexists.
  - split; [done|]. case_bool_decide as Hd; [|done]. by destruct Hd.
Qed.

Lemma acquired_payload_count d r :
  addref_calls A P (acquired_payload d r)
  = (if bool_decide (d = P /\ r = Some A) then 1%nat else 0%nat) /\
  release_calls A P (acquired_payload d r) = 0%nat.
Proof using HA HP.
  unfold acquired_payload, addref_calls, release_calls.
  destruct HA as [[add Hadd] _].
  destruct r as [iface|]; simpl.
  - destruct (Z.eqb_spec d 0) as [Hz|Hnz]; simpl.
    + split; [|done]. case_bool_decide as Hd; [|done]. destruct Hd; congruence.
    + case_bool_decide as Hs; simpl.
      * rewrite !filter_cons, !filter_nil. split.
        -- case_bool_decide as Hd.
           ++ rewrite decide_True; [done|]. destruct Hd. congruence.
           ++ rewrite decide_False; [done|]. intros [= ? ?]. apply Hd. split; congruence.
        -- by destruct (decide (call_AddRef iface d = call_Release A P)).
      * split; [|done]. case_bool_decide as Hd; [|done].
        destruct Hd as [_ Hd]. destruct Hs. replace iface with A by congruence.
        by eexists.
  - split; [|done]. case_bool_decide as Hd; [|done]. by destruct Hd.
Qed.

Lemma holds_carried m c :
  cmds m !! a = Some c -> (if holds a A P m then 1%nat else 0%nat) = carried c.
Proof. intros Hc. unfold holds, CmdSpec.carried. by rewrite Hc. Qed.

(** How a call that rewrites the cell at [a] and logs [extra] keeps the
    command valid and in balance. *)
Lemma inv_update m m' c c' extra :
  cmds m !! a = Some c -> cmds m' !! a = Some c' -> _pool c' = _pool c ->
  (forall q, is_Some (pools m !! q) -> is_Some (pools m' !! q)) ->
  calls m' = calls m ++ extra ->
  (carried c + addref_calls A P extra = release_calls A P extra + carried c')%nat ->
  cmd_valid a m -> in_balance a A P m ->
  cmd_valid a m' /\ in_balance a A P m' /\
  (addref_calls A P (calls m) <= addref_calls A P (calls m'))%nat.
Proof.
  intros Hc Hc' Hpool Hdom Hcalls Hbal (c0 & Hc0 & Hv) Hin.
  rewrite Hc in Hc0. injection Hc0 as <-.
  split; [|split].
  - exists c'. split; [done|]. intros q Hq. apply Hdom, Hv. congruence.
  - unfold in_balance in *. rewrite (holds_carried m c Hc) in Hin.
    rewrite (holds_carried m' c' Hc'), Hcalls, addref_calls_app, release_calls_app.
    lia.
  - rewrite Hcalls, addref_calls_app. lia.
Qed.

Lemma carried_no_data c : data c = 0 -> carried c = 0%nat.
Proof using HP.
  intros Hd. unfold CmdSpec.carried. case_bool_decide as H; [|done]. destruct H; congruence.
Qed.

(** Every call of the command API keeps the command valid and in balance,
    and never removes an [AddRef] from the log. *)
Lemma step_balance op m :
  cmd_valid a m -> in_balance a A P m ->
  exists m',
    cmd_step a op m = Some m' /\ cmd_valid a m' /\ in_balance a A P m' /\
    (addref_calls A P (calls m) <= addref_calls A P (calls m'))%nat.
Proof using HA HP.
  intros Hv Hin. pose proof Hv as (c & Hc & Hpl).
  destruct op as [t|d r| | |]; unfold cmd_step, FF_CMD_ADDREF, FF_CMD_RELEASE.
  - destruct (init_spec m a c t Hc) as (m' & -> & Hcm & Hpm & Hl).
    exists m'. split; [done|].
    apply (inv_update m m' c (with_type_zeroed (with_data c 0 None) t)
             (released_payload c));
      [exact Hc | by rewrite Hcm, lookup_insert_eq | reflexivity
      | intros q; by rewrite Hpm | exact Hl | | exact Hv | exact Hin].
    destruct (released_payload_count c) as [-> ->].
    rewrite (carried_no_data (with_type_zeroed _ _)) by done. lia.
  - destruct (set_data_spec m a c d r Hc) as (m' & -> & Hcm & Hpm & Hl).
    exists m'. split; [done|].
    apply (inv_update m m' c (with_data c d r)
             (released_payload c ++ acquired_payload d r));
      [exact Hc | by rewrite Hcm, lookup_insert_eq | reflexivity
      | intros q; by rewrite Hpm | exact Hl | | exact Hv | exact Hin].
    rewrite addref_calls_app, release_calls_app.
    destruct (released_payload_count c) as [-> ->].
    destruct (acquired_payload_count d r) as [-> ->].
    unfold CmdSpec.carried. simpl. lia.
  - destruct (clear_data_spec m a c Hc) as (m' & -> & Hcm & Hpm & Hl).
    exists m'. split; [done|].
    apply (inv_update m m' c (with_data c 0 None) (released_payload c));
      [exact Hc | by rewrite Hcm, lookup_insert_eq | reflexivity
      | intros q; by rewrite Hpm | exact Hl | | exact Hv | exact Hin].
    destruct (released_payload_count c) as [-> ->].
    rewrite (carried_no_data (with_data _ _ _)) by done. lia.
  - rewrite (addref_spec m a c Hc). simpl. eexists. split; [done|].
    apply (inv_update m _ c (with_refcount c (wrap_int (_refcount c + 1))) []);
      [exact Hc | simpl; by rewrite lookup_insert_eq | reflexivity
      | intros q Hq; exact Hq | simpl; by rewrite app_nil_r | | exact Hv | exact Hin].
    unfold addref_calls, release_calls, CmdSpec.carried. simpl. lia.
  - destruct (Z.eq_dec (wrap_int (_refcount c - 1)) 0) as [Hz|Hnz].
    + destruct (release_spec_final m a c Hc Hz Hpl) as (m' & -> & _ & Hl & Hrest).
      simpl. exists m'. split; [done|].
      destruct (_pool c) as [p|] eqn:Hp.
      * destruct Hrest as (pl & Hplk & Hcm & Hpm).
        apply (inv_update m m' c
                 (with_next (reset_fields (with_refcount c 0)) (free_list pl))
                 (released_payload c));
          [exact Hc | by rewrite Hcm, lookup_insert_eq | by rewrite Hp
          | | exact Hl | | exact Hv | exact Hin].
        -- intros q Hq. rewrite Hpm. destruct (decide (p = q)) as [->|Hne].
           ++ rewrite lookup_insert_eq. by eexists.
           ++ by rewrite lookup_insert_ne.
        -- destruct (released_payload_count c) as [-> ->].
           rewrite (carried_no_data (with_next _ _)) by done. lia.
      * destruct Hrest as (Hcm & Hpm).
        apply (inv_update m m' c (with_data (with_refcount c 0) 0 None)
                 (released_payload c));
          [exact Hc | by rewrite Hcm, lookup_insert_eq | by rewrite Hp
          | intros q; by rewrite Hpm | exact Hl | | exact Hv | exact Hin].
        destruct (released_payload_count c) as [-> ->].
        rewrite (carried_no_data (with_data _ _ _)) by done. lia.
    + rewrite (release_spec_live m a c Hc Hnz). simpl. eexists. split; [done|].
      apply (inv_update m _ c (with_refcount c (wrap_int (_refcount c - 1))) []);
        [exact Hc | simpl; by rewrite lookup_insert_eq | reflexivity
        | intros q Hq; exact Hq | simpl; by rewrite app_nil_r | | exact Hv | exact Hin].
      unfold addref_calls, release_calls, CmdSpec.carried. simpl. lia.
Qed.

Lemma run_balance ops : forall m,
  cmd_valid a m -> in_balance a A P m ->
  exists m',
    cmd_run a ops m = Some m' /\ cmd_valid a m' /\ in_balance a A P m' /\
    (addref_calls A P (calls m) <= addref_calls A P (calls m'))%nat.
Proof using HA HP.
  induction ops as [|op ops IH]; intros m Hv Hin; simpl.
  - exists m. repeat split; done.
  - destruct (step_balance op m Hv Hin) as (m1 & -> & Hv1 & Hin1 & Hle1). simpl.
    destruct (IH m1 Hv1 Hin1) as (m2 & -> & Hv2 & Hin2 & Hle2).
    exists m2. repeat split; try done. lia.
Qed.

End balance.

(** C9 (as the code behaves): attach payload [P] with adapter [A] to a
    command by [ff_cmd_set_data], make any calls of [ff_cmd_init],
    [ff_cmd_set_data], [ff_cmd_clear_data], add-ref and release on that
    command, then release it: every call completes, and when that last
    release returns 0 the [AddRef] calls made through [A] on [P] are as many
    as the [Release] calls, and at least one.  This needs more than an
    adapter that is not null: both functions of [A] are present, [P] is not
    null, and the calls on [P] are in balance at the attachment, as they are
    for a command just acquired when no other command carries [P]. *)
Theorem payload_refs_balance a A P ops m0 :
  is_adapter A -> P <> 0 -> cmd_valid a m0 -> in_balance a A P m0 ->
  exists m1 n m2,
    cmd_run a (c_set_data P (Some A) :: ops) m0 = Some m1 /\
    cmd_release (Some a) m1 = Some (n, m2) /\
    (n = 0 ->
     addref_calls A P (calls m2) = release_calls A P (calls m2) /\
     (1 <= addref_calls A P (calls m2))%nat).
Proof.
  intros HA HP Hv Hin.
  (* the attachment *)
  pose proof Hv as (c0 & Hc0 & _).
  destruct (set_data_spec m0 a c0 P (Some A) Hc0) as (ma & Hset & _ & _ & Hla).
  destruct (step_balance a A P HA HP (c_set_data P (Some A)) m0 Hv Hin)
    as (ma' & Hstep & Hva & Hina & _).
  unfold cmd_step in Hstep. rewrite Hset in Hstep. injection Hstep as <-.
  assert (Hone : (1 <= addref_calls A P (calls ma))%nat).
  { rewrite Hla, !addref_calls_app.
    destruct (acquired_payload_count A P HA HP P (Some A)) as [-> _].
    rewrite bool_decide_true by done. lia. }
  (* the calls in between *)
  destruct (run_balance a A P HA HP ops ma Hva Hina) as (m1 & Hrun & Hv1 & Hin1 & Hle1).
  (* the last release *)
  destruct (step_balance a A P HA HP c_release m1 Hv1 Hin1)
    as (m2 & Hrel & Hv2 & Hin2 & Hle2).
  unfold cmd_step, FF_CMD_RELEASE in Hrel.
  destruct (cmd_release (Some a) m1) as [[n m2']|] eqn:Hr; [|discriminate Hrel].
  simpl in Hrel. injection Hrel as ->.
  exists m1, n, m2. split; [|split; [done|]].
  { change (cmd_run a (c_set_data P (Some A) :: ops) m0)
      with (ff_cmd_set_data (Some a) P (Some A) m0 ≫= cmd_run a ops).
    rewrite Hset. exact Hrun. }
  intros ->. split; [|lia].
  destruct Hv1 as (c1 & Hc1 & Hpl1).
  assert (Hz : wrap_int (_refcount c1 - 1) = 0).
  { destruct (Z.eq_dec (wrap_int (_refcount c1 - 1)) 0) as [E|E]; [done|].
    rewrite (release_spec_live m1 a c1 Hc1 E) in Hr. injection Hr as Hn _. done. }
  destruct (release_spec_final m1 a c1 Hc1 Hz Hpl1) as (m2' & Hr' & _ & _ & Hrest).
  rewrite Hr in Hr'. injection Hr' as <-.
  unfold in_balance in Hin2.
  assert (Hh : holds a A P m2 = false).
  { unfold holds. destruct (_pool c1) as [p|].
    - destruct Hrest as (pl & _ & -> & _). rewrite lookup_insert_eq. simpl.
      apply bool_decide_false. intros [? _]. done.
    - destruct Hrest as (-> & _). rewrite lookup_insert_eq. simpl.
      apply bool_decide_false. intros [? _]. done. }
  rewrite Hh in Hin2. lia.
Qed.

End cmd_facts.

(** Scenario (e) of the specification, run from start to end: [c1] is the
    cell at address 2 and [c2] the one at address 1; the third acquire
    returns null; the third release of [c1] returns 0 and leaves
    [free_count] at 1; the next acquire returns the cell at address 2 again,
    clean. *)
Lemma scenario_e_runs :
  Scenario.scenario_e
  = Some (Some 2%positive, Some 1%positive, None, 0, 1, Some 2%positive,
          Some Scenario.c1_cell).
Proof. vm_compute. reflexivity. Qed.

(** A pool that starts empty allocates up to [max_size] and then refuses. *)
Remark acquire_grows_then_refuses :
  Scenario.grow_to_max = Some (Some 1%positive, Some 2%positive, None, 2, 2).
Proof. vm_compute. reflexivity. Qed.

(** The acquire theorem on the pool of scenario (e) as created. *)
Lemma created_pool_acquire :
  Cmd.pools Scenario.pool_created !! 1%positive = Some Scenario.pool_full /\
  (forall a, Cmd.free_list Scenario.pool_full = Some a ->
             is_Some (Cmd.cmds Scenario.pool_created !! a)) /\
  exists c c' m',
    Cmd.cmds Scenario.pool_created !! 2%positive = Some c /\
    Cmd.ff_cmd_pool_acquire (Some 1%positive) true Scenario.pool_created
    = Some (Some 2%positive, m') /\
    Cmd.cmds m' !! 2%positive = Some c' /\ CmdSpec.is_clean c' /\
    Cmd._pool c' = Cmd._pool c /\
    Cmd.pools m' !! 1%positive
    = Some (Cmd.with_free_list Scenario.pool_full (Cmd._next c)
              (wrap_u32 (Cmd.free_count Scenario.pool_full - 1))).
Proof.
  assert (H1 : Cmd.pools Scenario.pool_created !! 1%positive = Some Scenario.pool_full)
    by (vm_compute; reflexivity).
  assert (H2 : forall a, Cmd.free_list Scenario.pool_full = Some a ->
                         is_Some (Cmd.cmds Scenario.pool_created !! a)).
  { intros a [= <-]. eexists. vm_compute. reflexivity. }
  split; [exact H1|]. split; [exact H2|].
  exact (acquire_spec Scenario.pool_created 1%positive Scenario.pool_full true H1 H2).
Defined.

(** The final-release theorem at the last release of scenario (e). *)
Lemma scenario_e_last_release :
  Cmd.cmds Scenario.before_last_release !! 2%positive = Some Scenario.c1_cell /\
  Cmd.pools Scenario.before_last_release !! 1%positive = Some Scenario.pool_in_use /\
  exists m',
    Cmd.cmd_release (Some 2%positive) Scenario.before_last_release = Some (0, m') /\
    Cmd.ff_cmd_pool_free_count (Some 1%positive) m' = 1 /\
    forall alloc_ok, exists c' m'',
      Cmd.ff_cmd_pool_acquire (Some 1%positive) alloc_ok m' = Some (Some 2%positive, m'') /\
      Cmd.cmds m'' !! 2%positive = Some c' /\ CmdSpec.is_clean c'.
Proof.
  assert (Hc : Cmd.cmds Scenario.before_last_release !! 2%positive
               = Some Scenario.c1_cell) by (vm_compute; reflexivity).
  assert (Hp : Cmd.pools Scenario.before_last_release !! 1%positive
               = Some Scenario.pool_in_use) by (vm_compute; reflexivity).
  split; [exact Hc|]. split; [exact Hp|].
  destruct (final_release_returns_cell Scenario.before_last_release 2%positive
              Scenario.c1_cell 1%positive Scenario.pool_in_use Hc eq_refl eq_refl Hp)
    as (m' & Hrel & _ & _ & _ & Hfc & _ & Hacq).
  exists m'. split; [exact Hrel|]. split; [exact Hfc|].
  intros alloc_ok. destruct (Hacq alloc_ok) as (c' & m'' & Ha & Hc' & Hclean & _).
  exists c', m''. split; [exact Ha|]. split; [exact Hc'|exact Hclean].
Defined.

(** The balance theorem on scenario (f), with calls in between: the last
    release returns 0, and [AddRef] and [Release] were each called on the
    payload 77 as often as the other. *)
Lemma scenario_f_payload_refs :
  CmdSpec.is_adapter Scenario.counting_adapter /\
  CmdSpec.cmd_valid 1%positive Scenario.one_acquired /\
  CmdSpec.in_balance 1%positive Scenario.counting_adapter 77 Scenario.one_acquired /\
  exists m1 m2,
    CmdSpec.cmd_run 1%positive
      (CmdSpec.c_set_data 77 (Some Scenario.counting_adapter) :: Scenario.busy_command)
      Scenario.one_acquired = Some m1 /\
    Cmd.cmd_release (Some 1%positive) m1 = Some (0, m2) /\
    Cmd.addref_calls Scenario.counting_adapter 77 (Cmd.calls m2)
    = Cmd.release_calls Scenario.counting_adapter 77 (Cmd.calls m2) /\
    (1 <= Cmd.addref_calls Scenario.counting_adapter 77 (Cmd.calls m2))%nat.
Proof.
  assert (HA : CmdSpec.is_adapter Scenario.counting_adapter).
  { split; eexists; reflexivity. }
  assert (Hv : CmdSpec.cmd_valid 1%positive Scenario.one_acquired).
  { eexists. split; [vm_compute; reflexivity|].
    intros p [= <-]. eexists. vm_compute. reflexivity. }
  assert (Hin : CmdSpec.in_balance 1%positive Scenario.counting_adapter 77
                  Scenario.one_acquired) by (vm_compute; reflexivity).
  split; [exact HA|]. split; [exact Hv|]. split; [exact Hin|].
  destruct (payload_refs_balance 1%positive Scenario.counting_adapter 77
              Scenario.busy_command Scenario.one_acquired HA ltac:(lia) Hv Hin)
    as (m1 & n & m2 & Hrun & Hrel & Hbal).
  exists m1, m2. split; [exact Hrun|].
  vm_compute in Hrun. injection Hrun as <-.
  vm_compute in Hrel. injection Hrel as <- <-.
  split; [reflexivity|]. exact (Hbal eq_refl).
Defined.

(** The balance needs both functions: [ff_cmd_set_data] and
    [ff_cmd_clear_data] skip a call whose function pointer is [NULL], so an
    interface with [AddRef] alone gets its [AddRef] call and no [Release]. *)
Remark addref_only_is_not_released :
  Scenario.addref_only_run = Some (0, [Cmd.call_AddRef Scenario.addref_only 77]).
Proof. vm_compute. reflexivity. Qed.

(** C9, the claim as stated fails, in two ways.  With an adapter that is
    not null but whose [Release] is [NULL], the final release of the command
    returns 0 after one [AddRef] and no [Release] on the payload.  With the
    same payload and adapter attached to two commands, the final release of
    the first returns 0 after two [AddRef] calls and one [Release] on the
    payload. *)
Lemma payload_refs_can_differ :
  (exists cs,
     Scenario.addref_only_run = Some (0, cs) /\
     Cmd.addref_calls Scenario.addref_only 77 cs = 1%nat /\
     Cmd.release_calls Scenario.addref_only 77 cs = 0%nat /\
     Cmd.addref_calls Scenario.addref_only 77 cs
     <> Cmd.release_calls Scenario.addref_only 77 cs) /\
  (exists cs,
     Sample.shared_payload_run = Some (0, cs) /\
     Cmd.addref_calls Scenario.counting_adapter 77 cs = 2%nat /\
     Cmd.release_calls Scenario.counting_adapter 77 cs = 1%nat /\
     Cmd.addref_calls Scenario.counting_adapter 77 cs
     <> Cmd.release_calls Scenario.counting_adapter 77 cs).
Proof.
  split.
  - exists [Cmd.call_AddRef Scenario.addref_only 77].
    split; [vm_compute; reflexivity|]. split; [vm_compute; reflexivity|].
    split; [vm_compute; reflexivity|]. vm_compute. discriminate.
  - exists [Cmd.call_AddRef Scenario.counting_adapter 77;
            Cmd.call_AddRef Scenario.counting_adapter 77;
            Cmd.call_Release Scenario.counting_adapter 77].
    split; [vm_compute; reflexivity|]. split; [vm_compute; reflexivity|].
    split; [vm_compute; reflexivity|]. vm_compute. discriminate.
Qed.

(* ===================================================================== *)
(** * More about the ring *)
(* ===================================================================== *)

Section ring_more.

Context {Element : Type} (Element_default : Element).

Abbreviation ring := (@Ring.circular_fifo Element).
Abbreviation wf := (@RingSpec.wf Element).
Abbreviation contents := (RingSpec.contents Element_default).

(** X1: from the constructor on, whatever calls are made, the indices in
    force stay inside the array, the array keeps its [fifoSize + 1] slots,
    and the count is the distance from head to tail, so between 0 and
    [fifoSize]. *)
Theorem ring_invariant_reachable garbage fifoSize mode ops :
  0 <= fifoSize < INT_MAX ->
  let r := RingSpec.ring_run Element_default ops (Ring.new garbage fifoSize mode) in
  Ring.capacity r = fifoSize + 1 /\
  length (Ring._array r) = Z.to_nat (fifoSize + 1) /\
  0 <= RingSpec.hd r <= fifoSize /\
  0 <= RingSpec.tl r <= fifoSize /\
  Ring.storedCount r = (RingSpec.tl r - RingSpec.hd r) `mod` (fifoSize + 1) /\
  0 <= Ring.storedCount r <= fifoSize /\
  length (contents r) = Z.to_nat (Ring.storedCount r).
Proof.
  intros Hn. simpl.
  assert (Hinv : forall r0 : ring,
             wf r0 -> Ring._capacity r0 = fifoSize + 1 ->
             wf (RingSpec.ring_run Element_default ops r0) /\
             Ring._capacity (RingSpec.ring_run Element_default ops r0) = fifoSize + 1).
  { unfold RingSpec.ring_run. induction ops as [|op ops' IH]; intros r0 Hwf Hcap; simpl.
    - done.
    - apply IH; [by apply wf_ring_step|].
      pose proof (wf_count_range r0 Hwf) as Hr.
      destruct op as [x|x|u|b|high hh low lh data]; simpl; try done.
      + destruct (Z.eq_dec (Ring._count r0) (Ring._capacity r0 - 1)) as [Hf|Hf].
        * by rewrite (push_full x r0 Hwf Hf).
        * destruct (push_ok Element_default x r0 Hwf ltac:(lia))
            as (r' & -> & _ & (Hc' & _) & _). simpl. congruence.
      + destruct (Z.eq_dec (Ring._count r0) (Ring._capacity r0 - 1)) as [Hf|Hf].
        * by rewrite (preempt_full x r0 Hwf Hf).
        * destruct (preempt_ok Element_default x r0 Hwf ltac:(lia))
            as (r' & -> & _ & (Hc' & _) & _). simpl. congruence.
      + destruct (Z.eq_dec (Ring._count r0) 0) as [Hz|Hz].
        * apply (wf_empty_iff r0 Hwf) in Hz. by rewrite (pop_empty _ _ _ r0 Hz).
        * destruct (pop_ok Element_default Element_default u r0 Hwf ltac:(lia))
            as (e & r' & -> & _ & (Hc' & _) & _). simpl. congruence. }
  destruct (Hinv (Ring.new garbage fifoSize mode) (wf_new garbage fifoSize mode Hn)
              eq_refl) as [Hwf Hcap].
  pose proof (wf_count_range _ Hwf) as Hrange.
  destruct Hwf as (Hc & Hl & Hh & Ht & Hcnt).
  unfold Ring.capacity, Ring.storedCount. rewrite Hcap in *.
  rewrite length_contents.
  repeat split; try lia; try done.
Qed.

(** X2: first in, first out.  Pushing [xs] onto a ring with room for them
    succeeds every time, and popping afterwards returns what the ring held
    before followed by [xs], in order, and leaves the ring empty. *)
Theorem ring_first_in_first_out (xs : list Element) (r : ring) :
  wf r -> Ring._count r + Z.of_nat (length xs) <= Ring._capacity r - 1 ->
  exists r1 r2,
    RingSpec.pushes xs r = (replicate (length xs) true, r1) /\
    Ring.storedCount r1 = Ring.storedCount r + Z.of_nat (length xs) /\
    RingSpec.pops Element_default (length (contents r) + length xs) r1
    = (pair true <$> (contents r ++ xs), r2) /\
    Ring.storedCount r2 = 0 /\ RingSpec.is_empty r2.
Proof.
  intros Hwf Hroom.
  destruct (pushes_append Element_default xs r Hwf Hroom) as (r1 & Hp & Hwf1 & _ & Hc1).
  destruct (pops_prefix Element_default (contents r ++ xs) [] r1 Hwf1)
    as (r2 & Hpop & Hwf2 & _ & Hc2).
  { by rewrite app_nil_r. }
  rewrite length_app in Hpop.
  pose proof (length_contents Element_default r1) as Hl1.
  pose proof (length_contents Element_default r) as Hl.
  pose proof (length_contents Element_default r2) as Hl2.
  rewrite Hc1, length_app in Hl1. rewrite Hc2 in Hl2. simpl in Hl2.
  pose proof (wf_count_range r Hwf). pose proof (wf_count_range r1 Hwf1).
  pose proof (wf_count_range r2 Hwf2).
  assert (Hzero : Ring._count r2 = 0) by lia.
  exists r1, r2. unfold Ring.storedCount.
  split; [done|]. split; [lia|]. split; [done|]. split; [done|].
  by apply wf_empty_iff.
Qed.

(** X3: a push or a preempt succeeds exactly when fewer than [cap - 1]
    elements are stored, a pop exactly when at least one is; a call that
    fails returns false, makes no callback, and leaves the ring (and, for
    pop, the caller's variable) as it was. *)
Theorem ring_calls_succeed_iff x e userdata (r : ring) :
  wf r ->
  ((Ring.push x r).1.1 = true <-> Ring.storedCount r < Ring.capacity r - 1) /\
  ((Ring.preempt x r).1.1 = true <-> Ring.storedCount r < Ring.capacity r - 1) /\
  ((Ring.pop Element_default e userdata r).1.1.1 = true <-> 0 < Ring.storedCount r) /\
  ((Ring.push x r).1.1 = false -> Ring.push x r = (false, r, [])) /\
  ((Ring.preempt x r).1.1 = false -> Ring.preempt x r = (false, r, [])) /\
  ((Ring.pop Element_default e userdata r).1.1.1 = false ->
   Ring.pop Element_default e userdata r = (false, e, r, [])).
Proof.
  intros Hwf. pose proof (wf_count_range r Hwf) as Hrange.
  unfold Ring.storedCount, Ring.capacity.
  assert (Hpush : Ring._count r < Ring._capacity r - 1 -> (Ring.push x r).1.1 = true).
  { intros H. by destruct (push_ok Element_default x r Hwf H) as (r' & -> & _). }
  assert (Hpre : Ring._count r < Ring._capacity r - 1 -> (Ring.preempt x r).1.1 = true).
  { intros H. by destruct (preempt_ok Element_default x r Hwf H) as (r' & -> & _). }
  assert (Hpop : 0 < Ring._count r ->
                 (Ring.pop Element_default e userdata r).1.1.1 = true).
  { intros H. by destruct (pop_ok Element_default e userdata r Hwf H)
      as (e' & r' & -> & _). }
  assert (Hfull : ~ Ring._count r < Ring._capacity r - 1 ->
                  Ring.push x r = (false, r, []) /\ Ring.preempt x r = (false, r, [])).
  { intros H. split; [apply push_full|apply preempt_full]; done || lia. }
  assert (Hempty : ~ 0 < Ring._count r ->
                   Ring.pop Element_default e userdata r = (false, e, r, [])).
  { intros H. apply pop_empty. apply wf_empty_iff; [done|lia]. }
  split; [|split; [|split; [|split; [|split]]]].
  - split; [|exact Hpush]. intros H.
    destruct (Z_lt_dec (Ring._count r) (Ring._capacity r - 1)) as [|Hn]; [done|].
    destruct (Hfull Hn) as [Hf _]. rewrite Hf in H. discriminate H.
  - split; [|exact Hpre]. intros H.
    destruct (Z_lt_dec (Ring._count r) (Ring._capacity r - 1)) as [|Hn]; [done|].
    destruct (Hfull Hn) as [_ Hf]. rewrite Hf in H. discriminate H.
  - split; [|exact Hpop]. intros H.
    destruct (Z_lt_dec 0 (Ring._count r)) as [|Hn]; [done|].
    rewrite (Hempty Hn) in H. discriminate H.
  - intros H.
    destruct (Z_lt_dec (Ring._count r) (Ring._capacity r - 1)) as [Hy|Hn].
    + rewrite (Hpush Hy) in H. discriminate H.
    + by destruct (Hfull Hn).
  - intros H.
    destruct (Z_lt_dec (Ring._count r) (Ring._capacity r - 1)) as [Hy|Hn].
    + rewrite (Hpre Hy) in H. discriminate H.
    + by destruct (Hfull Hn).
  - intros H. destruct (Z_lt_dec 0 (Ring._count r)) as [Hy|Hn].
    + rewrite (Hpop Hy) in H. discriminate H.
    + by apply Hempty.
Qed.

Lemma filter_head_high_check (r : ring) f :
  filter (fun c => is_head_call c = true) (Ring.high_check r f) = [].
Proof.
  unfold Ring.high_check. destruct (Ring._highWaterMarkHandler r); [|done].
  by destruct (f =? _).
Qed.

Lemma filter_head_low_check (r : ring) v :
  filter (fun c => is_head_call c = true) (Ring.low_check r v) = [].
Proof.
  unfold Ring.low_check. destruct (Ring._lowWaterMarkHandler r); [|done].
  by destruct (v =? _).
Qed.

Lemma filter_head_head_check (r : ring) b u :
  filter (fun c => is_head_call c = true) (Ring.head_check r b u)
  = if Ring._headMonitor r && b then [fifo_new_head u] else [].
Proof. unfold Ring.head_check. by destruct (Ring._headMonitor r && b). Qed.

(** X4: what the head monitor hears, in both modes.  A push notifies it
    (with a null argument) exactly when it succeeds on an empty ring; a
    preempt whenever it succeeds; a pop (with the caller's [userdata])
    exactly when it leaves at least one element behind.  Without a monitor
    nothing is notified, and a preempt never calls a watermark handler. *)
Theorem head_monitor_notifications x e userdata (r : ring) :
  wf r ->
  filter (fun c => is_head_call c = true) (Ring.push x r).2
  = (if Ring._headMonitor r && (Ring.storedCount r <? Ring.capacity r - 1)
        && (Ring.storedCount r =? 0)
     then [fifo_new_head 0] else []) /\
  (Ring.preempt x r).2
  = (if Ring._headMonitor r && (Ring.storedCount r <? Ring.capacity r - 1)
     then [fifo_new_head 0] else []) /\
  filter (fun c => is_head_call c = true) (Ring.pop Element_default e userdata r).2
  = (if Ring._headMonitor r && (1 <? Ring.storedCount r)
     then [fifo_new_head userdata] else []).
Proof.
  intros Hwf. pose proof (wf_count_range r Hwf) as Hrange.
  unfold Ring.storedCount, Ring.capacity.
  split; [|split].
  - destruct (Z.ltb_spec (Ring._count r) (Ring._capacity r - 1)) as [Hroom|Hfull].
    + destruct (push_ok Element_default x r Hwf Hroom) as (r' & -> & _). simpl.
      rewrite filter_app, filter_head_high_check, filter_head_head_check.
      by rewrite andb_true_r.
    + rewrite (push_full x r Hwf) by lia. by rewrite andb_false_r.
  - destruct (Z.ltb_spec (Ring._count r) (Ring._capacity r - 1)) as [Hroom|Hfull].
    + destruct (preempt_ok Element_default x r Hwf Hroom) as (r' & -> & _). simpl.
      unfold Ring.head_check. by rewrite !andb_true_r.
    + rewrite (preempt_full x r Hwf) by lia. by rewrite andb_false_r.
  - destruct (Z.eq_dec (Ring._count r) 0) as [Hz|Hnz].
    + rewrite (pop_empty Element_default e userdata r) by (by apply wf_empty_iff).
      simpl. destruct (Z.ltb_spec 1 (Ring._count r)); [lia|]. by rewrite andb_false_r.
    + destruct (pop_ok Element_default e userdata r Hwf ltac:(lia))
        as (e' & r' & -> & _). simpl. unfold RingSpec.pop_calls.
      destruct (Ring._mode r); rewrite filter_app, filter_head_low_check,
        filter_head_head_check; simpl; f_equal; f_equal;
        destruct (Z.ltb_spec 1 (Ring._count r)),
          (Z.eqb_spec (Ring._count r) 1), (Z.eqb_spec (Ring._count r - 1) 0);
        simpl; lia || done.
Qed.

Lemma ring_step_blocking op (r : ring) :
  Ring._mode r = Circular_Fifo_Mode_Blocking ->
  let r' := RingSpec.ring_step Element_default op r in
  Ring._mode r' = Circular_Fifo_Mode_Blocking /\
  Ring._head r' = Ring._head r /\ Ring._tail r' = Ring._tail r.
Proof.
  intros Hm. destruct op as [x|x|u|b|high hh low lh data];
    unfold RingSpec.ring_step, Ring.push, Ring.preempt, Ring.pop; rewrite ?Hm;
    try match goal with |- context [if ?c then _ else _] => destruct c end;
    simpl; done.
Qed.

Lemma ring_step_lockless op (r : ring) :
  Ring._mode r = Circular_Fifo_Mode_Single_Producer_Lockless ->
  let r' := RingSpec.ring_step Element_default op r in
  Ring._mode r' = Circular_Fifo_Mode_Single_Producer_Lockless /\
  Ring._nahead r' = Ring._nahead r /\ Ring._natail r' = Ring._natail r.
Proof.
  intros Hm. destruct op as [x|x|u|b|high hh low lh data];
    unfold RingSpec.ring_step, Ring.push, Ring.preempt, Ring.pop; rewrite ?Hm;
    try match goal with |- context [if ?c then _ else _] => destruct c end;
    simpl; done.
Qed.

Lemma ring_run_blocking ops : forall r0 : ring,
  Ring._mode r0 = Circular_Fifo_Mode_Blocking ->
  let r := RingSpec.ring_run Element_default ops r0 in
  Ring._mode r = Circular_Fifo_Mode_Blocking /\
  Ring._head r = Ring._head r0 /\ Ring._tail r = Ring._tail r0.
Proof.
  unfold RingSpec.ring_run. induction ops as [|op ops' IH]; intros r0 Hm; simpl.
  - done.
  - destruct (ring_step_blocking op r0 Hm) as (Hm' & Hh' & Ht').
    destruct (IH _ Hm') as (Hm'' & Hh'' & Ht''). simpl in *.
    split; [done|]. split; congruence.
Qed.

Lemma ring_run_lockless ops : forall r0 : ring,
  Ring._mode r0 = Circular_Fifo_Mode_Single_Producer_Lockless ->
  let r := RingSpec.ring_run Element_default ops r0 in
  Ring._mode r = Circular_Fifo_Mode_Single_Producer_Lockless /\
  Ring._nahead r = Ring._nahead r0 /\ Ring._natail r = Ring._natail r0.
Proof.
  unfold RingSpec.ring_run. induction ops as [|op ops' IH]; intros r0 Hm; simpl.
  - done.
  - destruct (ring_step_lockless op r0 Hm) as (Hm' & Hh' & Ht').
    destruct (IH _ Hm') as (Hm'' & Hh'' & Ht''). simpl in *.
    split; [done|]. split; congruence.
Qed.

(** X5: each mode uses its own pair of indices and never writes the other.
    From the constructor on, a BLOCKING ring leaves the atomics [_head] and
    [_tail] at 0 and a LOCKLESS ring leaves [_nahead] and [_natail] at 0,
    and the mode never changes. *)
Theorem ring_modes_keep_apart garbage fifoSize ops :
  let rb := RingSpec.ring_run Element_default ops
              (Ring.new garbage fifoSize Circular_Fifo_Mode_Blocking) in
  let rl := RingSpec.ring_run Element_default ops
              (Ring.new garbage fifoSize Circular_Fifo_Mode_Single_Producer_Lockless) in
  (Ring.getMode rb = Circular_Fifo_Mode_Blocking /\
   Ring._head rb = 0 /\ Ring._tail rb = 0) /\
  (Ring.getMode rl = Circular_Fifo_Mode_Single_Producer_Lockless /\
   Ring._nahead rl = 0 /\ Ring._natail rl = 0).
Proof.
  simpl. unfold Ring.getMode. split.
  - apply (ring_run_blocking ops (Ring.new garbage fifoSize Circular_Fifo_Mode_Blocking)).
    reflexivity.
  - apply (ring_run_lockless ops
             (Ring.new garbage fifoSize Circular_Fifo_Mode_Single_Producer_Lockless)).
    reflexivity.
Qed.

(** Purging a ring whose monitor is off: it stops after as many pops as
    there are elements, leaving the last one in the caller's variable. *)
Lemma purge_spec (es : list Element) : forall (r : ring) e,
  wf r -> Ring._headMonitor r = false -> contents r = es ->
  exists r',
    RingDtor.purge Element_default (S (length es)) e r
    = Some (default e (last es), r',
            if bool_decide (is_Some (Ring._lowWaterMarkHandler r))
               && (1 <=? RingDtor.low_trigger r)
               && (RingDtor.low_trigger r <=? Ring._count r)
            then [low_watermark_call (default 1%positive (Ring._lowWaterMarkHandler r))
                    (Ring._waterMarkOpaque r)]
            else []) /\
    wf r' /\ Ring._count r' = 0 /\ RingSpec.same_config r r'.
Proof.
  induction es as [|x es IH]; intros r e Hwf Hmon Hc.
  - pose proof (length_contents Element_default r) as Hl. rewrite Hc in Hl. simpl in Hl.
    pose proof (wf_count_range r Hwf) as Hrange.
    assert (Hz : Ring._count r = 0) by lia.
    simpl. rewrite (pop_empty Element_default e 0 r) by (by apply wf_empty_iff).
    exists r. split; [|split; [done|split; [done|apply same_config_refl]]].
    rewrite Hz. destruct (1 <=? _) eqn:E1, (_ <=? 0) eqn:E2;
      rewrite ?andb_false_r, ?andb_true_r; try done.
    apply Z.leb_le in E1, E2. lia.
  - pose proof (length_contents Element_default r) as Hl. rewrite Hc in Hl. simpl in Hl.
    destruct (pop_ok Element_default e 0 r Hwf ltac:(lia))
      as (e' & r1 & Hpop & Hwf1 & Hcfg & Hn1 & Hc1).
    rewrite Hc in Hc1. injection Hc1 as <- Hc1.
    pose proof Hcfg as (Hcap & Hmode & Hhm & Hlh & Hhh & Hhw & Hlw & Hop).
    destruct (IH r1 x Hwf1 ltac:(congruence) (eq_sym Hc1))
      as (r' & Hpurge & Hwf' & Hz' & Hcfg').
    change (RingDtor.purge Element_default (S (length (x :: es))) e r)
      with (let '(ok, e', r', cs) := Ring.pop Element_default e 0 r in
            if ok then
              '(e'', r'', cs') ← RingDtor.purge Element_default (S (length es)) e' r';
              Some (e'', r'', cs ++ cs')
            else Some (e', r', cs)).
    rewrite Hpop, Hpurge. simpl.
    exists r'. split; [|split; [done|split; [done|by eapply same_config_trans]]].
    f_equal. f_equal; [f_equal|].
    + destruct es as [|y es']; [done|].
      change (last (x :: y :: es')) with (last (y :: es')).
      destruct (last (y :: es')) eqn:E; [done|]. by apply last_None in E.
    + unfold RingSpec.pop_calls, Ring.head_check, Ring.low_check, RingDtor.low_trigger.
      rewrite Hmon, Hmode, Hlh, Hlw, Hop, Hn1. simpl.
      destruct (Ring._lowWaterMarkHandler r) as [h|]; simpl; [|by destruct (Ring._mode r)].
      destruct (Ring._mode r); simpl; rewrite app_nil_r;
        repeat match goal with
               | |- context [?a =? ?b] => destruct (Z.eqb_spec a b)
               | |- context [?a <=? ?b] => destruct (Z.leb_spec a b)
               end; simpl; try done; lia.
Qed.

(** X6: the destructor turns the head monitor off and pops until the ring
    is empty: with fuel for one more iteration than there are elements it
    ends, the ring is empty, the caller's variable holds the last element
    popped (or what it held when the ring was empty already), and the only
    callback made is one low-watermark call, when a low handler is set and
    the count passes its trigger on the way down. *)
Theorem ring_destructor_purges e0 (r : ring) :
  wf r ->
  exists r' cs,
    RingDtor.destructor Element_default (S (Z.to_nat (Ring.storedCount r))) e0 r
    = Some (default e0 (last (contents r)), r', cs) /\
    Ring.storedCount r' = 0 /\ RingSpec.is_empty r' /\
    Ring._headMonitor r' = false /\
    filter (fun c => is_head_call c = true) cs = [] /\
    count_calls is_high_call cs = 0%nat /\
    count_calls is_low_call cs
    = (if bool_decide (is_Some (Ring._lowWaterMarkHandler r))
          && (1 <=? RingDtor.low_trigger r)
          && (RingDtor.low_trigger r <=? Ring.storedCount r)
       then 1%nat else 0%nat).
Proof.
  intros Hwf. unfold RingDtor.destructor, Ring.storedCount.
  rewrite <- (length_contents Element_default r).
  destruct (purge_spec (contents r) (Ring.setHeadMonitor false r) e0)
    as (r' & Hp & Hwf' & Hz & Hcfg); [done..|].
  change (contents (Ring.setHeadMonitor false r)) with (contents r) in Hp.
  rewrite Hp. eexists _, _. split; [reflexivity|].
  split; [done|]. split; [by apply wf_empty_iff|].
  split; [by destruct Hcfg as (_ & _ & -> & _)|].
  change (Ring._lowWaterMarkHandler (Ring.setHeadMonitor false r))
    with (Ring._lowWaterMarkHandler r).
  change (RingDtor.low_trigger (Ring.setHeadMonitor false r))
    with (RingDtor.low_trigger r).
  change (Ring._count (Ring.setHeadMonitor false r)) with (Ring._count r).
  by destruct (_ && _ && _).
Qed.

End ring_more.

(* ===================================================================== *)
(** * More about the waitable FIFO *)
(* ===================================================================== *)

Section fifo_more.

Context {Element : Type} (Element_default : Element).

Abbreviation fifo := (@Fifo.waitable_fifo Element).
Abbreviation fcontents f := (RingSpec.contents Element_default (Fifo._elements f)).
Abbreviation paired_inv := (@FifoUse.paired_inv Element).

Lemma with_elements_id (f : fifo) : Fifo.with_elements f (Fifo._elements f) = f.
Proof. by destruct f. Qed.

(** [write] with flow enabled, by whether there is room. *)
Lemma write_room x n (f : fifo) :
  FifoSpec.fifo_inv n f -> Fifo._flowEnabled f <> 0 -> Fifo.storedCount f < n ->
  exists r' cs,
    Ring.push x (Fifo._elements f) = (true, r', cs) /\
    Fifo.write x f = (SPR_OK, Fifo._signalRead (Fifo.with_elements f r'), Fifo.forward f cs) /\
    RingSpec.wf r' /\ Ring._capacity r' = n + 1 /\
    Ring._count r' = Fifo.storedCount f + 1 /\
    RingSpec.contents Element_default r' = fcontents f ++ [x].
Proof.
  intros [Hwf Hcap] Hon Hroom. unfold Fifo.storedCount, Ring.storedCount in *.
  destruct (push_ok Element_default x _ Hwf ltac:(lia))
    as (r' & Hpush & Hwf' & (Hc' & _) & Hn' & Hcont).
  eexists r', _. split; [exact Hpush|].
  rewrite (write_on x f _ _ _ Hon Hpush).
  split; [reflexivity|]. split; [exact Hwf'|]. split; [congruence|].
  split; [exact Hn'|exact Hcont].
Qed.

Lemma write_full x n (f : fifo) :
  FifoSpec.fifo_inv n f -> Fifo._flowEnabled f <> 0 -> Fifo.storedCount f = n ->
  Fifo.write x f = (SPR_FIFOFULL, f, []).
Proof.
  intros [Hwf Hcap] Hon Hfull. unfold Fifo.storedCount, Ring.storedCount in *.
  rewrite (write_on x f _ _ _ Hon (push_full x _ Hwf ltac:(lia))).
  by rewrite with_elements_id.
Qed.

Lemma preempt_room x n (f : fifo) :
  FifoSpec.fifo_inv n f -> Fifo._flowEnabled f <> 0 -> Fifo.storedCount f < n ->
  exists r' cs,
    Ring.preempt x (Fifo._elements f) = (true, r', cs) /\
    Fifo.preempt x f
    = (SPR_OK, Fifo._signalRead (Fifo.with_elements f r'), Fifo.forward f cs) /\
    RingSpec.wf r' /\ Ring._capacity r' = n + 1 /\
    Ring._count r' = Fifo.storedCount f + 1 /\
    RingSpec.contents Element_default r' = x :: fcontents f.
Proof.
  intros [Hwf Hcap] Hon Hroom. unfold Fifo.storedCount, Ring.storedCount in *.
  destruct (preempt_ok Element_default x _ Hwf ltac:(lia))
    as (r' & Hpre & Hwf' & (Hc' & _) & Hn' & Hcont).
  eexists r', _. split; [exact Hpre|].
  rewrite (preempt_on x f _ _ _ Hon Hpre).
  split; [reflexivity|]. split; [exact Hwf'|]. split; [congruence|].
  split; [exact Hn'|exact Hcont].
Qed.

Lemma preempt_full_fifo x n (f : fifo) :
  FifoSpec.fifo_inv n f -> Fifo._flowEnabled f <> 0 -> Fifo.storedCount f = n ->
  Fifo.preempt x f = (SPR_FIFOFULL, f, []).
Proof.
  intros [Hwf Hcap] Hon Hfull. unfold Fifo.storedCount, Ring.storedCount in *.
  rewrite (preempt_on x f _ _ _ Hon (preempt_full x _ Hwf ltac:(lia))).
  by rewrite with_elements_id.
Qed.

Lemma read_some n (f : fifo) :
  FifoSpec.fifo_inv n f -> 0 < Fifo.storedCount f ->
  exists e r' cs,
    Fifo.read Element_default f
    = (1, e, Fifo.with_hasBeenRead (Fifo._signalWrite (Fifo.with_elements f r')) true,
       Fifo.forward f cs) /\
    RingSpec.wf r' /\ Ring._capacity r' = n + 1 /\
    Ring._count r' = Fifo.storedCount f - 1 /\
    fcontents f = e :: RingSpec.contents Element_default r'.
Proof.
  intros [Hwf Hcap] Hpos. unfold Fifo.storedCount, Ring.storedCount in *.
  destruct (pop_ok Element_default Element_default 0 _ Hwf Hpos)
    as (e & r' & Hpop & Hwf' & (Hc' & _) & Hn' & Hcont).
  eexists e, r', _. rewrite (read_unfold Element_default f _ _ _ _ Hpop).
  split; [reflexivity|]. split; [exact Hwf'|]. split; [congruence|].
  split; [exact Hn'|exact Hcont].
Qed.

(** ** The producer's and the consumer's pairs of calls *)

Ltac split_all := repeat match goal with |- _ /\ _ => split end.

Lemma paired_inv_fields n k (f : fifo) :
  paired_inv n k f ->
  exists s,
    Fifo._readSem f = Some s /\
    Z.of_nat (Sem.count s) = Ring._count (Fifo._elements f) /\
    Z.of_nat (Sem.count (Fifo._writeSem f)) + Ring._count (Fifo._elements f) = n + k /\
    0 <= Ring._count (Fifo._elements f) <= n.
Proof.
  intros ([Hwf Hcap] & Hfl & [s Hs] & Hr & Hw).
  unfold FifoUse.read_permits, FifoUse.write_permits, Fifo.storedCount,
    Ring.storedCount in *.
  rewrite Hs in Hr. exists s. pose proof (wf_count_range _ Hwf).
  repeat split; try done; lia.
Qed.

Lemma produce_blocks x n k (f : fifo) :
  paired_inv n k f -> FifoUse.write_permits f = 0 ->
  FifoUse.produce x f = (Blocks, f, []).
Proof.
  intros (_ & Hfl & _) Hw. unfold FifoUse.produce, Fifo.waitForWriteSpace, Sem.Wait.
  unfold FifoUse.write_permits in Hw. rewrite Hfl. simpl.
  destruct (Sem.count (Fifo._writeSem f)); [done|lia].
Qed.

Lemma produce_ok x n k (f : fifo) :
  paired_inv n k f -> 0 < FifoUse.write_permits f -> Fifo.storedCount f < n ->
  exists f' cs,
    FifoUse.produce x f = (Returns SPR_OK, f', cs) /\
    paired_inv n k f' /\ fcontents f' = fcontents f ++ [x] /\
    Fifo.storedCount f' = Fifo.storedCount f + 1.
Proof.
  intros Hinv Hw Hroom. pose proof (paired_inv_fields n k f Hinv) as (s & Hs & Hr & Hsum & _).
  destruct Hinv as (Hfi & Hfl & _).
  unfold FifoUse.produce, Fifo.waitForWriteSpace, Sem.Wait, Fifo.waitForWriteSpace_wake.
  unfold FifoUse.write_permits in Hw. rewrite Hfl. simpl.
  destruct (Sem.count (Fifo._writeSem f)) as [|m] eqn:Hm; [lia|]. simpl. rewrite Hfl. simpl.
  destruct (write_room x n (Fifo.with_writeSem f {| Sem.count := m |}))
    as (r' & cs & Hpush & Hwrite & Hwf' & Hcap' & Hn' & Hc'); [done|simpl; lia|done|].
  rewrite Hwrite. eexists _, _. split; [reflexivity|].
  unfold FifoUse.paired_inv, FifoSpec.fifo_inv, FifoUse.read_permits,
    FifoUse.write_permits, Fifo.storedCount, Ring.storedCount, Fifo._signalRead in *.
  simpl in *. rewrite Hs. simpl. split_all; first [done | lia | tauto | by eexists].
Qed.

Lemma produce_full x n k (f : fifo) :
  paired_inv n k f -> 0 < FifoUse.write_permits f -> Fifo.storedCount f = n ->
  exists f',
    FifoUse.produce x f = (Returns SPR_FIFOFULL, f', []) /\
    paired_inv n (k - 1) f' /\ fcontents f' = fcontents f /\
    Fifo.storedCount f' = Fifo.storedCount f.
Proof.
  intros Hinv Hw Hfull. pose proof (paired_inv_fields n k f Hinv) as (s & Hs & Hr & Hsum & _).
  destruct Hinv as (Hfi & Hfl & _).
  unfold FifoUse.produce, Fifo.waitForWriteSpace, Sem.Wait, Fifo.waitForWriteSpace_wake.
  unfold FifoUse.write_permits in Hw. rewrite Hfl. simpl.
  destruct (Sem.count (Fifo._writeSem f)) as [|m] eqn:Hm; [lia|]. simpl. rewrite Hfl. simpl.
  rewrite (write_full x n (Fifo.with_writeSem f {| Sem.count := m |}));
    [|done|simpl; lia|done].
  eexists. split; [reflexivity|].
  unfold FifoUse.paired_inv, FifoSpec.fifo_inv, FifoUse.read_permits,
    FifoUse.write_permits, Fifo.storedCount, Ring.storedCount in *.
  simpl in *. rewrite Hs. simpl. split_all; first [done | lia | tauto | by eexists].
Qed.

Lemma consume_blocks n k (f : fifo) :
  paired_inv n k f -> Fifo.storedCount f = 0 ->
  FifoUse.consume Element_default f = (Blocks, None, f, []).
Proof.
  intros Hinv Hz. pose proof (paired_inv_fields n k f Hinv) as (s & Hs & Hr & _).
  unfold FifoUse.consume, Fifo.waitForReadData, Sem.Wait.
  unfold Fifo.storedCount, Ring.storedCount in Hz. rewrite Hs.
  destruct (Sem.count s); [done|lia].
Qed.

Lemma consume_ok n k (f : fifo) :
  paired_inv n k f -> 0 < Fifo.storedCount f ->
  exists e f' cs,
    FifoUse.consume Element_default f = (Returns 1, Some e, f', cs) /\
    paired_inv n k f' /\ fcontents f = e :: fcontents f' /\
    Fifo.storedCount f' = Fifo.storedCount f - 1.
Proof.
  intros Hinv Hpos. pose proof (paired_inv_fields n k f Hinv) as (s & Hs & Hr & Hsum & _).
  destruct Hinv as (Hfi & Hfl & _).
  unfold FifoUse.consume, Fifo.waitForReadData, Sem.Wait.
  unfold Fifo.storedCount, Ring.storedCount in Hpos. rewrite Hs.
  destruct (Sem.count s) as [|m] eqn:Hm; [lia|]. simpl.
  destruct (read_some n (Fifo.with_readSem f (Some {| Sem.count := m |})))
    as (e & r' & cs & Hread & Hwf' & Hcap' & Hn' & Hc'); [done|done|].
  rewrite Hread. eexists _, _, _. split; [reflexivity|].
  unfold FifoUse.paired_inv, FifoSpec.fifo_inv, FifoUse.read_permits,
    FifoUse.write_permits, Fifo.storedCount, Ring.storedCount, Fifo._signalWrite in *.
  simpl in *. split_all; first [done | lia | tauto | by eexists].
Qed.

Lemma paired_preempt_ok x n k (f : fifo) :
  paired_inv n k f -> Fifo.storedCount f < n ->
  exists f' cs,
    Fifo.preempt x f = (SPR_OK, f', cs) /\
    paired_inv n (k + 1) f' /\ fcontents f' = x :: fcontents f /\
    Fifo.storedCount f' = Fifo.storedCount f + 1.
Proof.
  intros Hinv Hroom. pose proof (paired_inv_fields n k f Hinv) as (s & Hs & Hr & Hsum & _).
  destruct Hinv as (Hfi & Hfl & _).
  destruct (preempt_room x n f) as (r' & cs & Hpre & Hp & Hwf' & Hcap' & Hn' & Hc');
    [done|lia|done|].
  rewrite Hp. eexists _, _. split; [reflexivity|].
  unfold FifoUse.paired_inv, FifoSpec.fifo_inv, FifoUse.read_permits,
    FifoUse.write_permits, Fifo.storedCount, Ring.storedCount, Fifo._signalRead in *.
  simpl in *. rewrite Hs. simpl. split_all; first [done | lia | tauto | by eexists].
Qed.

Lemma paired_preempt_full x n k (f : fifo) :
  paired_inv n k f -> Fifo.storedCount f = n ->
  Fifo.preempt x f = (SPR_FIFOFULL, f, []).
Proof.
  intros (Hfi & Hfl & _) Hfull. apply (preempt_full_fifo x n); [done|lia|done].
Qed.

(** The two halves of a producer's pair. *)
Lemma wait_write_paired n k (f : fifo) :
  paired_inv n k f ->
  (FifoUse.write_permits f = 0 /\ Fifo.waitForWriteSpace f = (Blocks, f)) \/
  (exists f1,
     Fifo.waitForWriteSpace f = (Returns SPR_OK, f1) /\
     paired_inv n (k - 1) f1 /\ Fifo._elements f1 = Fifo._elements f).
Proof.
  intros Hinv. pose proof (paired_inv_fields n k f Hinv) as (s & Hs & Hr & Hsum & _).
  destruct Hinv as (Hfi & Hfl & _).
  unfold Fifo.waitForWriteSpace, Sem.Wait, Fifo.waitForWriteSpace_wake,
    FifoUse.write_permits.
  rewrite Hfl. simpl.
  destruct (Sem.count (Fifo._writeSem f)) as [|m] eqn:Hm; [by left|right].
  simpl. rewrite Hfl. simpl. eexists. split; [reflexivity|].
  unfold FifoUse.paired_inv, FifoSpec.fifo_inv, FifoUse.read_permits,
    FifoUse.write_permits, Fifo.storedCount, Ring.storedCount in *.
  simpl in *. rewrite Hs. simpl. split_all; first [done | lia | tauto | by eexists].
Qed.

Lemma paired_write_ok x n k (f : fifo) :
  paired_inv n k f -> Fifo.storedCount f < n ->
  exists f' cs,
    Fifo.write x f = (SPR_OK, f', cs) /\
    paired_inv n (k + 1) f' /\ fcontents f' = fcontents f ++ [x].
Proof.
  intros Hinv Hroom. pose proof (paired_inv_fields n k f Hinv) as (s & Hs & Hr & Hsum & _).
  destruct Hinv as (Hfi & Hfl & _).
  destruct (write_room x n f) as (r' & cs & Hpush & Hp & Hwf' & Hcap' & Hn' & Hc');
    [done|lia|done|].
  rewrite Hp. eexists _, _. split; [reflexivity|].
  unfold FifoUse.paired_inv, FifoSpec.fifo_inv, FifoUse.read_permits,
    FifoUse.write_permits, Fifo.storedCount, Ring.storedCount, Fifo._signalRead in *.
  simpl in *. rewrite Hs. simpl. split_all; first [done | lia | tauto | by eexists].
Qed.

Lemma paired_write_full x n k (f : fifo) :
  paired_inv n k f -> Fifo.storedCount f = n ->
  Fifo.write x f = (SPR_FIFOFULL, f, []).
Proof.
  intros (Hfi & Hfl & _) Hfull. apply (write_full x n); [done|lia|done].
Qed.

(** One paired call: what it returns and what it keeps. *)
Lemma paired_step_inv op n k (f : fifo) :
  paired_inv n k f ->
  let '(o, f') := FifoUse.paired_step Element_default op f in
  paired_inv n (k + FifoUse.surplus [o]) f'.
Proof.
  intros Hinv. pose proof (paired_inv_fields n k f Hinv) as (s & Hs & Hr & Hsum & Hrange).
  destruct op as [x| |x]; simpl.
  - destruct (Z.eq_dec (FifoUse.write_permits f) 0) as [Hz|Hnz].
    + rewrite (produce_blocks x n k f Hinv Hz). simpl. by rewrite Z.add_0_r.
    + assert (Hpos : 0 < FifoUse.write_permits f) by (unfold FifoUse.write_permits in *; lia).
      destruct (Z.eq_dec (Fifo.storedCount f) n) as [Hfull|Hroom].
      * destruct (produce_full x n k f Hinv Hpos Hfull) as (f' & -> & Hinv' & _).
        simpl. by replace (k + (0 - 1)) with (k - 1) by lia.
      * unfold Fifo.storedCount, Ring.storedCount in Hroom.
        destruct (produce_ok x n k f Hinv Hpos) as (f' & cs & -> & Hinv' & _).
        { unfold Fifo.storedCount, Ring.storedCount. lia. }
        simpl. by rewrite Z.add_0_r.
  - destruct (Z.eq_dec (Fifo.storedCount f) 0) as [Hz|Hnz].
    + rewrite (consume_blocks n k f Hinv Hz). simpl. by rewrite Z.add_0_r.
    + unfold Fifo.storedCount, Ring.storedCount in Hnz.
      destruct (consume_ok n k f Hinv) as (e & f' & cs & -> & Hinv' & _).
      { unfold Fifo.storedCount, Ring.storedCount. lia. }
      simpl. by rewrite Z.add_0_r.
  - destruct (Z.eq_dec (Fifo.storedCount f) n) as [Hfull|Hroom].
    + rewrite (paired_preempt_full x n k f Hinv Hfull). simpl. by rewrite Z.add_0_r.
    + unfold Fifo.storedCount, Ring.storedCount in Hroom.
      destruct (paired_preempt_ok x n k f Hinv) as (f' & cs & -> & Hinv' & _).
      { unfold Fifo.storedCount, Ring.storedCount. lia. }
      simpl. by replace (k + (0 + 1)) with (k + 1) by lia.
Qed.

Lemma surplus_cons o (log : list (@FifoUse.paired_obs Element)) :
  FifoUse.surplus (o :: log) = FifoUse.surplus [o] + FifoUse.surplus log.
Proof.
  unfold FifoUse.surplus. simpl.
  destruct o as [x [c|]|r out|x c]; try lia.
  - destruct (c =? SPR_FIFOFULL); lia.
  - destruct (c =? SPR_OK); lia.
Qed.

Lemma paired_run_inv n ops : forall k (f : fifo),
  paired_inv n k f ->
  let '(log, f') := FifoUse.paired_run Element_default ops f in
  paired_inv n (k + FifoUse.surplus log) f'.
Proof.
  induction ops as [|op ops IH]; intros k f Hinv; simpl.
  - by rewrite Z.add_0_r.
  - pose proof (paired_step_inv op n k f Hinv) as Hstep.
    destruct (FifoUse.paired_step Element_default op f) as [o f1].
    specialize (IH _ f1 Hstep).
    destruct (FifoUse.paired_run Element_default ops f1) as [log f2].
    rewrite surplus_cons. by rewrite Z.add_assoc.
Qed.

Lemma paired_inv_start garbage n headMonitor mode userData tag canUnwait :
  0 <= n < INT_MAX ->
  paired_inv n 0
    (Fifo.setFlowEnabled true
       (Fifo.new garbage n headMonitor true mode userData tag canUnwait)).
Proof.
  intros Hn.
  pose proof (fifo_inv_new garbage n headMonitor true mode userData tag canUnwait Hn)
    as [Hwf Hcap].
  unfold FifoUse.paired_inv, FifoSpec.fifo_inv, FifoUse.read_permits,
    FifoUse.write_permits, Fifo.storedCount, Ring.storedCount.
  unfold Fifo.setFlowEnabled. simpl.
  assert (Hc : Ring._count
                 (Fifo._elements
                    (Fifo.new garbage n headMonitor true mode userData tag canUnwait)) = 0).
  { simpl. by destruct headMonitor. }
  simpl in Hc. rewrite Hc.
  split_all; try done; try lia.
Qed.




(** ** Teardown *)

Lemma Reset_loop_zero n : Sem.Reset_loop n = 0%nat.
Proof. by induction n. Qed.

Lemma contents_none (r : @Ring.circular_fifo Element) :
  Ring._count r = 0 -> RingSpec.contents Element_default r = [].
Proof.
  intros Hz. apply length_zero_iff_nil. rewrite length_contents, Hz. done.
Qed.

(** The polling loop on a FIFO whose read permits are its stored elements. *)
Lemma drain_spec try_busy n : try_busy <> 0 -> forall fuel (f : fifo),
  FifoSpec.fifo_inv n f -> is_Some (Fifo._readSem f) ->
  FifoUse.read_permits f = Fifo.storedCount f ->
  (length (fcontents f) < fuel)%nat ->
  exists f',
    FifoUse.drain Element_default try_busy fuel f = Some (fcontents f, f') /\
    Fifo.storedCount f' = 0 /\ FifoUse.read_permits f' = 0 /\
    Fifo._flowEnabled f' = Fifo._flowEnabled f.
Proof.
  intros Hbusy. induction fuel as [|fuel IH]; intros f Hfi [s Hs] Hr Hfuel; [lia|].
  pose proof Hfi as [Hwf Hcap]. pose proof (wf_count_range _ Hwf) as Hrange.
  unfold FifoUse.read_permits, Fifo.storedCount, Ring.storedCount in Hr.
  rewrite Hs in Hr.
  cbn [FifoUse.drain]. unfold Fifo.tryWaitForReadData, Sem.TryWait. rewrite Hs.
  destruct (Sem.count s) as [|k] eqn:Hk.
  - simpl. destruct (Z.eqb_spec try_busy 0) as [|_]; [done|].
    rewrite contents_none by lia.
    eexists. split; [reflexivity|].
    unfold FifoUse.read_permits, Fifo.storedCount, Ring.storedCount. simpl.
    rewrite Hk. split_all; try done; lia.
  - cbn [fst snd]. rewrite Z.eqb_refl.
    destruct (read_some n (Fifo.with_readSem f (Some {| Sem.count := k |})))
      as (e & r' & cs & Hread & Hwf' & Hcap' & Hn' & Hc'); [done| |].
    { unfold Fifo.storedCount, Ring.storedCount. simpl. lia. }
    rewrite Hread. simpl in Hc'. 
    set (f2 := Fifo.with_hasBeenRead _ true).
    destruct (IH f2) as (f' & Hd & Hz & Hp & Hfl).
    + split; [exact Hwf'|exact Hcap'].
    + by eexists.
    + unfold FifoUse.read_permits, Fifo.storedCount, Ring.storedCount. simpl.
      unfold Fifo.storedCount, Ring.storedCount in Hn'. simpl in Hn'. lia.
    + subst f2. simpl. rewrite Hc' in Hfuel. simpl in Hfuel. lia.
    + rewrite Hd. simpl. exists f'. rewrite Hc'. split; [reflexivity|].
      split; [done|]. split; [done|]. rewrite Hfl. done.
Qed.

Lemma setFlowEnabled_false_paired n k (f : fifo) :
  paired_inv n k f ->
  let f' := Fifo.setFlowEnabled false f in
  FifoSpec.fifo_inv n f' /\ is_Some (Fifo._readSem f') /\
  FifoUse.read_permits f' = Fifo.storedCount f' /\
  Fifo._elements f' = Fifo._elements f /\ Fifo._flowEnabled f' = 0.
Proof.
  intros Hinv. pose proof (paired_inv_fields n k f Hinv) as (s & Hs & Hr & Hsum & Hrange).
  destruct Hinv as ([Hwf Hcap] & Hfl & _).
  unfold Fifo.setFlowEnabled. rewrite Hfl. simpl.
  unfold FifoSpec.fifo_inv, FifoUse.read_permits, Fifo.storedCount, Ring.storedCount,
    Ring.capacity.
  destruct (Ring._count (Fifo._elements f) =? Ring._capacity (Fifo._elements f) - 1);
    simpl; rewrite Hs;
    destruct (Z.eqb_spec (Ring._count (Fifo._elements f)) 0) as [Hz|Hnz]; simpl;
    rewrite ?Hs, ?Reset_loop_zero; split_all; first [done | lia | by eexists].
Qed.

Lemma teardown_paired try_busy n k fuel (f : fifo) :
  try_busy <> 0 -> paired_inv n k f -> (length (fcontents f) < fuel)%nat ->
  exists f',
    FifoUse.teardown Element_default try_busy fuel f = Some (fcontents f, f') /\
    Fifo.storedCount f' = 0 /\ Fifo.getFlowEnabled f' = false.
Proof.
  intros Hbusy Hinv Hfuel.
  destruct (setFlowEnabled_false_paired _ _ _ Hinv) as (Hfi & Hsome & Hr & He & Hoff).
  destruct (drain_spec try_busy n Hbusy fuel _ Hfi Hsome Hr) as (f' & Hd & Hz & _ & Hfl).
  { by rewrite He. }
  exists f'. unfold FifoUse.teardown. rewrite Hd, He. split; [done|]. split; [done|].
  unfold Fifo.getFlowEnabled. rewrite Hfl, Hoff. done.
Qed.

(** X9: the owners' teardown ([setFlowEnabled(false)], then
    [while (tryWaitForReadData() == 0) read(x)]) on a FIFO used by paired
    producers and consumers: when a try-wait that finds no permit returns
    non-zero, the loop ends within one iteration more than the capacity, the
    reads hand out exactly the stored elements, oldest first, and the FIFO is
    left empty with flow disabled. *)
Theorem teardown_hands_out_what_is_stored garbage n headMonitor mode userData tag
    canUnwait ops try_busy fuel :
  0 <= n < INT_MAX -> try_busy <> 0 -> (Z.to_nat n < fuel)%nat ->
  let '(log, f) :=
    FifoUse.paired_run Element_default ops
      (Fifo.setFlowEnabled true
         (Fifo.new garbage n headMonitor true mode userData tag canUnwait)) in
  exists f',
    FifoUse.teardown Element_default try_busy fuel f = Some (fcontents f, f') /\
    Fifo.storedCount f' = 0 /\ Fifo.getFlowEnabled f' = false.
Proof.
  intros Hn Hbusy Hfuel.
  pose proof (paired_run_inv n ops 0 _
                (paired_inv_start garbage n headMonitor mode userData tag canUnwait Hn))
    as Hrun.
  destruct (FifoUse.paired_run _ _ _) as [log f].
  pose proof (paired_inv_fields _ _ _ Hrun) as (s & Hs & Hr & Hsum & Hrange).
  apply (teardown_paired try_busy n _ fuel f Hbusy Hrun).
  rewrite length_contents. lia.
Qed.

(** X10: [setFlowEnabled(b)] followed by [getFlowEnabled()] gives [b];
    setting the same value twice is the same as setting it once; the call
    never touches the stored elements or the has-been-read flag, and
    enabling touches no semaphore.  Disabling a FIFO whose flow was on
    empties the write semaphore when the FIFO is full and the read semaphore
    when it is empty, and leaves them as they were otherwise. *)
Theorem setFlowEnabled_round_trip b (f : fifo) :
  Fifo.getFlowEnabled (Fifo.setFlowEnabled b f) = b /\
  Fifo.setFlowEnabled b (Fifo.setFlowEnabled b f) = Fifo.setFlowEnabled b f /\
  Fifo._elements (Fifo.setFlowEnabled b f) = Fifo._elements f /\
  Fifo.hasBeenRead (Fifo.setFlowEnabled b f) = Fifo.hasBeenRead f /\
  (if b then
     Fifo._writeSem (Fifo.setFlowEnabled b f) = Fifo._writeSem f /\
     Fifo._readSem (Fifo.setFlowEnabled b f) = Fifo._readSem f
   else
     FifoUse.write_permits (Fifo.setFlowEnabled b f)
     = (if (Fifo._flowEnabled f =? 0) then FifoUse.write_permits f
        else if Fifo.storedCount f =? Ring.capacity (Fifo._elements f) - 1 then 0
        else FifoUse.write_permits f) /\
     FifoUse.read_permits (Fifo.setFlowEnabled b f)
     = (if (Fifo._flowEnabled f =? 0) then FifoUse.read_permits f
        else if Fifo.storedCount f =? 0 then 0
        else FifoUse.read_permits f)).
Proof.
  destruct f as [el rs ws mp fl hm cu ud tg hb].
  unfold Fifo.setFlowEnabled, Fifo.getFlowEnabled, Fifo.hasBeenRead,
    FifoUse.write_permits, FifoUse.read_permits, Fifo.storedCount.
  destruct b; simpl.
  - rewrite !andb_false_r, !andb_true_r. simpl.
    destruct (Z.eqb_spec fl 1) as [->|H1]; simpl; [done|].
    by destruct (Z.eqb_spec fl 1).
  - rewrite !andb_false_r, !andb_true_r, !orb_false_r.
    destruct (Z.eqb_spec fl 0) as [->|H0]; simpl; [done|].
    destruct (Ring.storedCount el =? Ring.capacity el - 1); simpl;
      destruct rs as [s|]; simpl;
      try destruct (Ring.storedCount el =? 0); simpl;
      rewrite ?Reset_loop_zero; done.
Qed.

End fifo_more.
(* ===================================================================== *)
(** * The pool over its lifetime *)
(* ===================================================================== *)

Section pool_facts.

Import Cmd CmdSpec Pool.

Implicit Types (m : memory) (a b p : positive) (c : FFCmd) (pl : FFCmdPool)
  (held l : list positive).

(** ** The client's references *)

Lemma refs_cons_eq a held : refs_held a (a :: held) = S (refs_held a held).
Proof. unfold refs_held. by rewrite filter_cons_True. Qed.

Lemma refs_cons_ne a b held : b <> a -> refs_held a (b :: held) = refs_held a held.
Proof. intros Hne. unfold refs_held. by rewrite filter_cons_False. Qed.

Lemma elem_refs a held : a ∈ held <-> (0 < refs_held a held)%nat.
Proof.
  induction held as [|b held IH].
  - split; [by intros ?%elem_of_nil|unfold refs_held; simpl; lia].
  - destruct (decide (b = a)) as [->|Hne].
    + rewrite refs_cons_eq. split; [lia|intros _; left].
    + rewrite refs_cons_ne by done. rewrite elem_of_cons, IH.
      split; [intros [?|?]; [congruence|done]|by right].
Qed.

Lemma refs_le_length a held : (refs_held a held <= length held)%nat.
Proof. unfold refs_held. apply length_filter. Qed.

Lemma refs_drop_eq a held :
  a ∈ held -> refs_held a held = S (refs_held a (drop_ref a held)).
Proof.
  induction held as [|b held IH]; [by intros ?%elem_of_nil|].
  intros Hin. simpl. destruct (decide (a = b)) as [<-|Hne].
  - by rewrite refs_cons_eq.
  - rewrite !refs_cons_ne by done. apply IH.
    apply elem_of_cons in Hin as [?|?]; done.
Qed.

Lemma refs_drop_ne a b held : b <> a -> refs_held b (drop_ref a held) = refs_held b held.
Proof.
  intros Hne. induction held as [|x held IH]; [done|].
  simpl. destruct (decide (a = x)) as [<-|Hax].
  - by rewrite refs_cons_ne.
  - destruct (decide (x = b)) as [->|Hxb].
    + by rewrite !refs_cons_eq, IH.
    + by rewrite !refs_cons_ne.
Qed.

Lemma length_drop a held : a ∈ held -> length held = S (length (drop_ref a held)).
Proof.
  induction held as [|b held IH]; [by intros ?%elem_of_nil|].
  intros Hin. simpl. destruct (decide (a = b)) as [<-|Hne]; [done|].
  simpl. f_equal. apply IH. apply elem_of_cons in Hin as [?|?]; done.
Qed.

Lemma in_use_same held held' :
  (forall x, x ∈ held <-> x ∈ held') -> length (in_use held) = length (in_use held').
Proof.
  intros Hsame. apply Permutation_length, NoDup_Permutation.
  - apply NoDup_remove_dups.
  - apply NoDup_remove_dups.
  - intros x. unfold in_use. by rewrite !elem_of_remove_dups.
Qed.

Lemma in_use_new a held : a ∉ held -> length (in_use (a :: held)) = S (length (in_use held)).
Proof. intros Hn. unfold in_use. simpl. by destruct (decide_rel _ _ _). Qed.

Lemma in_use_again a held : a ∈ held -> length (in_use (a :: held)) = length (in_use held).
Proof. intros Hn. unfold in_use. simpl. by destruct (decide_rel _ _ _). Qed.

Lemma in_use_drop_live a held :
  (2 <= refs_held a held)%nat -> length (in_use (drop_ref a held)) = length (in_use held).
Proof.
  intros H2. apply in_use_same. intros x. rewrite !elem_refs.
  destruct (decide (x = a)) as [->|Hne].
  - rewrite (refs_drop_eq a held) in H2 |- * by (apply elem_refs; lia). lia.
  - by rewrite refs_drop_ne.
Qed.

Lemma in_use_drop_last a held :
  refs_held a held = 1%nat ->
  length (in_use held) = S (length (in_use (drop_ref a held))) /\ a ∉ drop_ref a held.
Proof.
  intros H1. assert (Hin : a ∈ held) by (apply elem_refs; lia).
  assert (Hout : a ∉ drop_ref a held).
  { rewrite elem_refs. rewrite (refs_drop_eq a held Hin) in H1. lia. }
  split; [|done]. rewrite <- (in_use_new a) by done. apply in_use_same.
  intros x. rewrite elem_of_cons, !elem_refs.
  destruct (decide (x = a)) as [->|Hne]; [intuition lia|].
  rewrite refs_drop_ne by done. split; [by right|intros [?|?]; [congruence|done]].
Qed.

(** ** The free list *)

Lemma chain_frame p m m' head l :
  (forall a, a ∈ l -> cmds m' !! a = cmds m !! a) ->
  chain p m head l -> chain p m' head l.
Proof.
  revert head. induction l as [|a l IH]; intros head Hsame; simpl; [done|].
  intros (-> & c & Hc & Hp & Hrest). split; [done|]. exists c.
  split; [rewrite Hsame; [done|left]|]. split; [done|].
  apply IH; [|done]. intros x Hx. apply Hsame. by right.
Qed.

Lemma chain_store p m a c head l :
  a ∉ l -> chain p m head l -> chain p (store_cmd a c m) head l.
Proof.
  intros Hn. apply chain_frame. intros x Hx. simpl.
  apply lookup_insert_ne. intros ->. done.
Qed.

Lemma chain_store_pool p m q pl head l :
  chain p m head l -> chain p (store_pool q pl m) head l.
Proof. by apply chain_frame. Qed.

Lemma chain_cell p m head l a :
  chain p m head l -> a ∈ l -> exists c, cmds m !! a = Some c /\ _pool c = Some p.
Proof.
  revert head. induction l as [|x l IH]; intros head; simpl; [by intros _ ?%elem_of_nil|].
  intros (-> & c & Hc & Hp & Hrest) [->|Hin]%elem_of_cons; [by exists c|].
  by eapply IH.
Qed.

Lemma chain_none p m l : chain p m None l -> l = [].
Proof. destruct l; [done|]. by intros [? _]. Qed.

Lemma chain_some p m a l :
  chain p m (Some a) l ->
  exists c l', l = a :: l' /\ cmds m !! a = Some c /\ _pool c = Some p /\
               chain p m (_next c) l'.
Proof.
  destruct l as [|x l]; [done|]. intros ([= <-] & c & Hc & Hp & Hrest).
  by exists c, l.
Qed.

Lemma in_use_le held : (length (in_use held) <= length held)%nat.
Proof.
  unfold in_use. induction held as [|x held IH]; simpl; [done|].
  destruct (decide_rel _ _ _); simpl; lia.
Qed.

(** ** What each call keeps *)

#[local] Arguments in_use : simpl never.
#[local] Arguments refs_held : simpl never.

(** A store into a held cell that keeps its pool link, with the references
    held adjusted to the cell's new refcount. *)
Lemma pool_inv_held p M T m m' held held' l a c' :
  pool_inv p M T m held l -> a ∈ held ->
  cmds m' = <[a := c']> (cmds m) -> pools m' = pools m ->
  _pool c' = Some p ->
  (forall x, x ∈ held' <-> x ∈ held) ->
  (forall x, x <> a -> refs_held x held' = refs_held x held) ->
  _refcount c' = Z.of_nat (refs_held a held') ->
  pool_inv p M T m' held' l.
Proof.
  intros (pl & Hpl & HM & HT & Hch & Hnd & Hdisj & Hfc & Htc & Hheld)
    Hin Hcm Hpm Hp' Hsame Hrefs Hrc.
  exists pl. split; [by rewrite Hpm|]. split; [done|]. split; [done|].
  split.
  { eapply chain_frame; [|exact Hch]. intros x Hx. rewrite Hcm.
    apply lookup_insert_ne. intros ->. by apply (Hdisj _ Hx). }
  split; [done|]. split.
  { intros x Hx Hx'. apply (Hdisj x Hx). by apply Hsame. }
  split; [done|]. split.
  { rewrite Htc. by rewrite (in_use_same held' held). }
  intros x Hx. rewrite Hcm. destruct (decide (x = a)) as [->|Hne].
  - rewrite lookup_insert_eq. by exists c'.
  - rewrite lookup_insert_ne by done. rewrite Hrefs by done.
    apply Hheld. by apply Hsame.
Qed.

Lemma on_inv p M T m held l a op :
  pool_inv p M T m held l -> a ∈ held ->
  Z.of_nat (length l + length held) < INT_MAX ->
  exists m' l',
    cmd_step a op m = Some m' /\
    pool_inv p M T m' (held_after a op held) l' /\
    (length l' + length (held_after a op held) <= S (length l + length held))%nat.
Proof.
  intros Hinv Hin Hb.
  pose proof Hinv as (pl & Hpl & HM & HT & Hch & Hnd & Hdisj & Hfc & Htc & Hheld).
  destruct (Hheld a Hin) as (c & Hc & Hp & Hrc).
  pose proof (refs_le_length a held) as Hle.
  assert (Hpos : (0 < refs_held a held)%nat) by by apply elem_refs.
  destruct op as [t|d r| | |];
    unfold cmd_step, held_after, FF_CMD_ADDREF, FF_CMD_RELEASE.
  - destruct (init_spec m a c t Hc) as (m' & -> & Hcm & Hpm & _).
    exists m', l. split; [done|]. split; [|lia].
    by eapply (pool_inv_held p M T m m' held held l a).
  - destruct (set_data_spec m a c d r Hc) as (m' & -> & Hcm & Hpm & _).
    exists m', l. split; [done|]. split; [|lia].
    by eapply (pool_inv_held p M T m m' held held l a).
  - destruct (clear_data_spec m a c Hc) as (m' & -> & Hcm & Hpm & _).
    exists m', l. split; [done|]. split; [|lia].
    by eapply (pool_inv_held p M T m m' held held l a).
  - rewrite (addref_spec m a c Hc). simpl. eexists _, l. split; [reflexivity|].
    split; [|simpl; lia].
    eapply (pool_inv_held p M T m _ held (a :: held) l a); try done.
    + intros x. rewrite elem_of_cons. split; [intros [->|?]; done|by right].
    + intros x Hne. by rewrite refs_cons_ne.
    + simpl. rewrite refs_cons_eq, Hrc. rewrite wrap_int_id; unfold INT_MAX in *; lia.
  - destruct (decide (refs_held a held = 1%nat)) as [H1|Hmore].
    + destruct (release_spec_final m a c Hc) as (m' & Hrel & _ & _ & Hm').
      { rewrite Hrc, H1. done. }
      { intros q Hq. rewrite Hp in Hq. injection Hq as <-. by eexists. }
      rewrite Hrel. simpl. rewrite Hp in Hm'.
      destruct Hm' as (pl' & Hpl' & Hcm & Hpm).
      rewrite Hpl in Hpl'. injection Hpl' as <-.
      destruct (in_use_drop_last a held H1) as [Hlen Hout].
      pose proof (length_drop a held Hin) as Hld.
      exists m', (a :: l). split; [done|]. split; [|simpl; lia].
      exists (with_free_list pl (Some a) (wrap_u32 (free_count pl + 1))).
      split; [by rewrite Hpm, lookup_insert_eq|]. split; [done|]. split; [done|].
      split.
      { simpl. split; [done|]. eexists. split; [by rewrite Hcm, lookup_insert_eq|].
        split; [done|]. simpl.
        eapply chain_frame; [|exact Hch]. intros x Hx. rewrite Hcm.
        apply lookup_insert_ne. intros ->. by apply (Hdisj _ Hx). }
      split.
      { constructor; [|done]. intros Hx. by apply (Hdisj _ Hx). }
      split.
      { intros x [->|Hx]%elem_of_cons; [done|].
        intros Hx'. apply (Hdisj x Hx). apply elem_refs. apply elem_refs in Hx'.
        destruct (decide (x = a)) as [->|Hne]; [done|].
        by rewrite refs_drop_ne in Hx'. }
      split.
      { simpl. rewrite Hfc. rewrite wrap_u32_id; unfold UINT32_MOD, INT_MAX in *; lia. }
      split.
      { simpl. rewrite Htc. lia. }
      intros x Hx. assert (Hne : x <> a) by (intros ->; done).
      rewrite Hcm, lookup_insert_ne by done. rewrite refs_drop_ne by done.
      apply Hheld. apply elem_refs. apply elem_refs in Hx.
      by rewrite refs_drop_ne in Hx.
    + rewrite (release_spec_live m a c Hc).
      2:{ rewrite Hrc. rewrite wrap_int_id; unfold INT_MAX in *; lia. }
      simpl. eexists _, l. split; [reflexivity|].
      pose proof (length_drop a held Hin) as Hld. split; [|lia].
      assert (H2 : (2 <= refs_held a held)%nat) by lia.
      eapply (pool_inv_held p M T m _ held (drop_ref a held) l a); try done.
      * intros x. rewrite !elem_refs. destruct (decide (x = a)) as [->|Hne].
        -- rewrite (refs_drop_eq a held Hin) in H2. lia.
        -- by rewrite refs_drop_ne.
      * intros x Hne. by rewrite refs_drop_ne.
      * simpl. pose proof (refs_drop_eq a held Hin) as Heq.
        rewrite Hrc, wrap_int_id; unfold INT_MAX in *; lia.
Qed.

Lemma acquire_inv p M T m held l alloc_ok :
  pool_inv p M T m held l ->
  Z.of_nat (length l + length held) < INT_MAX ->
  exists r m' l',
    ff_cmd_pool_acquire (Some p) alloc_ok m = Some (r, m') /\
    pool_inv p M T m' (match r with Some a => a :: held | None => held end) l' /\
    (length l' + length (match r with Some a => a :: held | None => held end)
     <= S (length l + length held))%nat /\
    (forall a, r = Some a ->
       (a ∉ held) /\ exists c, cmds m' !! a = Some c /\ is_clean c) /\
    (r = None -> m' = m /\ l = [] /\
       (alloc_ok = false \/ (M <> 0 /\ M <= Z.of_nat (length (in_use held))))).
Proof.
  intros Hinv Hb.
  pose proof Hinv as (pl & Hpl & HM & HT & Hch & Hnd & Hdisj & Hfc & Htc & Hheld).
  pose proof (in_use_le held) as Hiu.
  unfold ff_cmd_pool_acquire. rewrite Hpl. simpl.
  destruct (free_list pl) as [a|] eqn:Hfl.
  - destruct (chain_some p m a l Hch) as (c & l' & -> & Hc & Hp & Hrest).
    rewrite Hc. simpl. rewrite Hc. simpl.
    apply NoDup_cons in Hnd as [Hal' Hnd']. cbn [length] in Hb, Hfc, Htc.
    assert (Hah : a ∉ held) by (apply Hdisj; left).
    eexists (Some a), _, l'. split; [reflexivity|]. split; [|split; [simpl; lia|split]].
    + eexists. split; [simpl; by rewrite lookup_insert_eq|]. simpl.
      split; [done|]. split; [done|]. split.
      { eapply chain_frame; [|exact Hrest]. intros x Hx. simpl.
        apply lookup_insert_ne. intros ->. done. }
      split; [done|]. split.
      { intros x Hx [->|Hx']%elem_of_cons; [done|].
        apply (Hdisj x); [by right|done]. }
      split.
      { rewrite Hfc. simpl. rewrite wrap_u32_id; unfold UINT32_MOD, INT_MAX in *; lia. }
      split.
      { rewrite Htc, in_use_new by done. simpl. lia. }
      intros x [->|Hx]%elem_of_cons.
      * rewrite lookup_insert_eq. eexists. split; [done|]. split; [done|].
        simpl. rewrite refs_cons_eq.
        assert (refs_held a held = 0%nat) as ->; [|done].
        destruct (refs_held a held) eqn:Hr; [done|].
        exfalso. apply Hah. apply elem_refs. lia.
      * assert (Hne : x <> a) by (intros ->; done).
        rewrite lookup_insert_ne by done. rewrite refs_cons_ne by done.
        by apply Hheld.
    + intros x [= <-]. split; [done|]. simpl. rewrite lookup_insert_eq.
      eexists. split; [done|]. apply reset_fields_clean.
    + done.
  - apply chain_none in Hch as ->. simpl in *.
    destruct ((max_size pl =? 0) || (total_count pl <? max_size pl)) eqn:Hroom.
    + destruct alloc_ok; simpl.
      * rewrite lookup_insert_eq. simpl.
        pose proof (calloc_fresh m) as Hfresh.
        assert (Hah : calloc m ∉ held).
        { intros Hx. destruct (Hheld _ Hx) as (c & Hc & _). by rewrite Hfresh in Hc. }
        eexists (Some (calloc m)), _, []. split; [reflexivity|].
        split; [|split; [simpl; lia|split]].
        -- eexists. split; [simpl; by rewrite lookup_insert_eq|]. simpl.
           split; [done|]. split.
           { intros HM0. rewrite wrap_u32_id by (unfold UINT32_MOD, INT_MAX in *; lia).
             specialize (HT HM0). rewrite HM in Hroom.
             apply orb_true_iff in Hroom as [Hz|Hlt]; [lia|]. lia. }
           split; [done|]. split; [constructor|]. split.
           { by intros x ?%elem_of_nil. }
           split; [done|]. split.
           { rewrite Htc, in_use_new by done.
             rewrite wrap_u32_id; unfold UINT32_MOD, INT_MAX in *; lia. }
           intros x [->|Hx]%elem_of_cons.
           ++ rewrite insert_insert_eq, lookup_insert_eq. eexists. split; [done|].
              split; [done|]. simpl. rewrite refs_cons_eq.
              assert (refs_held (calloc m) held = 0%nat) as ->; [|done].
              destruct (refs_held (calloc m) held) eqn:Hr; [done|].
              exfalso. apply Hah. apply elem_refs. lia.
           ++ assert (Hne : x <> calloc m) by (intros ->; done).
              rewrite !lookup_insert_ne by done. rewrite refs_cons_ne by done.
              by apply Hheld.
        -- intros x [= <-]. split; [done|]. simpl.
           rewrite insert_insert_eq, lookup_insert_eq.
           eexists. split; [done|]. apply reset_fields_clean.
        -- done.
      * eexists None, m, []. split; [reflexivity|]. split; [done|].
        split; [simpl; lia|]. split; [done|]. intros _. split; [done|]. split; [done|by left].
    + simpl. eexists None, m, []. split; [reflexivity|]. split; [done|].
      split; [simpl; lia|]. split; [done|]. intros _. split; [done|]. split; [done|].
      right. apply orb_false_iff in Hroom as [Hz Hlt]. rewrite HM in *. lia.
Qed.

Lemma pool_run_inv p M T ops : forall m held l,
  pool_inv p M T m held l ->
  Z.of_nat (length l + length held) + Z.of_nat (length ops) < INT_MAX ->
  exists m' held' l',
    pool_run p ops m held = Some (m', held') /\ pool_inv p M T m' held' l' /\
    (length l' + length held' <= length l + length held + length ops)%nat.
Proof.
  induction ops as [|op ops IH]; intros m held l Hinv Hb.
  - exists m, held, l. split; [done|]. split; [done|]. simpl. lia.
  - cbn [length] in Hb |- *. destruct op as [alloc_ok|a op]; cbn [pool_run].
    + destruct (acquire_inv p M T m held l alloc_ok Hinv ltac:(lia))
        as (r & m1 & l1 & -> & Hinv1 & Hlen & _).
      cbn [mbind option_bind].
      destruct (IH _ _ l1 Hinv1) as (m' & held' & l' & Hrun & Hinv' & Hlen'); [lia|].
      exists m', held', l'. split; [done|]. split; [done|]. lia.
    + destruct (decide (a ∈ held)) as [Hin|Hout].
      * destruct (on_inv p M T m held l a op Hinv Hin ltac:(lia))
          as (m1 & l1 & -> & Hinv1 & Hlen).
        cbn [mbind option_bind].
        destruct (IH _ _ l1 Hinv1) as (m' & held' & l' & Hrun & Hinv' & Hlen'); [lia|].
        exists m', held', l'. split; [done|]. split; [done|]. lia.
      * destruct (IH _ _ l Hinv) as (m' & held' & l' & Hrun & Hinv' & Hlen'); [lia|].
        exists m', held', l'. split; [done|]. split; [done|]. lia.
Qed.

(** ** Creation *)

Lemma create_loop_spec p M T n : forall room m l,
  pool_inv p M T m [] l ->
  Z.of_nat (length l + min n room) <= T ->
  Z.of_nat (length l + n) < UINT32_MOD ->
  exists m' l',
    create_loop n room p m = Some m' /\ pool_inv p M T m' [] l' /\
    length l' = (length l + min n room)%nat /\ calls m' = calls m /\
    (forall q, q <> p -> pools m' !! q = pools m !! q) /\
    (forall a, is_Some (cmds m !! a) -> cmds m' !! a = cmds m !! a).
Proof.
  induction n as [|n IH]; intros room m l Hinv HT Hb.
  - exists m, l. simpl. split; [done|]. split; [done|]. split; [lia|]. done.
  - destruct room as [|room].
    { exists m, l. simpl. split; [done|]. split; [done|]. split; [lia|]. done. }
    cbn [create_loop].
    destruct Hinv as (pl & Hpl & HM & HTb & Hch & Hnd & Hdisj & Hfc & Htc & Hheld).
    rewrite Hpl. cbn [mbind option_bind].
    pose proof (calloc_fresh m) as Hfresh.
    assert (Hal : calloc m ∉ l).
    { intros Hx. destruct (chain_cell p m _ l _ Hch Hx) as (c & Hc & _).
      by rewrite Hfresh in Hc. }
    assert (Htc' : total_count pl = Z.of_nat (length l))
      by (rewrite Htc; unfold in_use; simpl; lia).
    clear Htc. rename Htc' into Htc. cbn [Nat.min] in HT.
    match goal with
    | |- context [create_loop n room p ?m1] =>
        destruct (IH room m1 (calloc m :: l))
          as (m' & l' & Hrun & Hinv' & Hlen & Hcalls & Hpools & Hcmds);
          [| | |exists m', l'; split; [exact Hrun|]; split; [exact Hinv'|]]
    end.
    + eexists. split; [simpl; by rewrite lookup_insert_eq|]. simpl.
      split; [done|]. split.
      { intros _. rewrite Htc. rewrite wrap_u32_id; [|unfold UINT32_MOD in *; lia].
        lia. }
      split.
      { simpl. split; [done|]. eexists.
        split; [by rewrite lookup_insert_eq|]. split; [done|]. simpl.
        eapply chain_frame; [|exact Hch]. intros x Hx. simpl.
        apply lookup_insert_ne. intros <-. done. }
      split; [by constructor|]. split; [by intros x _ ?%elem_of_nil|].
      split.
      { rewrite Hfc. simpl. rewrite wrap_u32_id; unfold UINT32_MOD in *; lia. }
      split.
      { rewrite Htc. unfold in_use. simpl.
        rewrite wrap_u32_id; unfold UINT32_MOD in *; lia. }
      by intros x ?%elem_of_nil.
    + simpl. lia.
    + simpl. lia.
    + split; [rewrite Hlen; simpl; lia|]. split; [by rewrite Hcalls|]. split.
      * intros q Hq. rewrite Hpools by done. simpl. by rewrite lookup_insert_ne.
      * intros a Ha. rewrite Hcmds.
        -- simpl. apply lookup_insert_ne. intros <-. rewrite Hfresh in Ha.
           by destruct Ha.
        -- simpl. rewrite lookup_insert_ne; [done|]. intros <-. rewrite Hfresh in Ha.
           by destruct Ha.
Qed.

Lemma pool_create_inv initial_size max_size room m :
  0 <= initial_size < UINT32_MOD ->
  exists m',
    ff_cmd_pool_create initial_size max_size room m
    = Some (fresh (dom (pools m)), m') /\
    exists l,
      pool_inv (fresh (dom (pools m))) max_size
        (Z.min initial_size (Z.of_nat room)) m' [] l /\
      Z.of_nat (length l) = Z.min initial_size (Z.of_nat room) /\
      calls m' = calls m /\
      (forall q, is_Some (pools m !! q) -> pools m' !! q = pools m !! q) /\
      (forall a, is_Some (cmds m !! a) -> cmds m' !! a = cmds m !! a).
Proof.
  intros Hsz. unfold ff_cmd_pool_create.
  set (p := fresh (dom (pools m))).
  assert (Hp : pools m !! p = None) by (apply not_elem_of_dom, is_fresh).
  match goal with
  | |- context [create_loop _ room p ?m1] =>
      destruct (create_loop_spec p max_size (Z.min initial_size (Z.of_nat room))
                  (Z.to_nat initial_size) room m1 [])
        as (m' & l' & Hrun & Hinv & Hlen & Hcalls & Hpools & Hcmds); [| | |]
  end.
  - eexists. split; [simpl; by rewrite lookup_insert_eq|]. simpl.
    split; [done|]. split; [lia|]. split; [done|]. split; [constructor|].
    split; [by intros x ?%elem_of_nil|]. split; [done|]. split; [done|].
    by intros x ?%elem_of_nil.
  - simpl. lia.
  - simpl. lia.
  - rewrite Hrun. cbn [mbind option_bind]. exists m'. split; [done|]. exists l'.
    split; [done|]. split; [simpl in Hlen; lia|]. split; [done|]. split.
    + intros q Hq. rewrite Hpools.
      * simpl. apply lookup_insert_ne. intros <-. rewrite Hp in Hq. by destruct Hq.
      * intros ->. rewrite Hp in Hq. by destruct Hq.
    + intros a Ha. by rewrite Hcmds.
Qed.

(** X12: [ff_cmd_pool_create(initial_size, max_size)] pre-allocates
    [initial_size] cells, or as many as [calloc] gave before it failed
    ([room]); [max_size] does not limit them.  The new pool reports that
    number as total and as free and nothing in use, makes no adapter call
    and leaves the pools and commands that exist as they are. *)
Theorem pool_create_counts initial_size max_size room m :
  0 <= initial_size < UINT32_MOD ->
  exists p m',
    ff_cmd_pool_create initial_size max_size room m = Some (p, m') /\
    pools m !! p = None /\
    ff_cmd_pool_total_count (Some p) m' = Z.min initial_size (Z.of_nat room) /\
    ff_cmd_pool_free_count (Some p) m' = Z.min initial_size (Z.of_nat room) /\
    ff_cmd_pool_in_use_count (Some p) m' = 0 /\
    calls m' = calls m /\
    (forall q, is_Some (pools m !! q) -> pools m' !! q = pools m !! q) /\
    (forall a, is_Some (cmds m !! a) -> cmds m' !! a = cmds m !! a).
Proof.
  intros Hsz.
  destruct (pool_create_inv initial_size max_size room m Hsz)
    as (m' & Hcreate & l & Hinv & Hlen & Hcalls & Hpools & Hcmds).
  exists (fresh (dom (pools m))), m'. split; [done|].
  split; [apply not_elem_of_dom, is_fresh|].
  destruct Hinv as (pl & Hpl & _ & _ & _ & _ & _ & Hfc & Htc & _).
  unfold ff_cmd_pool_total_count, ff_cmd_pool_free_count, ff_cmd_pool_in_use_count.
  simpl. rewrite Hpl. simpl in Htc. rewrite Htc, Hfc.
  split; [lia|]. split; [lia|]. split; [|done].
  replace (Z.of_nat (length l + 0) - Z.of_nat (length l)) with 0 by lia. done.
Qed.

(** X11: a pool from its creation on, with a client that acquires commands
    and calls the command API (init, set/clear data, addref, release) on
    commands it holds a reference to.  No call dereferences a pointer to
    nothing; the pool's in-use count is the number of commands the client
    holds, free plus in-use is the total, and with [max_size] set the total
    never exceeds the larger of [max_size] and the number of cells the pool
    was created with; the refcount of a held command is the number of
    references the client holds to it; and an acquire never returns a command
    the client holds. *)
Theorem pool_accounting initial_size max_size room ops m0 :
  0 <= initial_size ->
  initial_size + Z.of_nat (length ops) < INT_MAX ->
  exists p m1 m held,
    ff_cmd_pool_create initial_size max_size room m0 = Some (p, m1) /\
    pool_run p ops m1 [] = Some (m, held) /\
    ff_cmd_pool_in_use_count (Some p) m = Z.of_nat (length (in_use held)) /\
    ff_cmd_pool_free_count (Some p) m + ff_cmd_pool_in_use_count (Some p) m
    = ff_cmd_pool_total_count (Some p) m /\
    (max_size <> 0 ->
     ff_cmd_pool_total_count (Some p) m
     <= Z.max max_size (Z.min initial_size (Z.of_nat room))) /\
    (forall a, a ∈ held ->
       exists c, cmds m !! a = Some c /\ _pool c = Some p /\
                 _refcount c = Z.of_nat (refs_held a held)) /\
    (forall alloc_ok a m',
       ff_cmd_pool_acquire (Some p) alloc_ok m = Some (Some a, m') -> a ∉ held) /\
    (exists l, pool_inv p max_size (Z.min initial_size (Z.of_nat room)) m held l).
Proof.
  intros H0 Hb.
  destruct (pool_create_inv initial_size max_size room m0)
    as (m1 & Hcreate & l0 & Hinv0 & Hlen0 & _); [unfold UINT32_MOD, INT_MAX in *; lia|].
  destruct (pool_run_inv _ _ _ ops m1 [] l0 Hinv0)
    as (m & held & l & Hrun & Hinv & Hlen).
  { simpl. lia. }
  eexists _, m1, m, held. split; [exact Hcreate|]. split; [exact Hrun|].
  pose proof Hinv as (pl & Hpl & HM & HT & Hch & Hnd & Hdisj & Hfc & Htc & Hheld).
  pose proof (in_use_le held) as Hiu. simpl in Hlen.
  assert (Hw : wrap_u32 (total_count pl - free_count pl) = Z.of_nat (length (in_use held))).
  { rewrite Htc, Hfc.
    replace (Z.of_nat (length l + length (in_use held)) - Z.of_nat (length l))
      with (Z.of_nat (length (in_use held))) by lia.
    apply wrap_u32_id. unfold UINT32_MOD, INT_MAX in *. lia. }
  unfold ff_cmd_pool_total_count, ff_cmd_pool_free_count, ff_cmd_pool_in_use_count.
  cbn [mbind option_bind]. rewrite Hpl, Hw.
  split; [done|]. split; [lia|]. split; [exact HT|].
  split; [exact Hheld|]. split; [|by exists l].
  intros alloc_ok a m' Hacq.
  destruct (acquire_inv _ _ _ m held l alloc_ok Hinv) as (r & m2 & l2 & Hacq' & _ & _ & Hr & _).
  { unfold INT_MAX in *. lia. }
  rewrite Hacq in Hacq'. injection Hacq' as <- <-. by destruct (Hr a eq_refl).
Qed.

(** ** Destruction *)

Lemma destroy_loop_spec p : forall l fuel m head,
  chain p m head l -> NoDup l -> (length l <= fuel)%nat ->
  exists m',
    destroy_loop fuel head m = Some m' /\
    pools m' = pools m /\ calls m' = calls m /\
    forall x, cmds m' !! x = if decide (x ∈ l) then None else cmds m !! x.
Proof.
  induction l as [|a l IH]; intros fuel m head Hch Hnd Hfuel.
  - simpl in Hch. subst head. exists m. destruct fuel; simpl; split_and!; try done.
  - destruct Hch as (-> & c & Hc & Hp & Hrest). apply NoDup_cons in Hnd as [Hal Hnd].
    destruct fuel as [|fuel]; [simpl in Hfuel; lia|]. cbn [destroy_loop].
    rewrite Hc. cbn [mbind option_bind].
    destruct (IH fuel (free_cmd a m) (_next c)) as (m' & Hrun & Hpools & Hcalls & Hcmds).
    + eapply chain_frame; [|exact Hrest]. intros x Hx. simpl.
      apply lookup_delete_ne. intros ->. done.
    + done.
    + simpl in Hfuel. lia.
    + exists m'. split; [done|]. split; [done|]. split; [done|].
      intros x. rewrite Hcmds. simpl.
      destruct (decide (x ∈ l)) as [Hin|Hout], (decide (x ∈ a :: l)) as [Hin'|Hout'];
        try done.
      * exfalso. apply Hout'. by right.
      * apply elem_of_cons in Hin' as [->|?]; [apply lookup_delete_eq|done].
      * apply lookup_delete_ne. intros ->. apply Hout'. left.
Qed.

(** The last release of a command whose pool is gone. *)
Lemma release_dangling m a c p :
  cmds m !! a = Some c -> wrap_int (_refcount c - 1) = 0 ->
  _pool c = Some p -> pools m !! p = None ->
  cmd_release (Some a) m = None.
Proof.
  intros Hc Hz Hp Hgone. unfold cmd_release. rewrite Hc.
  cbn -[ff_cmd_clear_data ff_cmd_pool_return wrap_int]. rewrite Hz.
  cbn -[ff_cmd_clear_data ff_cmd_pool_return wrap_int].
  destruct (clear_data_spec (store_cmd a (with_refcount c 0) m) a (with_refcount c 0))
    as (m2 & Hclr & Hc2 & Hp2 & Hl2).
  { simpl. by rewrite lookup_insert_eq. }
  rewrite Hclr. cbn -[ff_cmd_pool_return]. rewrite Hc2, lookup_insert_eq.
  cbn -[ff_cmd_pool_return]. rewrite Hp.
  unfold ff_cmd_pool_return. rewrite Hc2, lookup_insert_eq. cbn [mbind option_bind].
  rewrite Hp2. simpl. rewrite Hgone. done.
Qed.

(** X13: [ff_cmd_pool_destroy] on a pool in use.  It frees the cells on the
    free list, as many as the free count says, and the pool; it frees no
    command the client still holds.  Such a command stays allocated and still
    names the pool, so the release of its last reference, which hands the
    command back to the pool it names, then dereferences the freed pool. *)
Theorem pool_destroy_frees_the_free_list initial_size max_size room ops m0 fuel :
  0 <= initial_size ->
  initial_size + Z.of_nat (length ops) < INT_MAX ->
  (Z.to_nat initial_size + length ops <= fuel)%nat ->
  exists p m1 m held m' freed,
    ff_cmd_pool_create initial_size max_size room m0 = Some (p, m1) /\
    pool_run p ops m1 [] = Some (m, held) /\
    ff_cmd_pool_destroy (Some p) fuel m = Some m' /\
    pools m' !! p = None /\
    NoDup freed /\
    Z.of_nat (length freed) = ff_cmd_pool_free_count (Some p) m /\
    (forall x, cmds m' !! x = if decide (x ∈ freed) then None else cmds m !! x) /\
    (forall a, a ∈ held ->
       (a ∉ freed) /\ exists c, cmds m' !! a = Some c /\ _pool c = Some p) /\
    (forall a, refs_held a held = 1%nat -> FF_CMD_RELEASE (Some a) m' = None).
Proof.
  intros H0 Hb Hfuel.
  destruct (pool_create_inv initial_size max_size room m0)
    as (m1 & Hcreate & l0 & Hinv0 & Hlen0 & _); [unfold UINT32_MOD, INT_MAX in *; lia|].
  destruct (pool_run_inv _ _ _ ops m1 [] l0 Hinv0)
    as (m & held & l & Hrun & Hinv & Hlen).
  { simpl. lia. }
  simpl in Hlen.
  destruct Hinv as (pl & Hpl & HM & HT & Hch & Hnd & Hdisj & Hfc & Htc & Hheld).
  destruct (destroy_loop_spec _ l fuel m _ Hch Hnd) as (m2 & Hloop & Hpools & Hcalls & Hcmds).
  { lia. }
  eexists _, m1, m, held, (delete_pool _ m2), l.
  split; [exact Hcreate|]. split; [exact Hrun|].
  split.
  { unfold ff_cmd_pool_destroy. rewrite Hpl. cbn [mbind option_bind].
    rewrite Hloop. done. }
  split; [simpl; apply lookup_delete_eq|]. split; [done|].
  split.
  { unfold ff_cmd_pool_free_count. cbn [mbind option_bind]. by rewrite Hpl. }
  split; [exact Hcmds|].
  assert (Hstill : forall a, a ∈ held ->
            (a ∉ l) /\ exists c, cmds m2 !! a = Some c /\ _pool c = Some (fresh (dom (pools m0)))
                                 /\ _refcount c = Z.of_nat (refs_held a held)).
  { intros a Ha. assert (Hal : a ∉ l) by (intros Hx; by apply (Hdisj _ Hx)).
    split; [done|]. rewrite Hcmds, decide_False by done. by apply Hheld. }
  split.
  { intros a Ha. destruct (Hstill a Ha) as (Hal & c & Hc & Hp & _).
    split; [done|]. by exists c. }
  intros a H1. assert (Ha : a ∈ held) by (apply elem_refs; lia).
  destruct (Hstill a Ha) as (Hal & c & Hc & Hp & Hrc).
  unfold FF_CMD_RELEASE.
  apply (release_dangling _ a c (fresh (dom (pools m0)))); [done| |done|].
  - rewrite Hrc, H1. done.
  - simpl. apply lookup_delete_eq.
Qed.

End pool_facts.
(* ===================================================================== *)
(** * The media FIFOs *)
(* ===================================================================== *)

Section media_facts.

Import Media.

Implicit Types (f : media_fifo) (frame clone : option positive).

Abbreviation mcontents f := (RingSpec.contents (None : option positive) (Fifo._elements f)).

Lemma clones_of_app cs cs' : clones_of (cs ++ cs') = clones_of cs ++ clones_of cs'.
Proof. unfold clones_of. apply omap_app. Qed.

Lemma freed_of_app cs cs' : freed_of (cs ++ cs') = freed_of cs ++ freed_of cs'.
Proof. unfold freed_of. apply omap_app. Qed.

Lemma media_consume_eq f :
  media_step m_consume f
  = let '(_, out, f', _) := FifoUse.consume (None : option positive) f in
    ([], out ≫= id, f').
Proof.
  unfold media_step, FifoUse.consume, read.
  destruct (Fifo.waitForReadData f) as [[code|] f1]; [|done].
  destruct (code =? 0); [|done].
  by destruct (Fifo.read None f1) as [[[? ?] ?] ?].
Qed.

(** What one media call keeps: the pairing of the semaphores, and the
    clones made so far being those freed, handed out or stored. *)
Lemma media_step_inv n op f k :
  FifoUse.paired_inv n k f ->
  let '(cs, h, f') := media_step op f in
  (exists k', FifoUse.paired_inv n k' f') /\
  clones_of cs ++ stored f ≡ₚ freed_of cs ++ option_list h ++ stored f'.
Proof.
  intros Hinv. pose proof (paired_inv_fields n k f Hinv) as (s & Hs & Hr & Hsum & Hrange).
  destruct op as [frame clone| |frame clone].
  - unfold media_step.
    destruct (wait_write_paired n k f Hinv) as [[_ ->]|(f1 & -> & Hinv1 & He1)].
    { split; [by exists k|done]. }
    simpl. unfold write, stored. rewrite <- He1.
    destruct frame as [src|]; [|split; [by eexists|done]].
    destruct clone as [c|]; [|split; [by eexists|done]].
    destruct (Z.eq_dec (Fifo.storedCount f1) n) as [Hfull|Hroom].
    + rewrite (paired_write_full (Some c) n _ f1 Hinv1 Hfull). simpl.
      split; [by eexists|done].
    + destruct (paired_write_ok None (Some c) n _ f1 Hinv1) as (f2 & cs & -> & Hinv2 & Hc2).
      { unfold Fifo.storedCount, Ring.storedCount in *. rewrite He1 in Hroom |- *. lia. }
      simpl. split; [by eexists|]. rewrite Hc2, omap_app. simpl.
      by rewrite Permutation_cons_append.
  - rewrite media_consume_eq.
    destruct (Z.eq_dec (Fifo.storedCount f) 0) as [Hz|Hnz].
    + rewrite (consume_blocks None n k f Hinv Hz). split; [by exists k|done].
    + destruct (consume_ok None n k f Hinv) as (e & f' & cs & -> & Hinv' & Hc' & _).
      { unfold Fifo.storedCount, Ring.storedCount in *. lia. }
      split; [by exists k|]. unfold stored. rewrite Hc'. simpl.
      by destruct e.
  - unfold media_step, preempt, stored.
    destruct frame as [src|]; [|split; [by eexists|done]].
    destruct clone as [c|]; [|split; [by eexists|done]].
    destruct (Z.eq_dec (Fifo.storedCount f) n) as [Hfull|Hroom].
    + rewrite (paired_preempt_full (Some c) n k f Hinv Hfull). simpl.
      split; [by eexists|done].
    + destruct (paired_preempt_ok None (Some c) n k f Hinv) as (f2 & cs & -> & Hinv2 & Hc2 & _).
      { unfold Fifo.storedCount, Ring.storedCount in *. lia. }
      simpl. split; [by eexists|]. rewrite Hc2. done.
Qed.

Lemma media_run_inv n ops : forall f k,
  FifoUse.paired_inv n k f ->
  let '(cs, hs, f') := media_run ops f in
  (exists k', FifoUse.paired_inv n k' f') /\
  clones_of cs ++ stored f ≡ₚ freed_of cs ++ hs ++ stored f'.
Proof.
  induction ops as [|op ops IH]; intros f k Hinv; simpl.
  - split; [by exists k|done].
  - pose proof (media_step_inv n op f k Hinv) as Hstep.
    destruct (media_step op f) as [[cs h] f1]. destruct Hstep as [[k1 Hinv1] Hp1].
    specialize (IH f1 k1 Hinv1).
    destruct (media_run ops f1) as [[cs' hs] f2]. destruct IH as [Hinv2 Hp2].
    split; [done|]. rewrite clones_of_app, freed_of_app.
    trans (clones_of cs' ++ (clones_of cs ++ stored f)); [solve_Permutation|].
    rewrite Hp1.
    trans (freed_of cs ++ option_list h ++ (clones_of cs' ++ stored f1));
      [solve_Permutation|].
    rewrite Hp2. solve_Permutation.
Qed.

Lemma freed_of_frees (xs : list (option positive)) :
  freed_of (omap (fun x : option positive => free_call <$> x) xs) = omap id xs /\
  clones_of (omap (fun x : option positive => free_call <$> x) xs) = [].
Proof.
  induction xs as [|[x|] xs [IH1 IH2]]; [done| |done].
  split; [|exact IH2].
  change (x :: freed_of (omap (fun x : option positive => free_call <$> x) xs)
          = x :: omap id xs).
  by rewrite IH1.
Qed.

(** X14: [write] and [preempt] of a media FIFO.  Both return
    [FF_FIFO_INVALID_PARAMS] for a null frame and when the clone cannot be
    made, otherwise what the FIFO answers: flow disabled, full, or OK.  On OK
    the clone, not the caller's frame, is stored, at the back by [write] and
    at the front by [preempt], and nothing is freed.  On every other result
    the FIFO is left as it was and the clone, if one was made, is freed. *)
Theorem media_write_owns_the_clone n frame clone f :
  FifoSpec.fifo_inv n f ->
  let '(result, f', cs) := write frame clone f in
  let '(result_p, f_p, cs_p) := preempt frame clone f in
  result_p = result /\ cs_p = cs /\
  result = (match frame, clone with
            | Some _, Some _ =>
                if Fifo._flowEnabled f =? 0 then SPR_FLOWDISABLED
                else if Fifo.storedCount f <? n then FF_FIFO_OK else SPR_FIFOFULL
            | _, _ => FF_FIFO_INVALID_PARAMS
            end) /\
  (result = FF_FIFO_OK ->
   exists c, clone = Some c /\
     mcontents f' = mcontents f ++ [Some c] /\
     mcontents f_p = Some c :: mcontents f /\
     clones_of cs = [c] /\ freed_of cs = []) /\
  (result <> FF_FIFO_OK ->
   f' = f /\ f_p = f /\ freed_of cs = clones_of cs).
Proof.
  intros Hfi. pose proof Hfi as [Hwf Hcap]. pose proof (wf_count_range _ Hwf) as Hrange.
  unfold write, preempt.
  destruct frame as [src|]; [|by split_and!].
  destruct clone as [c|]; [|by split_and!].
  destruct (Z.eqb_spec (Fifo._flowEnabled f) 0) as [Hoff|Hon].
  { rewrite (write_off _ f Hoff), (preempt_off _ f Hoff). by split_and!. }
  destruct (Z.ltb_spec (Fifo.storedCount f) n) as [Hroom|Hfull].
  - destruct (write_room None (Some c) n f Hfi Hon Hroom)
      as (r' & cs & _ & -> & _ & _ & _ & Hc').
    destruct (preempt_room None (Some c) n f Hfi Hon Hroom)
      as (r'' & cs' & _ & -> & _ & _ & _ & Hc'').
    split_and!; try done.
    intros _. exists c. split_and!; try done.
    + unfold Fifo._signalRead. simpl. by destruct (Fifo._readSem f).
    + unfold Fifo._signalRead. simpl. by destruct (Fifo._readSem f).
  - assert (Hn : Fifo.storedCount f = n).
    { unfold Fifo.storedCount, Ring.storedCount in *. lia. }
    rewrite (write_full (Some c) n f Hfi Hon Hn), (preempt_full_fifo (Some c) n f Hfi Hon Hn).
    by split_and!.
Qed.

(** X15: a media FIFO from its creation to its destruction, with producers
    that wait for write space before [write], consumers that wait for read
    data before [read], and preempts.  The destructor's loop ends, and every
    clone the FIFO made has then been freed exactly once, at the write or
    preempt that could not queue it or by the destructor, unless a reader was
    handed it; nothing that is not such a clone is freed. *)
Theorem media_clones_are_freed_or_handed_out garbage n mode ops try_busy fuel :
  0 <= n < INT_MAX -> try_busy <> 0 -> (Z.to_nat n < fuel)%nat ->
  let '(cs, hs, f) :=
    media_run ops (Fifo.setFlowEnabled true (FrameFifo garbage n mode)) in
  exists frees f',
    destructor try_busy fuel f = Some (frees, f') /\
    clones_of frees = [] /\
    clones_of cs ≡ₚ freed_of (cs ++ frees) ++ hs /\
    Fifo.storedCount f' = 0.
Proof.
  intros Hn Hbusy Hfuel.
  pose proof (media_run_inv n ops _ 0
                (paired_inv_start garbage n None mode 0 0 true Hn)) as Hrun.
  unfold FrameFifo.
  destruct (media_run ops _) as [[cs hs] f]. destruct Hrun as [[k Hinv] Hperm].
  pose proof (paired_inv_fields n k f Hinv) as (s & Hs & Hr & Hsum & Hrange).
  destruct (teardown_paired None try_busy n k fuel f Hbusy Hinv) as (f' & Htd & Hz & _).
  { rewrite length_contents. lia. }
  destruct (freed_of_frees (mcontents f)) as [Hfreed Hclones].
  eexists _, f'. unfold destructor. rewrite Htd. split; [reflexivity|].
  split; [exact Hclones|]. split; [|done].
  rewrite freed_of_app, Hfreed.
  assert (H0 : stored (Fifo.setFlowEnabled true
                         (Fifo.new garbage n None true mode 0 0 true)) = []) by done.
  rewrite H0, app_nil_r in Hperm. rewrite Hperm. unfold stored. solve_Permutation.
Qed.

End media_facts.
(* ===================================================================== *)
(** * The command FIFO's destructor *)
(* ===================================================================== *)

Section cmd_queue_facts.

Import Cmd CmdSpec Pool CmdQueue.

Implicit Types (m : memory) (a p : positive) (held l : list positive) (f : cmd_fifo).

#[local] Arguments in_use : simpl never.
#[local] Arguments refs_held : simpl never.

(** The loop reads as the polling loop does and releases what it read. *)
Lemma destructor_loop_drain try_busy : forall fuel f m,
  destructor_loop try_busy fuel f m
  = match FifoUse.drain (None : option positive) try_busy fuel f with
    | Some (xs, f') =>
        match release_each xs m with
        | Some m' => Some (f', m')
        | None => None
        end
    | None => None
    end.
Proof.
  induction fuel as [|fuel IH]; intros f m; [done|].
  cbn [destructor_loop FifoUse.drain].
  destruct (Fifo.tryWaitForReadData try_busy f) as [code f1].
  destruct (code =? 0); [|done].
  destruct (Fifo.read None f1) as [[[c x] f2] cs].
  cbn [release_each].
  destruct (FF_CMD_RELEASE x m) as [[r m1]|] eqn:Hrel; cbn [mbind option_bind].
  - rewrite IH. destruct (FifoUse.drain None try_busy fuel f2) as [[xs f3]|]; [|done].
    cbn [mbind option_bind release_each]. rewrite Hrel. done.
  - destruct (FifoUse.drain None try_busy fuel f2) as [[xs f3]|]; [|done].
    cbn [mbind option_bind release_each]. rewrite Hrel. done.
Qed.

Lemma release_each_inv p M T : forall (xs : list (option positive)) m held l,
  pool_inv p M T m held l ->
  (forall a, (refs_held a (omap id xs) <= refs_held a held)%nat) ->
  Z.of_nat (length l + length held + length xs) < INT_MAX ->
  exists m' l',
    release_each xs m = Some m' /\
    pool_inv p M T m' (drop_refs (omap id xs) held) l' /\
    (length l' + length (drop_refs (omap id xs) held) <= length l + length held + length xs)%nat.
Proof.
  induction xs as [|x xs IH]; intros m held l Hinv Hsub Hb.
  - exists m, l. split; [done|]. split; [done|]. simpl. lia.
  - cbn [length] in Hb. destruct x as [a|].
    + assert (Hin : a ∈ held).
      { apply elem_refs. specialize (Hsub a).
        change (omap id (Some a :: xs)) with (a :: omap id xs) in Hsub.
        rewrite refs_cons_eq in Hsub. lia. }
      destruct (on_inv p M T m held l a c_release Hinv Hin ltac:(lia))
        as (m1 & l1 & Hstep & Hinv1 & Hlen1).
      unfold cmd_step in Hstep. cbn [release_each].
      destruct (FF_CMD_RELEASE (Some a) m) as [[r m1']|]; [|done].
      simpl in Hstep. injection Hstep as ->. cbn [mbind option_bind].
      unfold held_after in Hinv1, Hlen1.
      destruct (IH m1 (drop_ref a held) l1 Hinv1) as (m' & l' & Hrun & Hinv' & Hlen').
      * intros b. specialize (Hsub b).
        change (omap id (Some a :: xs)) with (a :: omap id xs) in Hsub.
        destruct (decide (b = a)) as [->|Hne].
        -- rewrite refs_cons_eq in Hsub. rewrite (refs_drop_eq a held Hin) in Hsub. lia.
        -- rewrite refs_cons_ne in Hsub by done. by rewrite refs_drop_ne.
      * lia.
      * change (drop_refs (omap id (Some a :: xs)) held)
          with (drop_refs (omap id xs) (drop_ref a held)).
        exists m', l'. split; [done|]. split; [done|]. cbn [length]. lia.
    + cbn [release_each FF_CMD_RELEASE mbind option_bind].
      destruct (IH m held l Hinv) as (m' & l' & Hrun & Hinv' & Hlen').
      * intros b. apply Hsub.
      * lia.
      * change (drop_refs (omap id (None :: xs)) held) with (drop_refs (omap id xs) held).
        exists m', l'. split; [done|]. split; [done|]. cbn [length]. lia.
Qed.

(** X16: [~FFCmdFifo()] on a FIFO used by paired producers and consumers,
    whose queued commands are references held on commands of a pool.  The
    loop ends, empties the FIFO and releases one reference for each queued
    command, without touching freed memory; the pool is left in a good
    state, with those references gone. *)
Theorem cmd_fifo_destructor_releases_the_queue p M T m held l n k f try_busy fuel :
  try_busy <> 0 ->
  FifoUse.paired_inv n k f ->
  (Z.to_nat n < fuel)%nat ->
  pool_inv p M T m held l ->
  (forall a, (refs_held a (queued f) <= refs_held a held)%nat) ->
  Z.of_nat (length l + length held) + n < INT_MAX ->
  exists f' m' l',
    destructor try_busy fuel f m = Some (f', m') /\
    Fifo.storedCount f' = 0 /\
    pool_inv p M T m' (drop_refs (queued f) held) l' /\
    ff_cmd_pool_in_use_count (Some p) m'
    = Z.of_nat (length (in_use (drop_refs (queued f) held))).
Proof.
  intros Hbusy Hpaired Hfuel Hinv Hsub Hb.
  pose proof (paired_inv_fields n k f Hpaired) as (s & Hs & Hr & Hsum & Hrange).
  destruct (teardown_paired None try_busy n k fuel f Hbusy Hpaired) as (f' & Htd & Hz & _).
  { rewrite length_contents. lia. }
  unfold FifoUse.teardown in Htd.
  destruct (release_each_inv p M T _ m held l Hinv Hsub) as (m' & l' & Hrel & Hinv' & Hlen).
  { rewrite length_contents. lia. }
  exists f', m', l'. unfold destructor. rewrite destructor_loop_drain, Htd, Hrel.
  split; [done|]. split; [done|]. split; [exact Hinv'|].
  destruct Hinv' as (pl & Hpl & _ & _ & _ & _ & _ & Hfc & Htc & _).
  unfold ff_cmd_pool_in_use_count. cbn [mbind option_bind]. rewrite Hpl, Htc, Hfc.
  rewrite length_contents in Hlen.
  match goal with
  | |- wrap_u32 (Z.of_nat (?x + length (in_use ?h)) - Z.of_nat ?x) = _ =>
      pose proof (in_use_le h) as Hiu;
      replace (Z.of_nat (x + length (in_use h)) - Z.of_nat x)
        with (Z.of_nat (length (in_use h))) by lia;
      change (drop_refs (queued f) held) with h
  end.
  apply wrap_u32_id. unfold UINT32_MOD, INT_MAX in *. lia.
Qed.

End cmd_queue_facts.
(* ===================================================================== *)
(** * The codec wrapper *)
(* ===================================================================== *)

Section wrapper_facts.

Import Wrapper.

Lemma get_hw_format_loop_spec vt offered rest :
  vt <> AV_PIX_FMT_NONE -> AV_PIX_FMT_NONE ∉ offered ->
  get_hw_format_loop vt (offered ++ AV_PIX_FMT_NONE :: rest)
  = Some (if decide (vt ∈ offered) then Some vt else None).
Proof.
  intros Hvt. induction offered as [|x offered IH]; intros Hnone.
  - cbn [app get_hw_format_loop]. rewrite Z.eqb_refl.
    destruct (decide (vt ∈ [])) as [Hin|_]; [by apply elem_of_nil in Hin|done].
  - apply not_elem_of_cons in Hnone as [Hx Hnone]. cbn [app get_hw_format_loop].
    destruct (Z.eqb_spec x AV_PIX_FMT_NONE) as [->|_]; [done|].
    destruct (Z.eqb_spec x vt) as [->|Hne].
    + destruct (decide (vt ∈ vt :: offered)) as [_|Hout]; [done|].
      exfalso. apply Hout. left.
    + rewrite IH by done.
      destruct (decide (vt ∈ offered)) as [Hin|Hout],
        (decide (vt ∈ x :: offered)) as [Hin'|Hout']; try done.
      * exfalso. apply Hout'. by right.
      * apply elem_of_cons in Hin' as [?|?]; [congruence|done].
Qed.

(** X17: [get_hw_format] on a list of offered formats that ends with
    [AV_PIX_FMT_NONE]: it returns VideoToolbox when that is among the
    formats offered, wherever it stands, and the first format offered
    otherwise; with nothing offered it returns [AV_PIX_FMT_NONE]. *)
Theorem get_hw_format_choice vt offered rest :
  vt <> AV_PIX_FMT_NONE -> AV_PIX_FMT_NONE ∉ offered ->
  get_hw_format vt (offered ++ AV_PIX_FMT_NONE :: rest)
  = Some (if decide (vt ∈ offered) then vt
          else default AV_PIX_FMT_NONE (head offered)).
Proof.
  intros Hvt Hnone. unfold get_hw_format.
  rewrite (get_hw_format_loop_spec vt offered rest Hvt Hnone).
  destruct (decide (vt ∈ offered)); [done|]. by destruct offered.
Qed.

Ltac closes_decoder_case :=
  cbn -[wrap_int]; split_and!;
  [vm_compute; done | vm_compute; lia | first [done | intros _; vm_compute; done]
  | intros [?|?]; first [lia | done]
  | first [done | intros ? [= <-]; cbn -[wrap_int]; split_and!; first [done | lia]]].

(** X18: [ff_decoder_create], whatever libav answers.  When it returns
    NULL, it has released everything it allocated; when it returns a
    decoder, [ff_decoder_destroy] releases everything it allocated; nothing
    is allocated or released twice.  A stream index below 0 or not below the
    number of streams gives NULL before anything is allocated, and the
    decoder is a hardware decoder exactly when hardware was asked for, the
    stream is video and the device could be created. *)
Theorem decoder_create_releases_what_it_allocates (i : decoder_inputs) (r : resource) :
  let '(ctx, cs) := ff_decoder_create i in
  let all := cs ++ ff_decoder_destroy ctx in
  allocations r all = releases r all /\
  (allocations r all <= 1)%nat /\
  (ctx = None -> allocations r cs = releases r cs) /\
  (stream_index i < 0 \/ wrap_int (nb_streams i) <= stream_index i -> ctx = None /\ cs = []) /\
  (forall c, ctx = Some c ->
     is_hardware c = use_hardware i && is_video i && hwdevice_ok i /\
     dec_stream_index c = stream_index i /\
     0 <= stream_index i < wrap_int (nb_streams i)).
Proof.
  unfold ff_decoder_create.
  destruct i as [dn fn nb si uh iv co fo ao po ho oo]. cbn [demux_ctx_null fmt_ctx_null
    nb_streams stream_index use_hardware is_video calloc_ok find_decoder_ok
    alloc_context_ok parameters_ok hwdevice_ok open_ok].
  destruct (dn || fn); [closes_decoder_case|].
  destruct (Z.ltb_spec si 0) as [Hneg|Hnn]; cbn [orb]; [closes_decoder_case|].
  destruct (Z.leb_spec (wrap_int nb) si) as [Hbig|Hok]; [closes_decoder_case|].
  destruct co; cbn [negb]; [|closes_decoder_case].
  destruct fo; cbn [negb]; [|destruct r; closes_decoder_case].
  destruct ao; cbn [negb]; [|destruct r; closes_decoder_case].
  destruct po; cbn [negb]; [|destruct r; closes_decoder_case].
  destruct uh, iv, ho, oo, r; closes_decoder_case.
Qed.

End wrapper_facts.
(* ===================================================================== *)
(** * The theorems above on concrete states and runs *)
(* ===================================================================== *)

Ltac ring_is_wf := unfold RingSpec.wf; vm_compute; repeat split; congruence.

(** The ring invariant after [Sample.ring_calls]. *)
Lemma ring_calls_keep_the_invariant :
  let r := RingSpec.ring_run 0 Sample.ring_calls
             (Ring.new 0 4 Circular_Fifo_Mode_Blocking) in
  Ring.capacity r = 4 + 1 /\
  length (Ring._array r) = Z.to_nat (4 + 1) /\
  0 <= RingSpec.hd r <= 4 /\
  0 <= RingSpec.tl r <= 4 /\
  Ring.storedCount r = (RingSpec.tl r - RingSpec.hd r) `mod` (4 + 1) /\
  0 <= Ring.storedCount r <= 4 /\
  length (RingSpec.contents 0 r) = Z.to_nat (Ring.storedCount r).
Proof.
  apply (ring_invariant_reachable 0 0 4 Circular_Fifo_Mode_Blocking Sample.ring_calls).
  unfold INT_MAX. lia.
Defined.

(** First in, first out on scenario (d)'s ring: D = 4 and E = 5 come out
    after A, B, C. *)
Lemma ring_ABC_then_DE :
  RingSpec.wf Scenario.ring_ABC /\
  exists r1 r2,
    RingSpec.pushes [4; 5] Scenario.ring_ABC = (replicate 2 true, r1) /\
    Ring.storedCount r1 = Ring.storedCount Scenario.ring_ABC + Z.of_nat 2 /\
    RingSpec.pops 0 (length (RingSpec.contents 0 Scenario.ring_ABC) + 2) r1
    = (pair true <$> (RingSpec.contents 0 Scenario.ring_ABC ++ [4; 5]), r2) /\
    Ring.storedCount r2 = 0 /\ RingSpec.is_empty r2.
Proof.
  assert (Hwf : RingSpec.wf Scenario.ring_ABC) by ring_is_wf.
  split; [exact Hwf|].
  apply (ring_first_in_first_out 0 [4; 5] Scenario.ring_ABC Hwf). vm_compute. discriminate.
Defined.

(** When the calls succeed, on scenario (d)'s ring. *)
Lemma ring_ABC_calls_succeed :
  ((Ring.push 7 Scenario.ring_ABC).1.1 = true
   <-> Ring.storedCount Scenario.ring_ABC < Ring.capacity Scenario.ring_ABC - 1) /\
  ((Ring.preempt 7 Scenario.ring_ABC).1.1 = true
   <-> Ring.storedCount Scenario.ring_ABC < Ring.capacity Scenario.ring_ABC - 1) /\
  ((Ring.pop 0 0 0 Scenario.ring_ABC).1.1.1 = true
   <-> 0 < Ring.storedCount Scenario.ring_ABC) /\
  ((Ring.push 7 Scenario.ring_ABC).1.1 = false ->
   Ring.push 7 Scenario.ring_ABC = (false, Scenario.ring_ABC, [])) /\
  ((Ring.preempt 7 Scenario.ring_ABC).1.1 = false ->
   Ring.preempt 7 Scenario.ring_ABC = (false, Scenario.ring_ABC, [])) /\
  ((Ring.pop 0 0 0 Scenario.ring_ABC).1.1.1 = false ->
   Ring.pop 0 0 0 Scenario.ring_ABC = (false, 0, Scenario.ring_ABC, [])).
Proof.
  apply (ring_calls_succeed_iff 0 7 0 0 Scenario.ring_ABC). ring_is_wf.
Defined.

(** What the head monitor of scenario (d)'s ring hears. *)
Lemma monitored_ABC_notifications :
  filter (fun c => is_head_call c = true) (Ring.push 7 Sample.monitored_ABC).2
  = (if Ring._headMonitor Sample.monitored_ABC
        && (Ring.storedCount Sample.monitored_ABC
            <? Ring.capacity Sample.monitored_ABC - 1)
        && (Ring.storedCount Sample.monitored_ABC =? 0)
     then [fifo_new_head 0] else []) /\
  (Ring.preempt 7 Sample.monitored_ABC).2
  = (if Ring._headMonitor Sample.monitored_ABC
        && (Ring.storedCount Sample.monitored_ABC
            <? Ring.capacity Sample.monitored_ABC - 1)
     then [fifo_new_head 0] else []) /\
  filter (fun c => is_head_call c = true) (Ring.pop 0 0 42 Sample.monitored_ABC).2
  = (if Ring._headMonitor Sample.monitored_ABC
        && (1 <? Ring.storedCount Sample.monitored_ABC)
     then [fifo_new_head 42] else []).
Proof.
  apply (head_monitor_notifications 0 7 0 42 Sample.monitored_ABC). ring_is_wf.
Defined.

(** The destructor on the ring with watermarks holding three elements. *)
Lemma marked3_destructor :
  exists r' cs,
    RingDtor.destructor 0
      (S (Z.to_nat (Ring.storedCount (Scenario.marked3 Circular_Fifo_Mode_Blocking))))
      0 (Scenario.marked3 Circular_Fifo_Mode_Blocking)
    = Some (default 0 (last (RingSpec.contents 0
                               (Scenario.marked3 Circular_Fifo_Mode_Blocking))),
            r', cs) /\
    Ring.storedCount r' = 0 /\ RingSpec.is_empty r' /\
    Ring._headMonitor r' = false /\
    filter (fun c => is_head_call c = true) cs = [] /\
    count_calls is_high_call cs = 0%nat /\
    count_calls is_low_call cs
    = (if bool_decide (is_Some (Ring._lowWaterMarkHandler
                                  (Scenario.marked3 Circular_Fifo_Mode_Blocking)))
          && (1 <=? RingDtor.low_trigger (Scenario.marked3 Circular_Fifo_Mode_Blocking))
          && (RingDtor.low_trigger (Scenario.marked3 Circular_Fifo_Mode_Blocking)
              <=? Ring.storedCount (Scenario.marked3 Circular_Fifo_Mode_Blocking))
       then 1%nat else 0%nat).
Proof.
  apply (ring_destructor_purges 0 0 (Scenario.marked3 Circular_Fifo_Mode_Blocking)).
  ring_is_wf.
Defined.



(** Teardown after [Sample.paired_calls]. *)
Lemma paired_calls_teardown :
  let '(log, f) :=
    FifoUse.paired_run 0 Sample.paired_calls
      (Fifo.setFlowEnabled true
         (Fifo.new 0 2 None true Circular_Fifo_Mode_Blocking 0 0 true)) in
  exists f',
    FifoUse.teardown 0 Scenario.try_busy 3 f
    = Some (RingSpec.contents 0 (Fifo._elements f), f') /\
    Fifo.storedCount f' = 0 /\ Fifo.getFlowEnabled f' = false.
Proof.
  apply (teardown_hands_out_what_is_stored 0 0 2 None Circular_Fifo_Mode_Blocking 0 0 true
           Sample.paired_calls Scenario.try_busy 3).
  - unfold INT_MAX. lia.
  - vm_compute. discriminate.
  - vm_compute. lia.
Defined.

(** The pool's accounts after [Sample.pool_calls]. *)
Lemma pool_calls_accounts :
  exists p m1 m held,
    Cmd.ff_cmd_pool_create 2 3 5 Cmd.empty_memory = Some (p, m1) /\
    Pool.pool_run p Sample.pool_calls m1 [] = Some (m, held) /\
    Cmd.ff_cmd_pool_in_use_count (Some p) m = Z.of_nat (length (Pool.in_use held)) /\
    Cmd.ff_cmd_pool_free_count (Some p) m + Cmd.ff_cmd_pool_in_use_count (Some p) m
    = Cmd.ff_cmd_pool_total_count (Some p) m /\
    (3 <> 0 ->
     Cmd.ff_cmd_pool_total_count (Some p) m <= Z.max 3 (Z.min 2 (Z.of_nat 5))) /\
    (forall a, a ∈ held ->
       exists c, Cmd.cmds m !! a = Some c /\ Cmd._pool c = Some p /\
                 Cmd._refcount c = Z.of_nat (Pool.refs_held a held)) /\
    (forall alloc_ok a m',
       Cmd.ff_cmd_pool_acquire (Some p) alloc_ok m = Some (Some a, m') -> a ∉ held) /\
    (exists l, Pool.pool_inv p 3 (Z.min 2 (Z.of_nat 5)) m held l).
Proof.
  apply (pool_accounting 2 3 5 Sample.pool_calls Cmd.empty_memory).
  - lia.
  - vm_compute. reflexivity.
Defined.

(** A pool asked for three cells with [max_size = 2]. *)
Lemma pool_created_above_max :
  exists p m',
    Cmd.ff_cmd_pool_create 3 2 5 Cmd.empty_memory = Some (p, m') /\
    Cmd.pools Cmd.empty_memory !! p = None /\
    Cmd.ff_cmd_pool_total_count (Some p) m' = Z.min 3 (Z.of_nat 5) /\
    Cmd.ff_cmd_pool_free_count (Some p) m' = Z.min 3 (Z.of_nat 5) /\
    Cmd.ff_cmd_pool_in_use_count (Some p) m' = 0 /\
    Cmd.calls m' = Cmd.calls Cmd.empty_memory /\
    (forall q, is_Some (Cmd.pools Cmd.empty_memory !! q) ->
               Cmd.pools m' !! q = Cmd.pools Cmd.empty_memory !! q) /\
    (forall a, is_Some (Cmd.cmds Cmd.empty_memory !! a) ->
               Cmd.cmds m' !! a = Cmd.cmds Cmd.empty_memory !! a).
Proof.
  apply (pool_create_counts 3 2 5 Cmd.empty_memory). unfold UINT32_MOD. lia.
Defined.

(** Destroying the pool after [Sample.pool_calls], with command 3 held. *)
Lemma pool_calls_then_destroy :
  exists p m1 m held m' freed,
    Cmd.ff_cmd_pool_create 2 3 5 Cmd.empty_memory = Some (p, m1) /\
    Pool.pool_run p Sample.pool_calls m1 [] = Some (m, held) /\
    Pool.ff_cmd_pool_destroy (Some p) 20 m = Some m' /\
    Cmd.pools m' !! p = None /\
    NoDup freed /\
    Z.of_nat (length freed) = Cmd.ff_cmd_pool_free_count (Some p) m /\
    (forall x, Cmd.cmds m' !! x = if decide (x ∈ freed) then None else Cmd.cmds m !! x) /\
    (forall a, a ∈ held ->
       (a ∉ freed) /\ exists c, Cmd.cmds m' !! a = Some c /\ Cmd._pool c = Some p) /\
    (forall a, Pool.refs_held a held = 1%nat -> Cmd.FF_CMD_RELEASE (Some a) m' = None).
Proof.
  apply (pool_destroy_frees_the_free_list 2 3 5 Sample.pool_calls Cmd.empty_memory 20).
  - lia.
  - vm_compute. reflexivity.
  - vm_compute. lia.
Defined.

(** A write and a preempt of frame 5, cloned as 100, on the enabled FIFO. *)
Lemma enabled_media_fifo_write :
  let '(result, f', cs) :=
    Media.write (Some 5%positive) (Some 100%positive) Sample.enabled_media_fifo in
  let '(result_p, f_p, cs_p) :=
    Media.preempt (Some 5%positive) (Some 100%positive) Sample.enabled_media_fifo in
  result_p = result /\ cs_p = cs /\
  result = (if Fifo._flowEnabled Sample.enabled_media_fifo =? 0 then SPR_FLOWDISABLED
            else if Fifo.storedCount Sample.enabled_media_fifo <? 2
                 then Media.FF_FIFO_OK else SPR_FIFOFULL) /\
  (result = Media.FF_FIFO_OK ->
   exists c, Some 100%positive = Some c /\
     RingSpec.contents None (Fifo._elements f')
     = RingSpec.contents None (Fifo._elements Sample.enabled_media_fifo) ++ [Some c] /\
     RingSpec.contents None (Fifo._elements f_p)
     = Some c :: RingSpec.contents None (Fifo._elements Sample.enabled_media_fifo) /\
     Media.clones_of cs = [c] /\ Media.freed_of cs = []) /\
  (result <> Media.FF_FIFO_OK ->
   f' = Sample.enabled_media_fifo /\ f_p = Sample.enabled_media_fifo /\
   Media.freed_of cs = Media.clones_of cs).
Proof.
  apply (media_write_owns_the_clone 2 (Some 5%positive) (Some 100%positive)
           Sample.enabled_media_fifo).
  split; [ring_is_wf|reflexivity].
Defined.

(** The clones of [Sample.media_calls] once the FIFO is destroyed. *)
Lemma media_calls_leave_no_clone :
  let '(cs, hs, f) :=
    Media.media_run Sample.media_calls
      (Fifo.setFlowEnabled true (Media.FrameFifo None 2 Circular_Fifo_Mode_Blocking)) in
  exists frees f',
    Media.destructor Scenario.try_busy 3 f = Some (frees, f') /\
    Media.clones_of frees = [] /\
    Media.clones_of cs ≡ₚ Media.freed_of (cs ++ frees) ++ hs /\
    Fifo.storedCount f' = 0.
Proof.
  apply (media_clones_are_freed_or_handed_out None 2 Circular_Fifo_Mode_Blocking
           Sample.media_calls Scenario.try_busy 3).
  - unfold INT_MAX. lia.
  - vm_compute. discriminate.
  - vm_compute. lia.
Defined.

(** Destroying the command FIFO that holds the one acquired command. *)
Lemma queue_of_one_destroyed :
  exists f' m' l',
    CmdQueue.destructor Scenario.try_busy 3 Sample.queue_of_one Scenario.one_acquired
    = Some (f', m') /\
    Fifo.storedCount f' = 0 /\
    Pool.pool_inv 1 0 1 m'
      (CmdQueue.drop_refs (CmdQueue.queued Sample.queue_of_one) [1%positive]) l' /\
    Cmd.ff_cmd_pool_in_use_count (Some 1%positive) m'
    = Z.of_nat (length (Pool.in_use
                          (CmdQueue.drop_refs (CmdQueue.queued Sample.queue_of_one)
                             [1%positive]))).
Proof.
  apply (cmd_fifo_destructor_releases_the_queue 1 0 1 Scenario.one_acquired
           [1%positive] [] 2 0 Sample.queue_of_one Scenario.try_busy 3).
  - vm_compute. discriminate.
  - split; [split; [ring_is_wf|reflexivity]|].
    split; [reflexivity|]. split; [eexists; reflexivity|].
    split; reflexivity.
  - vm_compute. lia.
  - exists Sample.pool_of_one.
    split; [vm_compute; reflexivity|]. split; [reflexivity|].
    split; [intros H; exfalso; apply H; reflexivity|].
    split; [reflexivity|]. split; [constructor|].
    split; [intros a Ha; inversion Ha|].
    split; [reflexivity|]. split; [vm_compute; reflexivity|].
    intros a Ha. apply list_elem_of_singleton in Ha as ->.
    exists Scenario.c1_cell. split; [vm_compute; reflexivity|].
    split; [reflexivity|]. vm_compute. reflexivity.
  - intros a. vm_compute. destruct (Pos.eq_dec 1 a); lia.
  - vm_compute. reflexivity.
Defined.

(** The decoder's choice among [Sample.offered_formats]. *)
Lemma offered_formats_choice :
  Wrapper.get_hw_format 160 (Sample.offered_formats ++ Wrapper.AV_PIX_FMT_NONE :: [])
  = Some (if decide (160 ∈ Sample.offered_formats) then 160
          else default Wrapper.AV_PIX_FMT_NONE (head Sample.offered_formats)).
Proof.
  apply (get_hw_format_choice 160 Sample.offered_formats []).
  - vm_compute. discriminate.
  - vm_compute. intros H. repeat (inversion H as [|? ? ? H']; clear H; rename H' into H).
Defined.
